(** * Agent-based models of chap09: Schelling's segregation model and Sugarscape

    A shallow embedding of the two simulation classes of the notebook
    [chap09] (Think Complexity, 2nd edition) together with the NumPy / SciPy
    primitives they call, and the properties of the per-tick update rules.

    Conventions of the embedding.
    - Python integers are [Z].  The cells of an integer array are [Z] as
      well; where the code does arithmetic on an int64 array the result is
      reduced to the range of int64 ([wrap64]), and a Python integer that
      int64 cannot hold is the [OverflowError] with which NumPy 2 refuses
      to convert it.
    - NumPy float64 values are modelled by exact rationals [Q] extended with
      a [NaN] element ([npfloat]); rounding is not modelled.  A magnitude
      that float64 cannot hold is rejected as the library rejects it.
    - An [n] by [n] NumPy array is its row-major buffer together with [n].
    - The global generator [np.random] is an explicit state: an infinite
      sequence of raw draws and a cursor.  Bounded draws reduce a raw draw
      modulo the bound.
    - Python exceptions are results [Raise e]; a statement that raises keeps
      the mutations performed before it.  [Diverge] marks a loop that
      exhausted the iteration budget handed to it. *)

From Stdlib Require Import ZArith QArith Qabs Lia Lqa.
From stdpp Require Import base option list numbers gmap sets sorting.

Local Open Scope Z_scope.

(** ** Results and the state-and-exception monad *)

Inductive exn :=
  | ValueError | IndexError | KeyError | AssertionError | ReferenceError
  | OverflowError.

Inductive result (A : Type) :=
  | Ret (a : A)
  | Raise (e : exn)
  | Diverge.
Arguments Ret {A} a.
Arguments Raise {A} e.
Arguments Diverge {A}.

Definition M (S A : Type) : Type := S -> result A * S.

Definition ret {S A} (a : A) : M S A := fun s => (Ret a, s).

Definition bind {S A B} (m : M S A) (k : A -> M S B) : M S B :=
  fun s =>
    match m s with
    | (Ret a, s') => k a s'
    | (Raise e, s') => (Raise e, s')
    | (Diverge, s') => (Diverge, s')
    end.

Definition raise {S A} (e : exn) : M S A := fun s => (Raise e, s).
Definition diverge {S A} : M S A := fun s => (Diverge, s).
Definition get {S} : M S S := fun s => (Ret s, s).
Definition put {S} (s : S) : M S unit := fun _ => (Ret tt, s).

(** [assert c] of Python. *)
Definition assert {S} (c : bool) : M S unit :=
  if c then ret tt else raise AssertionError.

(** An [option] whose [None] is the exception [e]. *)
Definition or_raise {S A} (e : exn) (o : option A) : M S A :=
  match o with
  | Some a => ret a
  | None => raise e
  end.

Declare Scope py_scope.
Delimit Scope py_scope with py.
Notation "x <- c1 ;; c2" := (bind c1 (fun x => c2))
  (at level 100, c1 at next level, right associativity) : py_scope.
Notation "c1 ;; c2" := (bind c1 (fun _ => c2))
  (at level 100, right associativity) : py_scope.

(** ** The random source, [np.random] *)

Record RandomState := { draws : nat -> nat; pos : nat }.

Definition next_raw (r : RandomState) : nat * RandomState :=
  (draws r (pos r), {| draws := draws r; pos := S (pos r) |}).

(** [random_interval i]: a draw in [0, i], inclusive. *)
Definition random_interval (i : nat) (r : RandomState) : nat * RandomState :=
  let '(x, r') := next_raw r in ((x mod S i)%nat, r').

(** The values of int64, and the reduction of an integer to them. *)
Definition int64 (z : Z) : Prop := - 2 ^ 63 <= z < 2 ^ 63.

Definition wrap64 (z : Z) : Z := (z + 2 ^ 63) mod 2 ^ 64 - 2 ^ 63.

(** [np.random.randint(low, high)]: a draw in [low, high), of type int64;
    [ValueError] when the range is empty, when [low] is below the least
    int64 and when [high - 1] is above the greatest. *)
Definition randint2 (low high : Z) (r : RandomState)
  : result Z * RandomState :=
  if decide (- 2 ^ 63 <= low ∧ high <= 2 ^ 63 ∧ low < high) then
    let '(x, r') := next_raw r in (Ret (low + Z.of_nat x mod (high - low)), r')
  else (Raise ValueError, r).

(** [np.random.randint(high)], called with the number of cells of an array
    or of one of its sides, which int64 holds. *)
Definition randint (high : Z) (r : RandomState) : result Z * RandomState :=
  if decide (0 < high) then
    let '(x, r') := next_raw r in (Ret (Z.of_nat x mod high), r')
  else (Raise ValueError, r).

(** [random_sample()]: a float in [0, 1), with 53 bits. *)
Definition random_sample (r : RandomState) : Q * RandomState :=
  let '(x, r') := next_raw r in
  ((Z.of_nat x mod 2 ^ 53) # (2 ^ 53), r').

(** The magnitudes float64 holds: those that round below [2 ^ 1024]. *)
Definition float_bound : Q := inject_Z (2 ^ 1024 - 2 ^ 970).

Definition is_finite (x : Q) : bool :=
  if Qlt_le_dec (Qabs x) float_bound then true else false.

(** [np.random.uniform(low, high)]; a bound that is no float64 and a range
    [high - low] that is none are an [OverflowError], raised before any
    draw. *)
Definition uniform (low high : Q) (r : RandomState) : result Q * RandomState :=
  if is_finite low && is_finite high && is_finite (high - low) then
    let '(u, r') := random_sample r in (Ret (low + (high - low) * u)%Q, r')
  else (Raise OverflowError, r).

(** The exchange [x[i], x[j] = x[j], x[i]]. *)
Definition swap {A} (x : list A) (i j : nat) : list A :=
  match x !! i, x !! j with
  | Some a, Some b => <[i := b]> (<[j := a]> x)
  | _, _ => x
  end.

(** [np.random.shuffle(x)]: for [i] from [len(x) - 1] down to [1], exchange
    [x[i]] with [x[j]], [j] drawn from [0, i]. *)
Fixpoint shuffle_loop {A} (i : nat) (x : list A) (r : RandomState)
  : list A * RandomState :=
  match i with
  | O => (x, r)
  | S i' =>
      let '(j, r') := random_interval i r in
      shuffle_loop i' (swap x i j) r'
  end.

Definition shuffle {A} (x : list A) (r : RandomState) : list A * RandomState :=
  shuffle_loop (length x - 1)%nat x r.

(** [np.random.permutation(x)] shuffles a copy of [x]. *)
Definition permutation {A} (x : list A) (r : RandomState)
  : list A * RandomState :=
  shuffle x r.

(** ** Square NumPy arrays *)

Definition loc : Type := Z * Z.

Record ndarray (A : Type) := { dim : Z; data : list A }.
Arguments dim {A} _.
Arguments data {A} _.

(** The shape agrees with the buffer. *)
Definition wf {A} (a : ndarray A) : Prop :=
  0 <= dim a ∧ length (data a) = Z.to_nat (dim a * dim a).

(** Index normalisation of Python: negative indices count from the end. *)
Definition py_index (n i : Z) : option Z :=
  if decide (0 <= i < n) then Some i
  else if decide (- n <= i < 0) then Some (i + n)
  else None.

Definition flat_index {A} (a : ndarray A) (l : loc) : option nat :=
  i ← py_index (dim a) l.1;
  j ← py_index (dim a) l.2;
  Some (Z.to_nat (i * dim a + j)).

(** [a[l]] *)
Definition getitem {A} (a : ndarray A) (l : loc) : option A :=
  k ← flat_index a l; data a !! k.

(** [a[l] = v] *)
Definition setitem {A} (a : ndarray A) (l : loc) (v : A)
  : option (ndarray A) :=
  k ← flat_index a l;
  _ ← data a !! k;
  Some {| dim := dim a; data := <[k := v]> (data a) |}.

(** All indices of an [n] by [m] grid, in row-major order. *)
Definition indices (n m : Z) : list loc :=
  i ← seqZ 0 n; j ← seqZ 0 m; [(i, j)].

Definition arr_map {A B} (f : A -> B) (a : ndarray A) : ndarray B :=
  {| dim := dim a; data := f <$> data a |}.

Definition arr_zip {A B C} (f : A -> B -> C) (a : ndarray A) (b : ndarray B)
  : ndarray C :=
  {| dim := dim a; data := zip_with f (data a) (data b) |}.

(** [np.sum(c)] of a boolean array. *)
Definition np_sum (c : ndarray bool) : Z :=
  Z.of_nat (length (filter (λ b, b = true) (data c))).

(** [locs_where(condition)]: the locations where [condition] is true, as
    [np.nonzero] enumerates them. *)
Definition locs_where (condition : ndarray bool) : list loc :=
  filter (λ l, getitem condition l = Some true)
         (indices (dim condition) (dim condition)).

(** Python list indexing [t[i]] and [t[i] = v]. *)
Definition list_getitem {A} (t : list A) (i : Z) : option A :=
  k ← py_index (Z.of_nat (length t)) i; t !! Z.to_nat k.

Definition list_setitem {A} (t : list A) (i : Z) (v : A) : option (list A) :=
  k ← py_index (Z.of_nat (length t)) i; Some (<[Z.to_nat k := v]> t).

(** ** Floats with NaN *)

Inductive npfloat := NaN | Fl (q : Q).

(** [x / d] on integer cells; a zero denominator is only ever met with a zero
    numerator here, and every such cell is overwritten by the caller. *)
Definition true_divide (x d : Z) : npfloat :=
  if decide (d = 0) then NaN else Fl (inject_Z x / inject_Z d)%Q.

(** [x < p]; comparisons with NaN are false. *)
Definition np_less (x : npfloat) (p : Q) : bool :=
  match x with
  | NaN => false
  | Fl q => if Qlt_le_dec q p then true else false
  end.

Definition is_nan (x : npfloat) : bool :=
  match x with NaN => true | Fl _ => false end.

Definition finite_values (l : list npfloat) : list Q :=
  omap (λ x, match x with NaN => None | Fl q => Some q end) l.

Definition Qsum (l : list Q) : Q := foldr Qplus 0%Q l.

(** [np.nanmean]: the mean of the entries that are not NaN; NaN when there is
    none. *)
Definition nanmean (a : ndarray npfloat) : npfloat :=
  let vs := finite_values (data a) in
  match vs with
  | [] => NaN
  | _ => Fl (Qsum vs / inject_Z (Z.of_nat (length vs)))%Q
  end.

(** Generator operations inside a world that carries the generator. *)
Definition rand {S A} (f : RandomState -> A * RandomState)
  : M (S * RandomState) A :=
  fun w => let '(a, r') := f w.2 in (Ret a, (w.1, r')).

Definition rand_result {S A} (f : RandomState -> result A * RandomState)
  : M (S * RandomState) A :=
  fun w => let '(a, r') := f w.2 in (a, (w.1, r')).

Definition sumZ (l : list Z) : Z := foldr Z.add 0 l.

(** ** Schelling's model *)

Module Schelling.

Local Open Scope py_scope.

(** The object: the threshold [p] and the grid; 0 is empty, 1 is red, 2 is
    blue. *)
Record t := { p : Q; array : ndarray Z }.

Definition world : Type := t * RandomState.

Definition kernel : list (list Z) :=
  [[1; 1; 1];
   [1; 0; 1];
   [1; 1; 1]].

(** Circular boundary of [correlate2d]: an index that leaves the array by
    less than its size re-enters on the other side. *)
Definition wrap (n i : Z) : Z :=
  if decide (i < 0) then i + n
  else if decide (n <= i) then i - n
  else i.

(** [correlate2d(in1, k, mode='same', boundary='wrap')] on a boolean
    array: the output cell [(i, j)] sums [k[u][v] * in1[i + u - c, j + v - c]],
    [c] the centre of the kernel. *)
Definition correlate2d (in1 : ndarray bool) (k : list (list Z)) : ndarray Z :=
  let n := dim in1 in
  let c := (Z.of_nat (length k) - 1) / 2 in
  {| dim := n;
     data :=
       (λ l : loc,
          sumZ (mjoin (imap (λ u row,
            imap (λ v w,
              w * Z.b2z (default false
                    (getitem in1 (wrap n (l.1 + Z.of_nat u - c),
                                  wrap n (l.2 + Z.of_nat v - c))))) row) k)))
       <$> indices n n |}.

(** [np.random.choice([0, 1, 2], p=[0.1, 0.45, 0.45])] from one sample. *)
Definition choice (u : Q) : Z :=
  if Qlt_le_dec u (1 # 10) then 0
  else if Qlt_le_dec u (11 # 20) then 1
  else 2.

Fixpoint choices (k : nat) (r : RandomState) : list Z * RandomState :=
  match k with
  | O => ([], r)
  | S k' =>
      let '(u, r1) := random_sample r in
      let '(l, r2) := choices k' r1 in
      (choice u :: l, r2)
  end.

(** [Schelling(n, p)] *)
Definition init (n : Z) (p0 : Q) (r : RandomState) : result t * RandomState :=
  if decide (n < 0) then (Raise ValueError, r)
  else
    let '(l, r') := choices (Z.to_nat (n * n)) r in
    (Ret {| p := p0; array := {| dim := n; data := l |} |}, r').

(** [count_neighbors]: the tuple [(empty, frac_red, frac_blue, frac_same)]. *)
Definition count_neighbors (a : ndarray Z)
  : ndarray bool * ndarray npfloat * ndarray npfloat * ndarray npfloat :=
  let empty := arr_map (λ v, bool_decide (v = 0)) a in
  let red := arr_map (λ v, bool_decide (v = 1)) a in
  let blue := arr_map (λ v, bool_decide (v = 2)) a in
  let num_red := correlate2d red kernel in
  let num_blue := correlate2d blue kernel in
  let num_neighbors := arr_zip Z.add num_red num_blue in
  let frac_red := arr_zip true_divide num_red num_neighbors in
  let frac_blue := arr_zip true_divide num_blue num_neighbors in
  let no_neighbors := arr_map (λ v, bool_decide (v = 0)) num_neighbors in
  let frac_red :=
    arr_zip (λ (m : bool) x, if m then Fl 0 else x) no_neighbors frac_red in
  let frac_blue :=
    arr_zip (λ (m : bool) x, if m then Fl 0 else x) no_neighbors frac_blue in
  let frac_same :=
    arr_zip (λ (c : bool) xy, if c then xy.1 else xy.2) red
            (arr_zip pair frac_red frac_blue) in
  let frac_same :=
    arr_zip (λ (m : bool) x, if m then NaN else x) empty frac_same in
  (empty, frac_red, frac_blue, frac_same).

Definition frac_same_of (a : ndarray Z) : ndarray npfloat :=
  (count_neighbors a).2.

Definition empty_of (a : ndarray Z) : ndarray bool :=
  (count_neighbors a).1.1.1.

(** [segregation] *)
Definition segregation (s : t) : npfloat := nanmean (frac_same_of (array s)).

Definition get_cell (l : loc) : M world Z :=
  w <- get ;; or_raise IndexError (getitem (array w.1) l).

Definition set_cell (l : loc) (v : Z) : M world unit :=
  w <- get ;;
  a <- or_raise IndexError (setitem (array w.1) l v) ;;
  put ({| p := p w.1; array := a |}, w.2).

Definition count_empty (a : ndarray Z) : Z :=
  np_sum (arr_map (λ v, bool_decide (v = 0)) a).

(** The body of [for source in unhappy_locs]. *)
Fixpoint move_loop (num_empty : Z) (unhappy_locs empty_locs : list loc)
  : M world unit :=
  match unhappy_locs with
  | [] => ret tt
  | source :: rest =>
      i <- rand_result (randint num_empty) ;;
      dest <- or_raise IndexError (list_getitem empty_locs i) ;;
      v <- get_cell source ;;
      set_cell dest v ;;
      set_cell source 0 ;;
      empty_locs <- or_raise IndexError (list_setitem empty_locs i source) ;;
      w <- get ;;
      let num_empty2 := count_empty (array w.1) in
      assert (bool_decide (num_empty = num_empty2)) ;;
      move_loop num_empty rest empty_locs
  end.

(** [step] *)
Definition step : M world npfloat :=
  w <- get ;;
  let a := array w.1 in
  let '(empty, _, _, frac_same) := count_neighbors a in
  let unhappy := arr_map (λ x, np_less x (p w.1)) frac_same in
  let unhappy_locs := locs_where unhappy in
  let empty_locs := locs_where empty in
  unhappy_locs <-
    (if decide (length unhappy_locs ≠ 0%nat)
     then rand (shuffle unhappy_locs)
     else ret unhappy_locs) ;;
  let num_empty := np_sum empty in
  move_loop num_empty unhappy_locs empty_locs ;;
  ret (nanmean frac_same).

(** [[grid.step() for i in range(k)]]: the series of segregation levels. *)
Fixpoint steps (k : nat) : M world (list npfloat) :=
  match k with
  | O => ret []
  | S k' => x <- step ;; xs <- steps k' ;; ret (x :: xs)
  end.

End Schelling.

(** ** Sugarscape *)

Module Sugarscape.

Local Open Scope py_scope.

(** The keyword parameters; [None] is an absent key. *)
Record Params := {
  starting_box : option (Z * Z);
  num_agents : option Z;
  grow_rate : option Z;
  replace : option bool;
  max_vision : option Z;
  max_metabolism : option Q;
  min_lifespan : option Q;
  max_lifespan : option Q;
  min_sugar : option Q;
  max_sugar : option Q
}.

(** An [Agent] object. *)
Record Agent := {
  loc_ : loc;
  age : Z;
  vision : Z;
  metabolism : Q;
  lifespan : Q;
  sugar : Q
}.

(** Agents are referred to by object identity. *)
Definition ref : Type := nat.

(** The [Sugarscape] object. *)
Record t := {
  n : Z;
  params : Params;
  agent_count_seq : list Z;
  capacity : ndarray Z;
  array : ndarray Z;
  agents : list ref;
  occupied : gset loc
}.

(** The object, the store of [Agent] objects and the generator. *)
Definition world : Type := (t * gmap ref Agent) * RandomState.

Definition env (w : world) : t := w.1.1.
Definition heap (w : world) : gmap ref Agent := w.1.2.

Definition get_env : M world t := w <- get ;; ret (env w).
Definition put_env (e : t) : M world unit :=
  w <- get ;; put ((e, heap w), w.2).

(** Attribute access through a reference; a reference that was never
    allocated raises [ReferenceError]. *)
Definition get_agent (a : ref) : M world Agent :=
  w <- get ;; or_raise ReferenceError (heap w !! a).

Definition set_agent (a : ref) (x : Agent) : M world unit :=
  w <- get ;; put ((env w, <[a := x]> (heap w)), w.2).

Definition alloc (x : Agent) : M world ref :=
  w <- get ;;
  let a := fresh (dom (heap w)) in
  put ((env w, <[a := x]> (heap w)), w.2) ;;
  ret a.

Definition set_array (e : t) (a : ndarray Z) : t :=
  {| n := n e; params := params e; agent_count_seq := agent_count_seq e;
     capacity := capacity e; array := a; agents := agents e;
     occupied := occupied e |}.

Definition set_agents (e : t) (l : list ref) : t :=
  {| n := n e; params := params e; agent_count_seq := agent_count_seq e;
     capacity := capacity e; array := array e; agents := l;
     occupied := occupied e |}.

Definition set_occupied (e : t) (o : gset loc) : t :=
  {| n := n e; params := params e; agent_count_seq := agent_count_seq e;
     capacity := capacity e; array := array e; agents := agents e;
     occupied := o |}.

Definition set_agent_count_seq (e : t) (l : list Z) : t :=
  {| n := n e; params := params e; agent_count_seq := l;
     capacity := capacity e; array := array e; agents := agents e;
     occupied := occupied e |}.

Definition set_loc (x : Agent) (l : loc) : Agent :=
  {| loc_ := l; age := age x; vision := vision x;
     metabolism := metabolism x; lifespan := lifespan x; sugar := sugar x |}.

Definition set_sugar (x : Agent) (s : Q) : Agent :=
  {| loc_ := loc_ x; age := age x; vision := vision x;
     metabolism := metabolism x; lifespan := lifespan x; sugar := s |}.

Definition set_age (x : Agent) (k : Z) : Agent :=
  {| loc_ := loc_ x; age := k; vision := vision x;
     metabolism := metabolism x; lifespan := lifespan x; sugar := sugar x |}.

(** [make_locs(n, m)] *)
Definition make_locs (n m : Z) : list loc := indices n m.

(** [make_array(d)] of [make_visible_locs] *)
Definition make_array (d : Z) (r : RandomState) : list loc * RandomState :=
  shuffle [(- d, 0); (d, 0); (0, - d); (0, d)] r.

Fixpoint make_arrays (ds : list Z) (r : RandomState)
  : list (list loc) * RandomState :=
  match ds with
  | [] => ([], r)
  | d :: ds' =>
      let '(a, r1) := make_array d r in
      let '(l, r2) := make_arrays ds' r1 in
      (a :: l, r2)
  end.

(** [make_visible_locs(vision)]; [np.vstack] of no array is a
    [ValueError]. *)
Definition make_visible_locs (vision : Z) (r : RandomState)
  : result (list loc) * RandomState :=
  let '(arrays, r') := make_arrays (seqZ 1 vision) r in
  match arrays with
  | [] => (Raise ValueError, r')
  | _ => (Ret (concat arrays), r')
  end.

(** [np.digitize(x, bins)] for decreasing [bins]: the number of edges
    above [x].  Distances are kept squared: for integer offsets,
    [b > hypot(dx, dy)] exactly when [b * b > dx * dx + dy * dy]. *)
Definition digitize_sq (d2 : Z) (bins : list Z) : Z :=
  Z.of_nat (length (filter (λ b, d2 < b * b) bins)).

(** [distances_from(n, i, j)], squared. *)
Definition distances_from_sq (n i j : Z) : ndarray Z :=
  {| dim := n;
     data := (λ l : loc, (l.1 - i) * (l.1 - i) + (l.2 - j) * (l.2 - j))
             <$> indices n n |}.

(** [make_capacity] *)
Definition make_capacity (n : Z) : ndarray Z :=
  let dist1 := distances_from_sq n 15 15 in
  let dist2 := distances_from_sq n 35 35 in
  let dist := arr_zip Z.min dist1 dist2 in
  let bins := [21; 16; 11; 6] in
  arr_map (λ d, digitize_sq d bins) dist.

(** [Agent(loc, params)] *)
Definition Agent_init (l : loc) (ps : Params) : M world ref :=
  let max_vision := default 6 (max_vision ps) in
  let max_metabolism := default 4%Q (max_metabolism ps) in
  let min_lifespan := default 10000%Q (min_lifespan ps) in
  let max_lifespan := default 10000%Q (max_lifespan ps) in
  let min_sugar := default 5%Q (min_sugar ps) in
  let max_sugar := default 25%Q (max_sugar ps) in
  v <- rand_result (randint2 1 (max_vision + 1)) ;;
  m <- rand_result (uniform 1 max_metabolism) ;;
  ls <- rand_result (uniform min_lifespan max_lifespan) ;;
  s <- rand_result (uniform min_sugar max_sugar) ;;
  alloc {| loc_ := l; age := 0; vision := v; metabolism := m;
           lifespan := ls; sugar := s |}.

(** [is_starving] and [is_old] *)
Definition is_starving (x : Agent) : bool :=
  if Qlt_le_dec (sugar x) 0 then true else false.

Definition is_old (x : Agent) : bool :=
  if Qlt_le_dec (lifespan x) (inject_Z (age x)) then true else false.

(** A list comprehension whose body may raise. *)
Fixpoint list_comp {S A B} (f : A -> M S B) (l : list A) : M S (list B) :=
  match l with
  | [] => ret []
  | x :: l' => y <- f x ;; ys <- list_comp f l' ;; ret (y :: ys)
  end.

(** [make_agents] *)
Definition make_agents : M world unit :=
  e <- get_env ;;
  let box := default (dim (array e), dim (array e))
                     (starting_box (params e)) in
  let locs := make_locs box.1 box.2 in
  locs <- rand (shuffle locs) ;;
  let num_agents := default 400 (num_agents (params e)) in
  assert (bool_decide (num_agents <= Z.of_nat (length locs))) ;;
  ags <- list_comp (λ i, l <- or_raise IndexError (list_getitem locs i) ;;
                         Agent_init l (params e))
                   (seqZ 0 num_agents) ;;
  ls <- list_comp (λ a, x <- get_agent a ;; ret (loc_ x)) ags ;;
  e <- get_env ;;
  put_env (set_occupied (set_agents e ags) (list_to_set ls)).

(** [Sugarscape(n, **params)]; [np.indices] rejects a negative size. *)
Definition init (n0 : Z) (ps : Params) (r : RandomState)
  : result unit * world :=
  let e := {| n := n0; params := ps; agent_count_seq := [];
              capacity := make_capacity n0; array := make_capacity n0;
              agents := []; occupied := ∅ |} in
  if decide (n0 < 0) then (Raise ValueError, ((e, ∅), r))
  else make_agents ((e, ∅), r).

(** [grow]: [self.array + grow_rate] is an addition of int64.  A rate that
    int64 cannot hold is an [OverflowError]; a sum that it cannot hold wraps
    around. *)
Definition grow : M world unit :=
  e <- get_env ;;
  let grow_rate := default 1 (grow_rate (params e)) in
  if decide (int64 grow_rate) then
    put_env (set_array e
      (arr_zip Z.min (arr_map (λ v, wrap64 (v + grow_rate)) (array e))
               (capacity e)))
  else raise OverflowError.

(** [np.argmax(t)]: the first index of the maximum. *)
Fixpoint argmax_from (best : Z) (besti i : nat) (t : list Z) : nat :=
  match t with
  | [] => besti
  | x :: t' =>
      if decide (best < x) then argmax_from x i (S i) t'
      else argmax_from best besti (S i) t'
  end.

Definition argmax (t : list Z) : option nat :=
  match t with
  | [] => None
  | x :: t' => Some (argmax_from x 0 1 t')
  end.

(** [x % n] of NumPy integers; a zero modulus yields 0. *)
Definition np_mod (x n : Z) : Z := if decide (n = 0) then 0 else x mod n.

(** [(locs + center) % n], rows converted to tuples. *)
Definition translate (n : Z) (center : loc) (locs : list loc) : list loc :=
  (λ o : loc, (np_mod (o.1 + center.1) n, np_mod (o.2 + center.2) n))
  <$> locs.

(** [look_and_move(center, vision)] *)
Definition look_and_move (center : loc) (vision : Z) : M world loc :=
  locs <- rand_result (make_visible_locs vision) ;;
  e <- get_env ;;
  let locs := translate (n e) center locs in
  let empty_locs := filter (λ l, l ∉ occupied e) locs in
  if decide (length empty_locs = 0%nat) then ret center
  else
    t <- list_comp (λ l, or_raise IndexError (getitem (array e) l))
                   empty_locs ;;
    i <- or_raise ValueError (argmax t) ;;
    or_raise IndexError (empty_locs !! i).

(** [harvest(loc)] *)
Definition harvest (l : loc) : M world Z :=
  e <- get_env ;;
  sugar <- or_raise IndexError (getitem (array e) l) ;;
  a <- or_raise IndexError (setitem (array e) l 0) ;;
  put_env (set_array e a) ;;
  ret sugar.

(** [Agent.step(env)] *)
Definition Agent_step (self : ref) : M world unit :=
  x <- get_agent self ;;
  l <- look_and_move (loc_ x) (vision x) ;;
  set_agent self (set_loc x l) ;;
  x <- get_agent self ;;
  h <- harvest (loc_ x) ;;
  set_agent self (set_sugar x (sugar x + (inject_Z h - metabolism x))%Q) ;;
  x <- get_agent self ;;
  set_agent self (set_age x (age x + 1)).

(** [random_loc]; [fuel] bounds the number of attempts. *)
Fixpoint random_loc (fuel : nat) : M world loc :=
  match fuel with
  | O => diverge
  | S fuel' =>
      e <- get_env ;;
      i <- rand_result (randint (n e)) ;;
      j <- rand_result (randint (n e)) ;;
      if decide ((i, j) ∈ occupied e) then random_loc fuel'
      else ret (i, j)
  end.

(** [add_agent] *)
Definition add_agent (fuel : nat) : M world ref :=
  e <- get_env ;;
  l <- random_loc fuel ;;
  new_agent <- Agent_init l (params e) ;;
  e <- get_env ;;
  put_env (set_agents e (agents e ++ [new_agent])) ;;
  x <- get_agent new_agent ;;
  e <- get_env ;;
  put_env (set_occupied e ({[loc_ x]} ∪ occupied e)) ;;
  ret new_agent.

(** [self.occupied.remove(l)] *)
Definition occupied_remove (l : loc) : M world unit :=
  e <- get_env ;;
  if decide (l ∈ occupied e) then put_env (set_occupied e (occupied e ∖ {[l]}))
  else raise KeyError.

(** [self.agents.remove(a)]: drops the first occurrence. *)
Fixpoint list_remove (a : ref) (l : list ref) : option (list ref) :=
  match l with
  | [] => None
  | b :: l' =>
      if decide (a = b) then Some l'
      else l'' ← list_remove a l'; Some (b :: l'')
  end.

Definition agents_remove (a : ref) : M world unit :=
  e <- get_env ;;
  l <- or_raise ValueError (list_remove a (agents e)) ;;
  put_env (set_agents e l).

(** The body of [for agent in random_order]. *)
Definition visit (fuel : nat) (replace : bool) (agent : ref) : M world unit :=
  x <- get_agent agent ;;
  occupied_remove (loc_ x) ;;
  Agent_step agent ;;
  x <- get_agent agent ;;
  if is_starving x || is_old x then
    agents_remove agent ;;
    if replace then (add_agent fuel ;; ret tt) else ret tt
  else
    e <- get_env ;;
    put_env (set_occupied e ({[loc_ x]} ∪ occupied e)).

Fixpoint agents_loop (fuel : nat) (replace : bool) (random_order : list ref)
  : M world unit :=
  match random_order with
  | [] => ret tt
  | agent :: rest =>
      visit fuel replace agent ;;
      agents_loop fuel replace rest
  end.

(** [step] *)
Definition step (fuel : nat) : M world Z :=
  e <- get_env ;;
  let replace := default false (replace (params e)) in
  random_order <- rand (permutation (agents e)) ;;
  agents_loop fuel replace random_order ;;
  e <- get_env ;;
  put_env (set_agent_count_seq e
             (agent_count_seq e ++ [Z.of_nat (length (agents e))])) ;;
  grow ;;
  e <- get_env ;;
  ret (Z.of_nat (length (agents e))).

(** [get_coords]: the transposed array of locations is unpacked into its
    two rows; with no agent it has no row, and the unpacking is a
    [ValueError]. *)
Definition get_coords : M world (list Q * list Q) :=
  e <- get_env ;;
  locs <- list_comp (λ a, x <- get_agent a ;; ret (loc_ x)) (agents e) ;;
  match locs with
  | [] => raise ValueError
  | _ =>
      let rows := (λ l : loc, l.1) <$> locs in
      let cols := (λ l : loc, l.2) <$> locs in
      let xs := (λ c, inject_Z c + (1 # 2))%Q <$> cols in
      let ys := (λ r, inject_Z r + (1 # 2))%Q <$> rows in
      ret (xs, ys)
  end.

(** Modelled from the spec: [Cell2D.loop], the driver inherited from the
    base class, which is not part of the sources: "advance N ticks, calling
    Step N times in sequence". *)
Fixpoint loop (fuel : nat) (iters : nat) : M world unit :=
  match iters with
  | O => ret tt
  | S k => step fuel ;; loop fuel k
  end.

End Sugarscape.

(** ** Predicates used to state the properties *)

(** Locations inside an [n] by [n] array, without the negative aliases. *)
Definition valid (n : Z) (l : loc) : Prop := 0 <= l.1 < n ∧ 0 <= l.2 < n.

(** The order in which NumPy enumerates the cells of an array: row by row,
    and left to right within a row. *)
Definition row_major (l1 l2 : loc) : Prop :=
  l1.1 < l2.1 ∨ (l1.1 = l2.1 ∧ l1.2 < l2.2).

(** ** Reading the draws in sequence *)

(** Two generators stand at the same position and deliver the same draws
    from there up to position [K]; what they deliver from [K] on may
    differ. *)
Definition agree (K : nat) (r1 r2 : RandomState) : Prop :=
  pos r1 = pos r2 ∧ ∀ i, (pos r1 <= i < K)%nat → draws r1 i = draws r2 i.

(** A function of the generator that reads the draws in sequence from the
    cursor: the cursor only advances, and the value and the new cursor
    depend on no draw but those between the old cursor and the new one. *)
Record gseq {A} (f : RandomState → A * RandomState) : Prop := {
  g_mono : ∀ r, (pos r <= pos (f r).2)%nat;
  g_local : ∀ K r1 r2,
    agree K r1 r2 → (pos (f r1).2 <= K)%nat →
    (f r2).1 = (f r1).1 ∧ agree K (f r1).2 (f r2).2
}.

(** The same for a computation on a state that carries the generator. *)
Record sequential {S A} (m : M (S * RandomState) A) : Prop := {
  s_mono : ∀ s r, (pos r <= pos (m (s, r)).2.2)%nat;
  s_local : ∀ K s r1 r2,
    agree K r1 r2 → (pos (m (s, r1)).2.2 <= K)%nat →
    (m (s, r2)).1 = (m (s, r1)).1 ∧ (m (s, r2)).2.1 = (m (s, r1)).2.1 ∧
    agree K (m (s, r1)).2.2 (m (s, r2)).2.2
}.

Module SchellingSpec.
Import Schelling.

(** A run of the notebook: [grid = Schelling(n, p)] followed by
    [[grid.step() for i in range(k)]].  It yields the series, the grid when
    one was built, and the generator. *)
Definition run (n : Z) (p0 : Q) (k : nat) (r : RandomState)
  : result (list npfloat) * (option t * RandomState) :=
  match init n p0 r with
  | (Ret s, r') =>
      ((steps k (s, r')).1,
       (Some (steps k (s, r')).2.1, (steps k (s, r')).2.2))
  | (Raise e, r') => (Raise e, (None, r'))
  | (Diverge, r') => (Diverge, (None, r'))
  end.

(** Every cell is empty (0), red (1) or blue (2). *)
Definition cells_ok (a : ndarray Z) : Prop :=
  ∀ v, v ∈ data a → v = 0 ∨ v = 1 ∨ v = 2.

(** The eight neighbours of a cell on the torus. *)
Definition neighbors (n : Z) (l : loc) : list loc :=
  (λ d : loc, ((l.1 + d.1) mod n, (l.2 + d.2) mod n))
  <$> [(-1, -1); (-1, 0); (-1, 1); (0, -1); (0, 1); (1, -1); (1, 0); (1, 1)].

(** How many of the locations [ls] hold a cell that satisfies [P]. *)
Definition count_cells (a : ndarray Z) (P : Z → bool) (ls : list loc) : Z :=
  Z.of_nat (length (filter (λ l, P <$> getitem a l = Some true) ls)).

(** The survey as the specification words it: over an occupied cell, the
    number of neighbours of the cell's own type divided by the number of
    occupied neighbours, 0 when no neighbour is occupied; NaN over an empty
    cell. *)
Definition frac_same_spec (a : ndarray Z) (l : loc) : npfloat :=
  match getitem a l with
  | None => NaN
  | Some c =>
      if decide (c = 0) then NaN
      else
        let nb := neighbors (dim a) l in
        let same := count_cells a (λ v, bool_decide (v = c)) nb in
        let occ := count_cells a (λ v, bool_decide (v ≠ 0)) nb in
        if decide (occ = 0) then Fl 0
        else Fl (inject_Z same / inject_Z occ)%Q
  end.

(** The occupied cells of a grid, row by row. *)
Definition occupied_locs (a : ndarray Z) : list loc :=
  filter (λ l, default 0 (getitem a l) ≠ 0) (indices (dim a) (dim a)).

(** The share of like neighbours of the agent at [l]: among its eight
    neighbours on the torus, those of its own type out of those that are
    occupied; 0 when none is occupied. *)
Definition same_share (a : ndarray Z) (l : loc) : Q :=
  let c := default 0 (getitem a l) in
  let nb := neighbors (dim a) l in
  let same := count_cells a (λ v, bool_decide (v = c)) nb in
  let occ := count_cells a (λ v, bool_decide (v ≠ 0)) nb in
  if decide (occ = 0) then 0%Q else (inject_Z same / inject_Z occ)%Q.

(** The mean of a list of numbers that is not empty. *)
Definition mean (qs : list Q) : Q :=
  (foldr Qplus 0 qs / inject_Z (Z.of_nat (length qs)))%Q.

(** A float that is NaN or lies in [0, 1]. *)
Definition unit_interval (x : npfloat) : Prop :=
  match x with NaN => True | Fl q => (0 <= q <= 1)%Q end.

(** The mask [frac_same < p]. *)
Definition unhappy_of (s : t) : ndarray bool :=
  arr_map (λ x, np_less x (p s)) (frac_same_of (array s)).

(** An unhappy cell: its fraction of like neighbours is below [p]. *)
Definition unhappy_cell (s : t) (l : loc) : Prop :=
  valid (dim (array s)) l ∧
  ∃ q, getitem (frac_same_of (array s)) l = Some (Fl q) ∧ (q < p s)%Q.

(** A cell that holds an agent. *)
Definition occupied_cell (a : ndarray Z) (l : loc) : Prop :=
  valid (dim a) l ∧ ∃ v, getitem a l = Some v ∧ v ≠ 0.

(** The state of the loop of moves: the pending sources are distinct
    occupied cells and [empty_locs] lists the empty cells, each once. *)
Record loop_inv (a : ndarray Z) (us es : list loc) (num_empty : Z) : Prop := {
  li_wf : wf a;
  li_count : count_empty a = num_empty;
  li_len : Z.of_nat (length es) = num_empty;
  li_es_nodup : NoDup es;
  li_es : ∀ e, e ∈ es → valid (dim a) e ∧ getitem a e = Some 0;
  li_us_nodup : NoDup us;
  li_us : ∀ u, u ∈ us → valid (dim a) u ∧ ∃ v, getitem a u = Some v ∧ v ≠ 0
}.

End SchellingSpec.

(** ** Sample inputs *)

(** A generator whose raw draws are [3, 10, 17, ...]. *)
Definition rs0 : RandomState :=
  {| draws := fun i => (7 * i + 3)%nat; pos := 0 |}.

(** A 3 by 3 grid with two empty cells. *)
Definition grid3 : Schelling.t :=
  {| Schelling.p := 1 # 2;
     Schelling.array := {| dim := 3; data := [1; 2; 0; 2; 2; 1; 0; 1; 1] |} |}.

(** A 4 by 4 grid with two empty cells. *)
Definition grid4 : Schelling.t :=
  {| Schelling.p := 1 # 2;
     Schelling.array :=
       {| dim := 4;
          data := [1; 2; 0; 2;  2; 1; 1; 0;  1; 1; 2; 2;  2; 2; 1; 1] |} |}.

(** A 3 by 3 grid of red agents around one empty cell: nobody is unhappy. *)
Definition grid_red : Schelling.t :=
  {| Schelling.p := 1 # 2;
     Schelling.array := {| dim := 3; data := [1; 1; 1; 1; 0; 1; 1; 1; 1] |} |}.

(** A 2 by 2 grid without agents. *)
Definition grid_void : Schelling.t :=
  {| Schelling.p := 1 # 2;
     Schelling.array := {| dim := 2; data := [0; 0; 0; 0] |} |}.

(** A full 2 by 2 grid whose red agent has only blue neighbours. *)
Definition grid_full : Schelling.t :=
  {| Schelling.p := 1 # 2;
     Schelling.array := {| dim := 2; data := [1; 2; 2; 2] |} |}.

Module SugarscapeSpec.
Import Sugarscape.

(** The four axis-aligned offsets at distance [d]. *)
Definition ring (d : Z) : list loc := [(- d, 0); (d, 0); (0, - d); (0, d)].

(** The length of an offset. *)
Definition distance (o : loc) : Z := Z.abs o.1 + Z.abs o.2.

(** An enumeration of the offsets visible with range [vision]: the rings at
    distances 1 to [vision], in nondecreasing order of distance. *)
Definition visible_enumeration (vision : Z) (offs : list loc) : Prop :=
  offs ≡ₚ (seqZ 1 vision ≫= ring) ∧
  StronglySorted (λ o1 o2, distance o1 <= distance o2) offs.

(** The cell that the offset [o] reaches from [center] on the torus of
    side [n]: each coordinate is taken modulo [n]. *)
Definition torus_cell (n : Z) (center o : loc) : loc :=
  ((center.1 + o.1) mod n, (center.2 + o.2) mod n).

(** The resource level of a cell. *)
Definition level (e : t) (c : loc) : Z := default 0 (getitem (array e) c).

End SugarscapeSpec.

Module SugarscapeChoice.
Import Sugarscape SugarscapeSpec.

(** The choice made by [look_and_move] once the offsets are drawn: the
    generator plays no further part. *)
Definition choose (e : t) (center : loc) (offs : list loc) : result loc :=
  let locs := translate (n e) center offs in
  let empty_locs := filter (λ l, l ∉ occupied e) locs in
  if decide (length empty_locs = 0%nat) then Ret center
  else
    match mapM (M := option) (getitem (array e)) empty_locs with
    | None => Raise IndexError
    | Some t =>
        match argmax t with
        | None => Raise ValueError
        | Some i =>
            match empty_locs !! i with
            | Some c => Ret c
            | None => Raise IndexError
            end
        end
    end.

End SugarscapeChoice.

Module SugarscapeInv.
Import Sugarscape.

Definition agent_loc (h : gmap ref Agent) (a : ref) : option loc :=
  loc_ <$> h !! a.

(** The occupancy index [occ] is in bijection with the population [ags]:
    the agents of the list are distinct live objects at distinct locations,
    and the index is the set of their locations. *)
Record bijection (ags : list ref) (occ : gset loc) (h : gmap ref Agent)
  : Prop := {
  inv_nodup : NoDup ags;
  inv_alloc : ∀ a, a ∈ ags → is_Some (h !! a);
  inv_inj : ∀ a b l, a ∈ ags → b ∈ ags →
                     agent_loc h a = Some l → agent_loc h b = Some l → a = b;
  inv_occ : ∀ l, l ∈ occ ↔ ∃ a, a ∈ ags ∧ agent_loc h a = Some l
}.

Definition Inv (e : t) (h : gmap ref Agent) : Prop :=
  bijection (agents e) (occupied e) h.

(** The record of an agent after [Agent.step] moved it to [l] and it
    harvested [v]. *)
Definition stepped (x : Agent) (l : loc) (v : Z) : Agent :=
  set_age
    (set_sugar (set_loc x l) (sugar x + (inject_Z v - metabolism x))%Q)
    (age x + 1).

(** An agent that [step] removes. *)
Definition dead (x : Agent) : bool := is_starving x || is_old x.

(** The bounds of a uniform draw are float64 values, and so is their
    difference. *)
Definition range_ok (lo hi : Q) : Prop :=
  is_finite lo && is_finite hi && is_finite (hi - lo) = true.

(** The parameters with which [Agent(loc, params)] draws its traits: the
    range of the vision is not empty and lies within int64, and the three
    uniform ranges are as the library accepts them. *)
Definition traits_ok (ps : Params) : Prop :=
  1 <= default 6 (max_vision ps) < 2 ^ 63 ∧
  range_ok 1 (default 4%Q (max_metabolism ps)) ∧
  range_ok (default 10000%Q (min_lifespan ps))
           (default 10000%Q (max_lifespan ps)) ∧
  range_ok (default 5%Q (min_sugar ps)) (default 25%Q (max_sugar ps)).

(** The part of the configuration that spawning an agent relies on. *)
Definition Cfg (e : t) : Prop := 0 < n e ∧ traits_ok (params e).

(** Shape of the arrays and position of the agents: every agent stands on a
    cell of the grid and sees at least one cell away. *)
Record Strong (e : t) (h : gmap ref Agent) : Prop := {
  st_wf : wf (array e);
  st_dim : dim (array e) = n e;
  st_cap_wf : wf (capacity e);
  st_cap_dim : dim (capacity e) = n e;
  st_agents : ∀ a, a ∈ agents e →
      ∃ x, h !! a = Some x ∧ valid (n e) (loc_ x) ∧ 1 <= vision x;
  st_cfg : agents e ≠ [] → Cfg e
}.

(** What holds of the shape of the arrays and of the position of the agents
    whatever the starting box: no agent stands at a negative coordinate. *)
Record Grounded (e : t) (h : gmap ref Agent) : Prop := {
  gr_wf : wf (array e);
  gr_dim : dim (array e) = n e;
  gr_cap_wf : wf (capacity e);
  gr_cap_dim : dim (capacity e) = n e;
  gr_agents : ∀ a, a ∈ agents e →
      ∃ x, h !! a = Some x ∧ 0 <= (loc_ x).1 ∧ 0 <= (loc_ x).2
}.

(** [a'] is [a] with some cells set to 0. *)
Definition zeroed (a a' : ndarray Z) : Prop :=
  dim a' = dim a ∧ Forall2 (λ v v', v' = v ∨ v' = 0) (data a) (data a').

(** Every cell holds a level that satisfies [P] and is at most its
    capacity, itself one of the levels 0 to 4. *)
Definition bounded_from (P : Z → Prop) (e : t) : Prop :=
  dim (array e) = dim (capacity e) ∧
  Forall2 (λ v c, P v ∧ v <= c ∧ 0 <= c <= 4)
          (data (array e)) (data (capacity e)).

(** What a call leaves untouched or only lowers. *)
Record evolves (e : t) (h : gmap ref Agent) (e' : t) (h' : gmap ref Agent)
  : Prop := {
  ev_n : n e' = n e;
  ev_params : params e' = params e;
  ev_capacity : capacity e' = capacity e;
  ev_seq : agent_count_seq e' = agent_count_seq e;
  ev_zeroed : zeroed (array e) (array e');
  ev_strong : Strong e h → Strong e' h';
  ev_grounded : Grounded e h → Grounded e' h'
}.

(** The starting box lies within the grid. *)
Definition box_fits (n0 : Z) (ps : Params) : Prop :=
  match starting_box ps with
  | None => True
  | Some b => b.1 <= n0 ∧ b.2 <= n0
  end.

(** The states of a simulation built by [Sugarscape(n0, **ps)]: the
    constructor returned, and so did every later call. *)
Inductive reachable (n0 : Z) (ps : Params) : world → Prop :=
  | reach_init r w :
      init n0 ps r = (Ret tt, w) → reachable n0 ps w
  | reach_step fuel w v w' :
      reachable n0 ps w → step fuel w = (Ret v, w') → reachable n0 ps w'
  | reach_add_agent fuel w a w' :
      reachable n0 ps w → add_agent fuel w = (Ret a, w') →
      reachable n0 ps w'
  | reach_harvest l w v w' :
      reachable n0 ps w → harvest l w = (Ret v, w') → reachable n0 ps w'
  | reach_grow w w' :
      reachable n0 ps w → grow w = (Ret tt, w') → reachable n0 ps w'.

(** A run of the notebook: [env = Sugarscape(n0, **ps)] followed by
    [N] ticks. *)
Definition run (n0 : Z) (ps : Params) (fuel N : nat) (r : RandomState)
  : result unit * world :=
  match init n0 ps r with
  | (Ret _, w) => loop fuel N w
  | (Raise e, w) => (Raise e, w)
  | (Diverge, w) => (Diverge, w)
  end.

(** The cell drawn by an attempt of [random_loc] that starts at position
    [j] of the sequence of draws. *)
Definition cell_at (n0 : Z) (d : nat → nat) (j : nat) : loc :=
  (Z.of_nat (d j) mod n0, Z.of_nat (d (S j)) mod n0).

(** A sequence of draws in which, from every position on, the attempts of
    [random_loc] meet every cell of the grid. *)
Definition fair (n0 : Z) (d : nat → nat) : Prop :=
  ∀ k c, valid n0 c → ∃ j, cell_at n0 d (k + 2 * j) = c.

End SugarscapeInv.

Module SugarscapeVisit.
Import Sugarscape SugarscapeInv.
Local Open Scope py_scope.

(** The part of [visit] that comes before the replacement: it tells whether
    [add_agent] is to be called.  The budget of [random_loc] plays no part
    in it. *)
Definition visit_prefix (replace : bool) (agent : ref) : M world bool :=
  x <- get_agent agent ;;
  occupied_remove (loc_ x) ;;
  Agent_step agent ;;
  x <- get_agent agent ;;
  if is_starving x || is_old x then
    agents_remove agent ;; ret replace
  else
    e <- get_env ;;
    put_env (set_occupied e ({[loc_ x]} ∪ occupied e)) ;;
    ret false.

End SugarscapeVisit.

(** ** Sample configurations *)

Module Samples.
Import Sugarscape.

(** Three agents with vision up to 2 that start without sugar, and
    replacement. *)
Definition ps0 : Params :=
  {| starting_box := None; num_agents := Some 3; grow_rate := None;
     replace := Some true; max_vision := Some 2; max_metabolism := None;
     min_lifespan := None; max_lifespan := None;
     min_sugar := Some 0%Q; max_sugar := Some 0%Q |}.

(** [Sugarscape(3, **ps0)] and the state after one call of [step]. *)
Definition w0 : world := (init 3 ps0 rs0).2.
Definition w1 : world := (step 5 w0).2.


(** The draws of [rs0] up to position 200, and nothing but zeros from
    there on. *)
Definition rs0_cut : RandomState :=
  {| draws := fun i => if (i <? 200)%nat then (7 * i + 3)%nat else 0%nat;
     pos := 0 |}.


(** One agent on a 1 by 1 grid. *)
Definition ps_one : Params :=
  {| starting_box := None; num_agents := Some 1; grow_rate := None;
     replace := None; max_vision := None; max_metabolism := None;
     min_lifespan := None; max_lifespan := None;
     min_sugar := None; max_sugar := None |}.

(** [Sugarscape(1, num_agents=1)]: one agent on the only cell. *)
Definition w_alone : world := (init 1 ps_one rs0).2.

(** The state [w0] after [harvest((1, 1))]. *)
Definition w_harvested : world := (harvest (1, 1) w0).2.

(** No agent, and the greatest growth rate that int64 holds. *)
Definition ps_wrap : Params :=
  {| starting_box := None; num_agents := Some 0;
     grow_rate := Some (2 ^ 63 - 1);
     replace := None; max_vision := None; max_metabolism := None;
     min_lifespan := None; max_lifespan := None;
     min_sugar := None; max_sugar := None |}.

(** No agent, and a negative growth rate. *)
Definition ps_shrink : Params :=
  {| starting_box := None; num_agents := Some 0; grow_rate := Some (-1);
     replace := None; max_vision := None; max_metabolism := None;
     min_lifespan := None; max_lifespan := None;
     min_sugar := None; max_sugar := None |}.

End Samples.

(** ** Facts about the array primitives *)

Section arrays.
Context {A : Type}.
Implicit Types (a : ndarray A) (l : loc).

Lemma row_bind (i m : Z) :
  (seqZ 0 m ≫= λ j, [(i, j)]) = (λ j, (i, j)) <$> seqZ 0 m.
Proof.
  induction (seqZ 0 m) as [|j js IH]; [done|].
  rewrite bind_cons, IH. done.
Qed.

Lemma indices_S (k : nat) (m : Z) :
  indices (Z.of_nat (S k)) m
  = indices (Z.of_nat k) m ++ ((λ j, (Z.of_nat k, j)) <$> seqZ 0 m).
Proof.
  unfold indices. rewrite seqZ_S, bind_app. f_equal.
  rewrite bind_singleton, Z.add_0_l. apply row_bind.
Qed.

Lemma length_indices_nat (k : nat) (m : Z) :
  0 <= m → length (indices (Z.of_nat k) m) = (k * Z.to_nat m)%nat.
Proof.
  intros Hm. induction k as [|k IH]; [done|].
  rewrite indices_S, length_app, IH, length_fmap, length_seqZ. lia.
Qed.

Lemma length_indices (n m : Z) :
  0 <= n → 0 <= m → length (indices n m) = Z.to_nat (n * m).
Proof.
  intros Hn Hm. rewrite <- (Z2Nat.id n) at 1 by done.
  rewrite length_indices_nat by done. lia.
Qed.

Lemma lookup_indices_nat (k : nat) (m i j : Z) :
  0 <= i < Z.of_nat k → 0 <= j < m →
  indices (Z.of_nat k) m !! Z.to_nat (i * m + j) = Some (i, j).
Proof.
  intros Hi Hj. induction k as [|k IH]; [lia|].
  rewrite indices_S.
  destruct (decide (i < Z.of_nat k)) as [Hlt|Hge].
  - rewrite lookup_app_l; [apply IH; lia|].
    rewrite length_indices_nat by lia. nia.
  - assert (i = Z.of_nat k) as -> by lia.
    rewrite lookup_app_r; rewrite length_indices_nat by lia; [|nia].
    replace (Z.to_nat (Z.of_nat k * m + j) - k * Z.to_nat m)%nat
      with (Z.to_nat j) by nia.
    rewrite list_lookup_fmap, lookup_seqZ_lt by lia.
    simpl. do 2 f_equal. lia.
Qed.

Lemma lookup_indices (n i j : Z) :
  0 <= i < n → 0 <= j < n →
  indices n n !! Z.to_nat (i * n + j) = Some (i, j).
Proof.
  intros Hi Hj.
  pose proof (lookup_indices_nat (Z.to_nat n) n i j) as H.
  rewrite Z2Nat.id in H by lia. apply H; lia.
Qed.

Lemma elem_of_indices (n m : Z) l :
  l ∈ indices n m ↔ 0 <= l.1 < n ∧ 0 <= l.2 < m.
Proof.
  unfold indices. rewrite list_elem_of_bind. split.
  - intros (i & Hl & Hi). apply list_elem_of_bind in Hl as (j & Hl & Hj).
    apply list_elem_of_singleton in Hl as ->.
    apply elem_of_seqZ in Hi, Hj. simpl. lia.
  - intros [Hi Hj]. exists l.1. split; [|apply elem_of_seqZ; lia].
    apply list_elem_of_bind. exists l.2. split; [|apply elem_of_seqZ; lia].
    destruct l. apply list_elem_of_singleton. done.
Qed.

Lemma NoDup_indices (n m : Z) : NoDup (indices n m).
Proof.
  unfold indices. apply NoDup_bind.
  - intros i1 i2 l _ _ Hl1 Hl2.
    apply list_elem_of_bind in Hl1 as (j1 & Hl1 & _).
    apply list_elem_of_bind in Hl2 as (j2 & Hl2 & _).
    apply list_elem_of_singleton in Hl1, Hl2. congruence.
  - intros i _. apply NoDup_bind.
    + intros j1 j2 l _ _ Hl1 Hl2.
      apply list_elem_of_singleton in Hl1, Hl2. congruence.
    + intros j _. apply NoDup_singleton.
    + apply NoDup_seqZ.
  - apply NoDup_seqZ.
Qed.

Lemma py_index_valid (n i : Z) : 0 <= i < n → py_index n i = Some i.
Proof. intros H. unfold py_index. by rewrite decide_True. Qed.

Lemma flat_index_valid a l :
  valid (dim a) l →
  flat_index a l = Some (Z.to_nat (l.1 * dim a + l.2)).
Proof.
  intros [H1 H2]. unfold flat_index.
  rewrite !py_index_valid by done. done.
Qed.

Lemma flat_index_lt a l :
  wf a → valid (dim a) l →
  (Z.to_nat (l.1 * dim a + l.2) < length (data a))%nat.
Proof. intros [H0 Hlen] [H1 H2]. rewrite Hlen. nia. Qed.

Lemma flat_index_inj (n : Z) l1 l2 :
  valid n l1 → valid n l2 →
  Z.to_nat (l1.1 * n + l1.2) = Z.to_nat (l2.1 * n + l2.2) → l1 = l2.
Proof.
  destruct l1 as [i1 j1], l2 as [i2 j2]. unfold valid. simpl.
  intros [H1 H2] [H3 H4] Heq.
  assert (i1 * n + j1 = i2 * n + j2) as Heq' by nia.
  assert (i1 = i2) by nia. subst. f_equal. lia.
Qed.

Lemma getitem_valid a l :
  valid (dim a) l →
  getitem a l = data a !! Z.to_nat (l.1 * dim a + l.2).
Proof. intros H. unfold getitem. by rewrite flat_index_valid. Qed.

Lemma getitem_is_Some a l :
  wf a → valid (dim a) l → is_Some (getitem a l).
Proof.
  intros Hwf Hv. rewrite getitem_valid by done.
  apply lookup_lt_is_Some. by apply flat_index_lt.
Qed.

(** Reading the array along [indices] reads the buffer in order. *)
Lemma getitem_indices a :
  wf a → getitem a <$> indices (dim a) (dim a) = Some <$> data a.
Proof.
  intros Hwf. pose proof Hwf as [H0 Hlen].
  apply list_eq_same_length with (length (data a)).
  - by rewrite length_fmap.
  - rewrite length_fmap, length_indices by done. done.
  - intros k x y Hk. rewrite !list_lookup_fmap.
    set (n := dim a) in *.
    assert (0 < n) as Hn by (destruct (decide (0 < n)); [done|];
      assert (n = 0) as Hz by lia; rewrite Hz in Hlen; simpl in Hlen; lia).
    assert (Z.of_nat k = (Z.of_nat k / n) * n + Z.of_nat k mod n) as Hdiv
      by (rewrite Z.mul_comm; apply Z.div_mod; lia).
    assert (0 <= Z.of_nat k mod n < n) by (apply Z.mod_pos_bound; lia).
    assert (0 <= Z.of_nat k / n < n).
    { split; [apply Z.div_pos; lia|]. apply Z.div_lt_upper_bound; nia. }
    replace k with (Z.to_nat (Z.of_nat k / n * n + Z.of_nat k mod n)) at 1 2
      by lia.
    rewrite lookup_indices by done. simpl.
    rewrite getitem_valid by (split; simpl; done). simpl. fold n.
    destruct (data a !! _) eqn:E; simpl; congruence.
Qed.

Lemma setitem_valid a l v :
  wf a → valid (dim a) l →
  setitem a l v
  = Some {| dim := dim a;
            data := <[Z.to_nat (l.1 * dim a + l.2) := v]> (data a) |}.
Proof.
  intros Hwf Hv. unfold setitem. rewrite flat_index_valid by done. simpl.
  destruct (lookup_lt_is_Some_2 (data a) _ (flat_index_lt a l Hwf Hv))
    as [x ->]. done.
Qed.

Lemma wf_insert a k v :
  wf a → wf {| dim := dim a; data := <[k := v]> (data a) |}.
Proof. intros [H0 Hl]. split; simpl; [done|]. by rewrite length_insert. Qed.

End arrays.

Lemma length_filter_fmap {A B} (f : A → B) (P : A → Prop) (Q : B → Prop)
    `{∀ x, Decision (P x)} `{∀ y, Decision (Q y)} (l : list A) :
  (∀ x, P x ↔ Q (f x)) →
  length (filter P l) = length (filter Q (f <$> l)).
Proof.
  intros HPQ. induction l as [|x l IH]; [done|]. simpl.
  rewrite !filter_cons.
  pose proof (HPQ x).
  destruct (decide (P x)), (decide (Q (f x))); simpl;
    rewrite ?IH; try done; tauto.
Qed.

(** [len(locs_where(c)) == np.sum(c)] *)
Lemma length_locs_where (c : ndarray bool) :
  wf c → Z.of_nat (length (locs_where c)) = np_sum c.
Proof.
  intros Hwf. unfold locs_where, np_sum. f_equal.
  rewrite (length_filter_fmap (getitem c) _ (λ o, o = Some true)) by done.
  rewrite getitem_indices by done.
  symmetry. apply length_filter_fmap. intros b. split; congruence.
Qed.

Lemma elem_of_locs_where (c : ndarray bool) l :
  l ∈ locs_where c ↔ valid (dim c) l ∧ getitem c l = Some true.
Proof.
  unfold locs_where. rewrite list_elem_of_filter, elem_of_indices.
  unfold valid. tauto.
Qed.

Lemma NoDup_locs_where (c : ndarray bool) : NoDup (locs_where c).
Proof. apply NoDup_filter, NoDup_indices. Qed.

Lemma getitem_arr_map {A B} (f : A → B) (a : ndarray A) l :
  getitem (arr_map f a) l = f <$> getitem a l.
Proof.
  unfold getitem, flat_index. simpl.
  destruct (py_index (dim a) l.1) as [i|]; [|done]. simpl.
  destruct (py_index (dim a) l.2) as [j|]; [|done]. simpl.
  apply list_lookup_fmap.
Qed.

Lemma getitem_arr_zip {A B C} (f : A → B → C) (a : ndarray A)
    (b : ndarray B) l :
  dim a = dim b →
  getitem (arr_zip f a b) l
  = x ← getitem a l; y ← getitem b l; Some (f x y).
Proof.
  intros Hd. unfold getitem, flat_index. simpl. rewrite <- Hd.
  destruct (py_index (dim a) l.1) as [i|]; [|done]. simpl.
  destruct (py_index (dim a) l.2) as [j|]; [|done]. simpl.
  apply lookup_zip_with.
Qed.

Lemma list_getitem_valid {A} (t : list A) i :
  0 <= i < Z.of_nat (length t) → list_getitem t i = t !! Z.to_nat i.
Proof. intros H. unfold list_getitem. by rewrite py_index_valid. Qed.

Lemma list_setitem_valid {A} (t : list A) i v :
  0 <= i < Z.of_nat (length t) →
  list_setitem t i v = Some (<[Z.to_nat i := v]> t).
Proof. intros H. unfold list_setitem. by rewrite py_index_valid. Qed.

(** ** Facts about the generator *)

Lemma swap_Permutation {A} (x : list A) i j : swap x i j ≡ₚ x.
Proof.
  unfold swap. destruct (x !! i) as [a|] eqn:Hi; [|done].
  destruct (x !! j) as [b|] eqn:Hj; [|done].
  by apply Permutation_insert_swap.
Qed.

Lemma shuffle_loop_Permutation {A} i (x : list A) r :
  (shuffle_loop i x r).1 ≡ₚ x.
Proof.
  revert x r. induction i as [|i IH]; intros x r; [done|].
  simpl. unfold random_interval, next_raw. simpl.
  rewrite IH. apply swap_Permutation.
Qed.

Lemma shuffle_Permutation {A} (x : list A) r : (shuffle x r).1 ≡ₚ x.
Proof. apply shuffle_loop_Permutation. Qed.

Lemma permutation_Permutation {A} (x : list A) r : (permutation x r).1 ≡ₚ x.
Proof. apply shuffle_Permutation. Qed.

(** ** Schelling: the survey and the step *)

Module SchellingFacts.
Import Schelling SchellingSpec.

Lemma randint_spec (high : Z) (r : RandomState) :
  0 < high →
  ∃ i, randint high r = (Ret i, (next_raw r).2) ∧ 0 <= i < high.
Proof.
  intros H. unfold randint. rewrite decide_True by done.
  simpl. eexists. split; [done|].
  apply Z.mod_pos_bound. done.
Qed.

Lemma randint_empty_range (high : Z) (r : RandomState) :
  high <= 0 → randint high r = (Raise ValueError, r).
Proof.
  intros H. unfold randint. by rewrite decide_False by lia.
Qed.

Lemma dim_empty_of a : dim (empty_of a) = dim a.
Proof. done. Qed.

Lemma data_empty_of a :
  data (empty_of a) = (λ v, bool_decide (v = 0)) <$> data a.
Proof. done. Qed.

Lemma wf_empty_of a : wf a → wf (empty_of a).
Proof.
  intros [H0 Hl]. split; [done|]. by rewrite data_empty_of, length_fmap.
Qed.

Lemma np_sum_empty_of a : np_sum (empty_of a) = count_empty a.
Proof. done. Qed.

Lemma dim_frac_same_of a : dim (frac_same_of a) = dim a.
Proof. done. Qed.

(** An entry of [frac_same] sits over a cell of the grid, and is NaN over an
    empty one. *)
Lemma frac_same_lookup a k x :
  data (frac_same_of a) !! k = Some x →
  ∃ v, data a !! k = Some v ∧ (v = 0 → x = NaN) ∧ (v ≠ 0 → x ≠ NaN → True).
Proof.
  unfold frac_same_of, count_neighbors. simpl.
  intros (m & y & -> & Hm & _)%lookup_zip_with_Some.
  rewrite list_lookup_fmap in Hm.
  destruct (data a !! k) as [v|] eqn:Hv; [|done]. simpl in Hm.
  exists v. split; [done|]. split; [|done].
  intros ->. by simplify_eq.
Qed.

Lemma getitem_empty_of a l :
  valid (dim a) l →
  getitem (empty_of a) l = (λ v, bool_decide (v = 0)) <$> getitem a l.
Proof.
  intros Hv. rewrite !getitem_valid by done.
  by rewrite data_empty_of, list_lookup_fmap.
Qed.

Lemma count_empty_Permutation a b :
  data a ≡ₚ data b → count_empty a = count_empty b.
Proof.
  intros H. unfold count_empty, np_sum. simpl. by rewrite H.
Qed.

Lemma get_cell_eq s r l v :
  getitem (array s) l = Some v → get_cell l (s, r) = (Ret v, (s, r)).
Proof. intros H. unfold get_cell, bind, get. simpl. by rewrite H. Qed.

Lemma set_cell_eq s r l v a' :
  setitem (array s) l v = Some a' →
  set_cell l v (s, r) = (Ret tt, ({| p := p s; array := a' |}, r)).
Proof. intros H. unfold set_cell, bind, get. simpl. by rewrite H. Qed.

(** One move keeps the invariant, and exchanges two cells of the buffer. *)
Lemma move_once a u us es ne i :
  loop_inv a (u :: us) es ne → 0 <= i < ne →
  ∃ dest v a1 a2,
    list_getitem es i = Some dest ∧
    getitem a u = Some v ∧
    setitem a dest v = Some a1 ∧
    setitem a1 u 0 = Some a2 ∧
    list_setitem es i u = Some (<[Z.to_nat i := u]> es) ∧
    dim a2 = dim a ∧
    data a2 ≡ₚ data a ∧
    loop_inv a2 us (<[Z.to_nat i := u]> es) ne.
Proof.
  intros [Hwf Hcount Hlen Hnd Hes Hund Hus] Hi.
  assert (0 <= i < Z.of_nat (length es)) as Hi' by lia.
  destruct (lookup_lt_is_Some_2 es (Z.to_nat i)) as [dest Hdest]; [lia|].
  destruct (Hes dest) as [Hvd Hgd]; [by eapply list_elem_of_lookup_2|].
  destruct (Hus u) as [Hvu (v & Hgu & Hv)]; [left|].
  assert (u ≠ dest) as Hne by (intros ->; congruence).
  set (kd := Z.to_nat (dest.1 * dim a + dest.2)).
  set (ku := Z.to_nat (u.1 * dim a + u.2)).
  assert (kd ≠ ku) as Hk.
  { intros Heq. apply Hne. symmetry. by eapply flat_index_inj. }
  set (a1 := {| dim := dim a; data := <[kd := v]> (data a) |}).
  set (a2 := {| dim := dim a; data := <[ku := 0]> (data a1) |}).
  assert (wf a1) as Hwf1 by by apply wf_insert.
  assert (wf a2) as Hwf2 by by apply (wf_insert a1).
  rewrite getitem_valid in Hgd, Hgu by done. fold kd in Hgd. fold ku in Hgu.
  assert (data a2 ≡ₚ data a) as Hperm.
  { simpl. by apply Permutation_insert_swap. }
  assert (∀ l, valid (dim a) l → l ≠ u → l ≠ dest →
               getitem a2 l = getitem a l) as Hother.
  { intros l Hl Hlu Hld. rewrite !getitem_valid by done. simpl.
    rewrite !list_lookup_insert_ne; [done|..].
    - intros Heq. apply Hld. by eapply flat_index_inj.
    - intros Heq. apply Hlu. by eapply flat_index_inj. }
  exists dest, v, a1, a2. split_and!.
  - by rewrite list_getitem_valid.
  - by rewrite getitem_valid.
  - by apply setitem_valid.
  - by apply (setitem_valid a1).
  - by apply list_setitem_valid.
  - done.
  - done.
  - split.
    + done.
    + rewrite <- Hcount. by apply count_empty_Permutation.
    + by rewrite length_insert.
    + apply NoDup_alt. intros j1 j2 x.
      destruct (decide (j1 = Z.to_nat i)) as [->|H1],
               (decide (j2 = Z.to_nat i)) as [->|H2]; [done|..].
      * rewrite list_lookup_insert_eq by lia.
        rewrite list_lookup_insert_ne by done.
        intros [= <-] Hx. apply list_elem_of_lookup_2, Hes in Hx as [_ Hx].
        rewrite getitem_valid in Hx by done. fold ku in Hx. congruence.
      * rewrite list_lookup_insert_eq by lia.
        rewrite list_lookup_insert_ne by done.
        intros Hx [= <-]. apply list_elem_of_lookup_2, Hes in Hx as [_ Hx].
        rewrite getitem_valid in Hx by done. fold ku in Hx. congruence.
      * rewrite !list_lookup_insert_ne by done.
        intros Hx1 Hx2. by eapply (NoDup_lookup es).
    + intros e [j He]%list_elem_of_lookup. simpl.
      destruct (decide (j = Z.to_nat i)) as [->|Hj].
      * rewrite list_lookup_insert_eq in He by lia. simplify_eq.
        split; [done|]. rewrite getitem_valid by done. simpl. fold ku.
        apply list_lookup_insert_eq. rewrite length_insert.
        by eapply lookup_lt_Some.
      * rewrite list_lookup_insert_ne in He by done.
        destruct (Hes e) as [Hve Hge]; [by eapply list_elem_of_lookup_2|].
        split; [done|]. rewrite Hother; try done.
        -- intros ->. rewrite getitem_valid in Hge by done.
           fold ku in Hge. congruence.
        -- intros ->. apply Hj. by eapply (NoDup_lookup es).
    + by apply NoDup_cons in Hund as [_ ?].
    + intros w Hw. simpl.
      destruct (Hus w) as [Hvw (x & Hgw & Hx)]; [by right|].
      split; [done|]. exists x. split; [|done].
      rewrite Hother; try done.
      * intros ->. by apply NoDup_cons in Hund as [? _].
      * intros ->. rewrite getitem_valid in Hgw by done.
        fold kd in Hgw. congruence.
Qed.

Lemma move_loop_spec ne us : ∀ es a p0 r,
  loop_inv a us es ne →
  ∃ res a' r',
    move_loop ne us es ({| p := p0; array := a |}, r)
    = (res, ({| p := p0; array := a' |}, r')) ∧
    wf a' ∧ dim a' = dim a ∧ data a' ≡ₚ data a ∧
    (us = [] ∨ 0 < ne → res = Ret tt) ∧
    (us ≠ [] → ne <= 0 → res = Raise ValueError ∧ a' = a ∧ r' = r).
Proof.
  induction us as [|u us IH]; intros es a p0 r Hinv.
  - exists (Ret tt), a, r. split_and!; try done. apply Hinv.
  - destruct (decide (0 < ne)) as [Hne|Hne].
    + destruct (randint_spec ne r Hne) as (i & Hrand & Hi).
      destruct (move_once a u us es ne i Hinv Hi)
        as (dest & v & a1 & a2 & Hd & Hg & Hs1 & Hs2 & Hls & Hdim & Hperm
            & Hinv2).
      destruct (IH (<[Z.to_nat i := u]> es) a2 p0 (next_raw r).2 Hinv2)
        as (res & a' & r' & Hloop & Hwf' & Hdim' & Hperm' & Hret & _).
      exists res, a', r'. split_and!.
      * rewrite <- Hloop. simpl. unfold bind at 1.
        unfold rand_result. simpl. rewrite Hrand.
        unfold bind at 1. rewrite Hd. simpl.
        unfold bind at 1. erewrite get_cell_eq by done.
        unfold bind at 1. erewrite set_cell_eq by done.
        unfold bind at 1. erewrite set_cell_eq by done.
        unfold bind at 1. rewrite Hls. simpl.
        unfold bind at 1. simpl.
        unfold bind at 1. unfold assert.
        rewrite bool_decide_true; [done|].
        symmetry. apply Hinv2.
      * done.
      * congruence.
      * by rewrite Hperm'.
      * intros _. apply Hret. by right.
      * lia.
    + exists (Raise ValueError), a, r. split_and!; try done.
      * simpl. unfold bind at 1. unfold rand_result. simpl.
        by rewrite randint_empty_range by lia.
      * apply Hinv.
      * intros [|]; [done|lia].
Qed.

Lemma elem_of_unhappy_locs s l :
  l ∈ locs_where (unhappy_of s) ↔ unhappy_cell s l.
Proof.
  rewrite elem_of_locs_where. unfold unhappy_cell, unhappy_of. simpl.
  assert (∀ P Q R : Prop, (P → (Q ↔ R)) → (P ∧ Q ↔ P ∧ R)) as Hc by tauto.
  apply Hc. clear Hc. intros Hv.
  rewrite getitem_arr_map.
  destruct (getitem (frac_same_of (array s)) l) as [[|q]|]; cbn.
  - split; [done|]. by intros (q & [=] & _).
  - destruct (Qlt_le_dec q (p s)) as [Hlt|Hle].
    + split; [|done]. intros _. by exists q.
    + split; [done|]. intros (q' & [= <-] & Hlt).
      exfalso. by eapply Qlt_not_le.
  - split; [done|]. by intros (q & [=] & _).
Qed.

Lemma unhappy_occupied s l :
  unhappy_cell s l → ∃ v, getitem (array s) l = Some v ∧ v ≠ 0.
Proof.
  intros [Hv (q & Hq & _)]. rewrite getitem_valid in Hq by done.
  apply frac_same_lookup in Hq as (v & Hv' & Hz & _).
  exists v. rewrite getitem_valid by done. split; [done|].
  intros ->. by specialize (Hz eq_refl).
Qed.

Lemma count_empty_nonneg a : 0 <= count_empty a.
Proof. unfold count_empty, np_sum. lia. Qed.

Lemma loop_inv_initial s us :
  wf (array s) → us ≡ₚ locs_where (unhappy_of s) →
  loop_inv (array s) us (locs_where (empty_of (array s)))
           (np_sum (empty_of (array s))).
Proof.
  intros Hwf Hus. split.
  - done.
  - done.
  - apply length_locs_where. by apply wf_empty_of.
  - apply NoDup_locs_where.
  - intros e [He Hg]%elem_of_locs_where. rewrite dim_empty_of in He.
    split; [done|]. rewrite getitem_empty_of in Hg by done.
    destruct (getitem (array s) e) as [v|]; [|done]. simpl in Hg.
    f_equal. injection Hg as Hg. by apply bool_decide_eq_true in Hg.
  - rewrite Hus. apply NoDup_locs_where.
  - intros u Hu. rewrite Hus in Hu. apply elem_of_unhappy_locs in Hu.
    split; [apply Hu|]. by apply unhappy_occupied.
Qed.

Lemma step_eq s r :
  step (s, r)
  = let us0 := locs_where (unhappy_of s) in
    bind (if decide (length us0 ≠ 0%nat)
          then rand (shuffle us0) else ret us0)
      (λ us,
         bind (move_loop (np_sum (empty_of (array s))) us
                 (locs_where (empty_of (array s))))
           (λ _, ret (segregation s))) (s, r).
Proof. reflexivity. Qed.

(** What one call of [step] does. *)
Lemma step_spec s r :
  wf (array s) →
  ∃ res a' r',
    step (s, r) = (res, ({| p := p s; array := a' |}, r')) ∧
    wf a' ∧ dim a' = dim (array s) ∧ data a' ≡ₚ data (array s) ∧
    (locs_where (unhappy_of s) = [] ∨ 0 < count_empty (array s) →
     res = Ret (segregation s)) ∧
    (locs_where (unhappy_of s) ≠ [] → count_empty (array s) <= 0 →
     res = Raise ValueError ∧ a' = array s).
Proof.
  intros Hwf. rewrite step_eq. cbv zeta.
  set (us0 := locs_where (unhappy_of s)).
  assert (∃ us r1,
    (if decide (length us0 ≠ 0%nat)
     then rand (shuffle us0) else ret us0) (s, r) = (Ret us, (s, r1)) ∧
    us ≡ₚ us0) as (us & r1 & Hsh & Hperm).
  { destruct (decide (length us0 ≠ 0%nat)).
    - unfold rand. simpl.
      pose proof (shuffle_Permutation us0 r) as HP.
      destruct (shuffle us0 r) as [us r1]. by exists us, r1.
    - by exists us0, r. }
  unfold bind at 1. rewrite Hsh.
  destruct s as [p0 a]. simpl in *.
  destruct (move_loop_spec (np_sum (empty_of a)) us
              (locs_where (empty_of a)) a p0 r1)
    as (res & a' & r' & Hloop & Hwf' & Hdim & Hdata & Hret & Hraise).
  { by apply (loop_inv_initial {| p := p0; array := a |}). }
  unfold bind at 1. rewrite Hloop.
  assert (us = [] ↔ us0 = []) as Hnil.
  { split; intros ->.
    - by apply Permutation_nil_l in Hperm.
    - by apply Permutation_nil_r in Hperm. }
  destruct (decide (us0 = [] ∨ 0 < count_empty a)) as [Hok|Hbad].
  - rewrite Hret by (rewrite Hnil; done).
    exists (Ret (segregation {| p := p0; array := a |})), a', r'.
    split_and!; try done. intros ? ?. destruct Hok; [done|lia].
  - assert (us ≠ []) as Hus by (rewrite Hnil; tauto).
    assert (np_sum (empty_of a) <= 0) as Hz
      by (rewrite np_sum_empty_of; lia).
    destruct (Hraise Hus Hz) as (-> & -> & ->).
    exists (Raise ValueError), a, r1. split_and!; try done; tauto.
Qed.

End SchellingFacts.

Module SurveyFacts.
Import Schelling SchellingSpec SchellingFacts.

Lemma wrap_pred (n i : Z) : 0 <= i < n → wrap n (i + 0 - 1) = (i + -1) mod n.
Proof.
  intros H. unfold wrap. destruct (decide (i = 0)) as [->|Hi].
  - rewrite decide_True by lia.
    replace (0 + -1) with (n - 1 + -1 * n) by lia.
    rewrite Z_mod_plus_full, Z.mod_small; lia.
  - rewrite decide_False, decide_False by lia. rewrite Z.mod_small; lia.
Qed.

Lemma wrap_same (n i : Z) : 0 <= i < n → wrap n (i + 1 - 1) = (i + 0) mod n.
Proof.
  intros H. unfold wrap.
  rewrite decide_False, decide_False by lia. rewrite Z.mod_small; lia.
Qed.

Lemma wrap_succ (n i : Z) : 0 <= i < n → wrap n (i + 2 - 1) = (i + 1) mod n.
Proof.
  intros H. unfold wrap. destruct (decide (i = n - 1)) as [->|Hi].
  - rewrite decide_False, decide_True by lia.
    replace (n - 1 + 1) with (0 + 1 * n) by lia.
    rewrite Z_mod_plus_full, Z.mod_small; lia.
  - rewrite decide_False, decide_False by lia. rewrite Z.mod_small; lia.
Qed.

(** The correlation with the kernel sums the mask over the eight
    neighbours. *)
Lemma correlate2d_getitem (c : ndarray bool) l :
  wf c → valid (dim c) l →
  getitem (correlate2d c kernel) l
  = Some (sumZ ((λ l', Z.b2z (default false (getitem c l')))
                <$> neighbors (dim c) l)).
Proof.
  intros Hwf Hv. rewrite getitem_valid by done.
  cbn [correlate2d data dim].
  rewrite list_lookup_fmap, lookup_indices by apply Hv.
  cbn [fmap option_fmap option_map]. f_equal.
  destruct Hv as [H1 H2]. destruct l as [i j]. cbn [fst snd] in *.
  cbn -[wrap Z.modulo Z.b2z getitem Z.add Z.sub Z.mul].
  change (Z.of_nat 0) with 0. change (Z.of_nat 1) with 1.
  change (Z.of_nat 2) with 2. change ((Z.of_nat 3 - 1) `div` 2) with 1.
  rewrite !wrap_pred, !wrap_same, !wrap_succ by done.
  unfold neighbors. cbn [fmap list_fmap fst snd sumZ foldr]. lia.
Qed.

Lemma count_cells_cons (a : ndarray Z) (P : Z → bool) l ls :
  count_cells a P (l :: ls)
  = Z.b2z (default false (P <$> getitem a l)) + count_cells a P ls.
Proof.
  unfold count_cells. rewrite filter_cons.
  destruct (getitem a l) as [v|]; cbn [fmap option_fmap option_map].
  - destruct (P v); unfold default; cbn [from_option id Z.b2z].
    + rewrite decide_True by done. cbn [length]. lia.
    + rewrite decide_False by done. lia.
  - rewrite decide_False by done. unfold default. cbn [from_option Z.b2z]. lia.
Qed.

Lemma sum_mask_count (a : ndarray Z) (t : Z) (ls : list loc) :
  sumZ ((λ l', Z.b2z (default false
           (getitem (arr_map (λ v, bool_decide (v = t)) a) l'))) <$> ls)
  = count_cells a (λ v, bool_decide (v = t)) ls.
Proof.
  induction ls as [|l ls IH]; [done|].
  rewrite fmap_cons, count_cells_cons, <- IH, getitem_arr_map. done.
Qed.

Lemma count_occupied_split (a : ndarray Z) (ls : list loc) :
  cells_ok a →
  count_cells a (λ v, bool_decide (v = 1)) ls
  + count_cells a (λ v, bool_decide (v = 2)) ls
  = count_cells a (λ v, bool_decide (v ≠ 0)) ls.
Proof.
  intros Hok. induction ls as [|l ls IH]; [done|].
  rewrite !count_cells_cons, <- IH.
  destruct (getitem a l) as [v|] eqn:Hg; unfold default;
    cbn [fmap option_fmap option_map from_option id Z.b2z]; [|lia].
  assert (v = 0 ∨ v = 1 ∨ v = 2) as Hv.
  { apply Hok. unfold getitem in Hg.
    destruct (flat_index a l); [|done]. by eapply list_elem_of_lookup_2. }
  repeat case_bool_decide; cbn [Z.b2z]; lia.
Qed.

Lemma getitem_frac_same (a : ndarray Z) l c nr nb :
  getitem a l = Some c →
  getitem (correlate2d (arr_map (λ v, bool_decide (v = 1)) a) kernel) l
  = Some nr →
  getitem (correlate2d (arr_map (λ v, bool_decide (v = 2)) a) kernel) l
  = Some nb →
  getitem (frac_same_of a) l
  = Some (if bool_decide (c = 0) then NaN
          else if bool_decide (c = 1)
               then (if bool_decide (nr + nb = 0) then Fl 0
                     else true_divide nr (nr + nb))
               else (if bool_decide (nr + nb = 0) then Fl 0
                     else true_divide nb (nr + nb))).
Proof.
  intros Ha Hr Hb. unfold frac_same_of, count_neighbors. cbn [snd].
  repeat (rewrite ?getitem_arr_zip, ?getitem_arr_map by done;
          rewrite ?Ha, ?Hr, ?Hb; cbn [mbind option_bind fmap option_fmap
                                       option_map fst snd]).
  done.
Qed.

Lemma wf_arr_map {A B} (f : A → B) (a : ndarray A) : wf a → wf (arr_map f a).
Proof. intros [H0 Hl]. split; [done|]. simpl. by rewrite length_fmap. Qed.

Lemma count_cells_nonneg a P ls : 0 <= count_cells a P ls.
Proof. unfold count_cells. lia. Qed.

(** The survey at one cell, in terms of the counts over its neighbours. *)
Lemma frac_same_counts (a : ndarray Z) l c :
  wf a → valid (dim a) l → getitem a l = Some c →
  let nr := count_cells a (λ v, bool_decide (v = 1)) (neighbors (dim a) l) in
  let nb := count_cells a (λ v, bool_decide (v = 2)) (neighbors (dim a) l) in
  getitem (frac_same_of a) l
  = Some (if bool_decide (c = 0) then NaN
          else if bool_decide (c = 1)
               then (if bool_decide (nr + nb = 0) then Fl 0
                     else true_divide nr (nr + nb))
               else (if bool_decide (nr + nb = 0) then Fl 0
                     else true_divide nb (nr + nb))).
Proof.
  intros Hwf Hv Hc nr nb. apply getitem_frac_same; [done|..].
  - rewrite correlate2d_getitem by (try apply wf_arr_map; done).
    f_equal. apply sum_mask_count.
  - rewrite correlate2d_getitem by (try apply wf_arr_map; done).
    f_equal. apply sum_mask_count.
Qed.

Lemma true_divide_unit (x y : Z) :
  0 <= x → 0 <= y → x + y ≠ 0 →
  ∃ q, true_divide x (x + y) = Fl q ∧ (0 <= q <= 1)%Q.
Proof.
  intros Hx Hy Hxy. unfold true_divide. rewrite decide_False by done.
  eexists. split; [done|]. split.
  - apply Qle_shift_div_l.
    + replace 0%Q with (inject_Z 0) by done. rewrite <- Zlt_Qlt. lia.
    + rewrite Qmult_0_l. replace 0%Q with (inject_Z 0) by done.
      rewrite <- Zle_Qle. lia.
  - apply Qle_shift_div_r.
    + replace 0%Q with (inject_Z 0) by done. rewrite <- Zlt_Qlt. lia.
    + rewrite Qmult_1_l. rewrite <- Zle_Qle. lia.
Qed.

(** Over an occupied cell the survey is a fraction in [0, 1]; over an empty
    cell it is NaN. *)
Lemma frac_same_range (a : ndarray Z) l c :
  wf a → valid (dim a) l → getitem a l = Some c →
  (c = 0 → getitem (frac_same_of a) l = Some NaN) ∧
  (c ≠ 0 → ∃ q, getitem (frac_same_of a) l = Some (Fl q) ∧ (0 <= q <= 1)%Q).
Proof.
  intros Hwf Hv Hc. rewrite (frac_same_counts a l c) by done.
  set (nr := count_cells a _ _). set (nb := count_cells a _ _).
  pose proof (count_cells_nonneg a (λ v, bool_decide (v = 1))
                (neighbors (dim a) l)) as Hr. fold nr in Hr.
  pose proof (count_cells_nonneg a (λ v, bool_decide (v = 2))
                (neighbors (dim a) l)) as Hb. fold nb in Hb.
  split.
  - intros ->. done.
  - intros Hc0. rewrite bool_decide_false by done.
    assert (∃ q, Fl 0 = Fl q ∧ (0 <= q <= 1)%Q) as H0.
    { exists 0%Q. split; [done|]. split; [apply Qle_refl|]. done. }
    repeat case_bool_decide.
    + destruct H0 as (q & -> & ?). eauto.
    + destruct (true_divide_unit nr nb) as (q & -> & ?); eauto.
    + destruct H0 as (q & -> & ?). eauto.
    + replace (nr + nb) with (nb + nr) by lia.
      destruct (true_divide_unit nb nr) as (q & -> & ?); eauto with lia.
Qed.

Lemma length_frac_same_of (a : ndarray Z) :
  wf a → length (data (frac_same_of a)) = length (data a).
Proof.
  intros [H0 Hl]. unfold frac_same_of, count_neighbors.
  cbn [snd arr_zip arr_map data dim correlate2d].
  rewrite ?length_zip_with, ?length_fmap, ?length_zip_with, ?length_fmap.
  rewrite ?length_zip_with, ?length_fmap, ?length_zip_with, ?length_fmap.
  rewrite ?length_indices by done. lia.
Qed.

Lemma wf_frac_same_of (a : ndarray Z) : wf a → wf (frac_same_of a).
Proof.
  intros Hwf. split; [apply Hwf|].
  rewrite length_frac_same_of by done. apply Hwf.
Qed.

(** Every entry of an array is read at some valid location. *)
Lemma elem_of_data_getitem {A} (a : ndarray A) x :
  wf a → x ∈ data a → ∃ l, valid (dim a) l ∧ getitem a l = Some x.
Proof.
  intros Hwf Hx.
  assert (Some x ∈ getitem a <$> indices (dim a) (dim a)) as Hin.
  { rewrite getitem_indices by done. by apply list_elem_of_fmap_2. }
  apply list_elem_of_fmap in Hin as (l & Hl & Hi).
  apply elem_of_indices in Hi. exists l. split; [done|]. done.
Qed.

Lemma getitem_elem_of_data {A} (a : ndarray A) l x :
  getitem a l = Some x → x ∈ data a.
Proof.
  unfold getitem. destruct (flat_index a l); [|done].
  apply list_elem_of_lookup_2.
Qed.

Lemma frac_same_entries (a : ndarray Z) :
  wf a → Forall unit_interval (data (frac_same_of a)).
Proof.
  intros Hwf. apply Forall_forall. intros x Hx.
  apply elem_of_data_getitem in Hx as (l & Hl & Hg);
    [|by apply wf_frac_same_of].
  rewrite dim_frac_same_of in Hl.
  destruct (getitem_is_Some a l Hwf Hl) as [c Hc].
  destruct (frac_same_range a l c Hwf Hl Hc) as [Hz Hnz].
  destruct (decide (c = 0)) as [->|Hc0].
  - rewrite Hz in Hg by done. by simplify_eq.
  - destruct (Hnz Hc0) as (q & Hq & Hr). rewrite Hq in Hg. by simplify_eq.
Qed.

Lemma Qsum_bounds (vs : list Q) :
  Forall (λ q, 0 <= q <= 1)%Q vs →
  (0 <= Qsum vs <= inject_Z (Z.of_nat (length vs)))%Q.
Proof.
  induction 1 as [|q vs [Hq0 Hq1] _ [IH0 IH1]].
  - split; apply Qle_refl.
  - cbn [Qsum foldr length]. fold (Qsum vs). split.
    + replace 0%Q with (0 + 0)%Q by done. by apply Qplus_le_compat.
    + rewrite Nat2Z.inj_succ, <- Z.add_1_l, inject_Z_plus.
      by apply Qplus_le_compat.
Qed.

Lemma finite_values_unit (l : list npfloat) :
  Forall unit_interval l → Forall (λ q, 0 <= q <= 1)%Q (finite_values l).
Proof.
  induction 1 as [|x l Hx _ IH]; [constructor|].
  unfold finite_values. cbn [omap list_omap]. destruct x; [done|].
  constructor; done.
Qed.

Lemma elem_of_finite_values (l : list npfloat) q :
  Fl q ∈ l → finite_values l ≠ [].
Proof.
  intros Hq. induction l as [|x l IH]; [by apply not_elem_of_nil in Hq|].
  unfold finite_values. cbn [omap list_omap].
  destruct x; [|done]. apply IH.
  by apply elem_of_cons in Hq as [?|?].
Qed.

Lemma nanmean_unit (a : ndarray npfloat) :
  Forall unit_interval (data a) → finite_values (data a) ≠ [] →
  ∃ q, nanmean a = Fl q ∧ (0 <= q <= 1)%Q.
Proof.
  intros Hall Hne. unfold nanmean.
  pose proof (Qsum_bounds _ (finite_values_unit _ Hall)) as [H0 H1].
  destruct (finite_values (data a)) as [|v vs] eqn:E; [done|].
  eexists. split; [done|].
  assert (0 < inject_Z (Z.of_nat (length (v :: vs))))%Q as Hpos.
  { replace 0%Q with (inject_Z 0) by done. rewrite <- Zlt_Qlt.
    cbn [length]. lia. }
  split.
  - apply Qle_shift_div_l; [done|]. by rewrite Qmult_0_l.
  - apply Qle_shift_div_r; [done|]. by rewrite Qmult_1_l.
Qed.

(** *** The mean over the occupied cells *)

Lemma getitem_frac_same_spec (a : ndarray Z) (l : loc) :
  wf a → cells_ok a → valid (dim a) l →
  getitem (frac_same_of a) l = Some (frac_same_spec a l).
Proof.
  intros Hwf Hok Hv.
  destruct (getitem_is_Some a l Hwf Hv) as [c Hc].
  rewrite (frac_same_counts a l c) by done.
  unfold frac_same_spec. rewrite Hc. f_equal.
  rewrite <- (count_occupied_split a (neighbors (dim a) l) Hok).
  set (nr := count_cells a (λ v, bool_decide (v = 1)) _).
  set (nb := count_cells a (λ v, bool_decide (v = 2)) _).
  assert (c = 0 ∨ c = 1 ∨ c = 2) as [->|[->| ->]]
    by (apply Hok; by eapply getitem_elem_of_data).
  - done.
  - rewrite bool_decide_false, bool_decide_true, decide_False by done.
    fold nr. unfold true_divide.
    case_bool_decide; [by rewrite decide_True|].
    by rewrite !decide_False.
  - rewrite bool_decide_false, bool_decide_false, decide_False by done.
    fold nb. unfold true_divide.
    case_bool_decide; [by rewrite decide_True|].
    by rewrite !decide_False.
Qed.

Lemma data_frac_same_of (a : ndarray Z) :
  wf a → cells_ok a →
  data (frac_same_of a) = frac_same_spec a <$> indices (dim a) (dim a).
Proof.
  intros Hwf Hok.
  apply (inj (fmap Some)).
  rewrite <- getitem_indices by (by apply wf_frac_same_of).
  rewrite dim_frac_same_of, <- list_fmap_compose.
  apply list_fmap_ext. intros i l Hl. cbn.
  apply getitem_frac_same_spec; [done..|].
  by apply elem_of_indices, list_elem_of_lookup_2 with i.
Qed.

Lemma frac_same_spec_empty (a : ndarray Z) (l : loc) :
  getitem a l = Some 0 → frac_same_spec a l = NaN.
Proof. unfold frac_same_spec. by intros ->. Qed.

Lemma frac_same_spec_occupied (a : ndarray Z) (l : loc) (c : Z) :
  getitem a l = Some c → c ≠ 0 → frac_same_spec a l = Fl (same_share a l).
Proof.
  unfold frac_same_spec, same_share. intros -> Hc.
  change (default 0 (Some c)) with c.
  rewrite decide_False by done. by destruct (decide _).
Qed.

Lemma finite_values_spec (a : ndarray Z) (ls : list loc) :
  wf a → (∀ l, l ∈ ls → valid (dim a) l) →
  finite_values (frac_same_spec a <$> ls)
  = same_share a <$> filter (λ l, default 0 (getitem a l) ≠ 0) ls.
Proof.
  intros Hwf. induction ls as [|l ls IH]; intros Hv; [done|].
  destruct (getitem_is_Some a l Hwf) as [c Hc]; [apply Hv; left|].
  rewrite fmap_cons. unfold finite_values. cbn [omap list_omap].
  fold (finite_values (frac_same_spec a <$> ls)).
  rewrite IH by (intros l' Hl'; apply Hv; by right).
  rewrite filter_cons, Hc. change (default 0 (Some c)) with c.
  destruct (decide (c ≠ 0)) as [Hc0|Hc0].
  - by rewrite (frac_same_spec_occupied a l c).
  - assert (c = 0) as -> by lia. by rewrite frac_same_spec_empty.
Qed.

Lemma elem_of_occupied_locs (a : ndarray Z) (l : loc) :
  l ∈ occupied_locs a ↔ occupied_cell a l.
Proof.
  unfold occupied_locs, occupied_cell.
  rewrite list_elem_of_filter, elem_of_indices. split.
  - intros [Hne Hv]. split; [done|].
    destruct (getitem a l) as [v|]; [|done]. by exists v.
  - intros [Hv (v & Hg & Hne)]. split; [|done]. by rewrite Hg.
Qed.

End SurveyFacts.

Module SchellingClaims.
Import Schelling SchellingSpec SchellingFacts SurveyFacts.

(** C2.  One call of [step] leaves the number of empty cells unchanged: the
    grid after the call is a rearrangement of the grid before it, the count
    of empty cells is the same, and the assertion checked after every single
    move never fails.  This holds whatever the outcome of the call. *)
Theorem step_conserves_empty_cells (s : t) (r : RandomState) :
  wf (array s) →
  count_empty (array (step (s, r)).2.1) = count_empty (array s) ∧
  data (array (step (s, r)).2.1) ≡ₚ data (array s) ∧
  (step (s, r)).1 ≠ Raise AssertionError.
Proof.
  intros Hwf.
  destruct (step_spec s r Hwf)
    as (res & a' & r' & -> & Hwf' & Hdim & Hperm & Hret & Hraise).
  cbn [fst snd array]. split_and!.
  - by apply count_empty_Permutation.
  - done.
  - destruct (decide (locs_where (unhappy_of s) = []
                      ∨ 0 < count_empty (array s))) as [Hok|Hbad].
    + by rewrite Hret.
    + destruct Hraise as [-> _]; [tauto|lia|done].
Qed.

Lemma step_conserves_empty_cells_witness :
  count_empty (array (step (grid3, rs0)).2.1) = 2 ∧
  count_empty (array (step (grid3, rs0)).2.1) = count_empty (array grid3).
Proof.
  split; [reflexivity|].
  apply (step_conserves_empty_cells grid3 rs0).
  split; [simpl; lia|reflexivity].
Defined.

(** C3.  The survey: the mask [empty] marks exactly the empty cells, and
    [frac_same] is, over an occupied cell, the number of its eight
    wrap-around neighbours of its own type divided by the number of its
    occupied neighbours, exactly 0 when none is occupied, and NaN over an
    empty cell. *)
Theorem count_neighbors_survey (a : ndarray Z) (l : loc) :
  wf a → cells_ok a → valid (dim a) l →
  let '(empty, _, _, frac_same) := count_neighbors a in
  getitem empty l = Some (bool_decide (getitem a l = Some 0)) ∧
  getitem frac_same l = Some (frac_same_spec a l).
Proof.
  intros Hwf Hok Hv.
  destruct (count_neighbors a) as [[[empty fr] fb] frac_same] eqn:E.
  assert (empty = empty_of a) as -> by (unfold empty_of; by rewrite E).
  assert (frac_same = frac_same_of a) as ->
    by (unfold frac_same_of; by rewrite E).
  destruct (getitem_is_Some a l Hwf Hv) as [c Hc].
  split.
  - rewrite getitem_empty_of, Hc by done. cbn. f_equal.
    apply bool_decide_ext. split; congruence.
  - rewrite (frac_same_counts a l c) by done.
    unfold frac_same_spec. rewrite Hc. f_equal.
    rewrite <- (count_occupied_split a (neighbors (dim a) l) Hok).
    set (nr := count_cells a (λ v, bool_decide (v = 1)) _).
    set (nb := count_cells a (λ v, bool_decide (v = 2)) _).
    assert (c = 0 ∨ c = 1 ∨ c = 2) as [->|[->| ->]]
      by (apply Hok; by eapply getitem_elem_of_data).
    + done.
    + rewrite bool_decide_false, bool_decide_true, decide_False by done.
      fold nr. unfold true_divide.
      case_bool_decide; [by rewrite decide_True|].
      by rewrite !decide_False.
    + rewrite bool_decide_false, bool_decide_false, decide_False by done.
      fold nb. unfold true_divide.
      case_bool_decide; [by rewrite decide_True|].
      by rewrite !decide_False.
Qed.

Lemma count_neighbors_survey_witness :
  getitem (frac_same_of (array grid3)) (0, 0) = Some (frac_same_spec (array grid3) (0, 0)) ∧
  frac_same_spec (array grid3) (0, 0) = Fl (inject_Z 3 / inject_Z 6)%Q.
Proof.
  split; [|reflexivity].
  apply (count_neighbors_survey (array grid3) (0, 0)).
  - split; [simpl; lia|reflexivity].
  - intros v Hv. simpl in Hv.
    repeat (apply elem_of_cons in Hv as [->|Hv]; [lia|]).
    by apply not_elem_of_nil in Hv.
  - split; simpl; lia.
Defined.

(** C7.  When [step] returns, its value is the mean, over the occupied
    cells of the grid the call started from, of the share of like
    neighbours of each cell, which is what the survey of that grid holds at
    the cell; with at least one occupied cell it is a number in [0, 1], and
    without any it is NaN.  It is [segregation] of the initial grid. *)
Theorem step_returns_initial_mean (s : t) (r : RandomState) (v : npfloat) :
  wf (array s) → cells_ok (array s) → (step (s, r)).1 = Ret v →
  let occ := occupied_locs (array s) in
  (∀ l, l ∈ occ ↔ occupied_cell (array s) l) ∧
  (∀ l, l ∈ occ →
        getitem (frac_same_of (array s)) l
        = Some (Fl (same_share (array s) l))) ∧
  (occ = [] → v = NaN) ∧
  (occ ≠ [] →
   v = Fl (mean (same_share (array s) <$> occ)) ∧
   ∃ q, v = Fl q ∧ (0 <= q <= 1)%Q) ∧
  v = segregation s.
Proof.
  intros Hwf Hok Hstep occ.
  destruct (step_spec s r Hwf)
    as (res & a' & r' & Heq & Hwf' & Hdim & Hperm & Hret & Hraise).
  rewrite Heq in Hstep. cbn [fst] in Hstep. subst res.
  assert (v = segregation s) as ->.
  { destruct (decide (locs_where (unhappy_of s) = []
                      ∨ 0 < count_empty (array s))) as [Hok'|Hbad].
    - specialize (Hret Hok'). congruence.
    - destruct Hraise as [? _]; [tauto|lia|done]. }
  assert (finite_values (data (frac_same_of (array s)))
          = same_share (array s) <$> occ) as Hfin.
  { rewrite data_frac_same_of by done.
    apply finite_values_spec; [done|]. intros l. apply elem_of_indices. }
  split; [apply elem_of_occupied_locs|].
  split.
  { intros l Hl. apply elem_of_occupied_locs in Hl as [Hv (c & Hc & Hc0)].
    rewrite getitem_frac_same_spec by done.
    unfold frac_same_spec, same_share. rewrite Hc. cbn [default].
    rewrite decide_False by done. by destruct (decide _). }
  unfold segregation, nanmean. rewrite Hfin.
  split; [by intros ->|]. split; [|done].
  intros Hne. split.
  { destruct occ; [done|]. by rewrite fmap_cons. }
  destruct occ as [|l ls] eqn:E; [done|].
  assert (l ∈ occupied_locs (array s)) as Hl by (fold occ; rewrite E; left).
  apply elem_of_occupied_locs in Hl as (Hl & c & Hc & Hc0).
  pose proof (nanmean_unit (frac_same_of (array s))) as Hunit.
  unfold nanmean in Hunit. rewrite Hfin in Hunit.
  apply Hunit; [by apply frac_same_entries|done].
Qed.

Lemma step_returns_initial_mean_witness :
  (step (grid3, rs0)).1 = Ret (Fl (839808 # 1959552)) ∧
  ∃ q, Fl (839808 # 1959552) = Fl q ∧ (0 <= q <= 1)%Q.
Proof.
  split; [reflexivity|].
  refine (proj2 (proj1 (proj2 (proj2 (proj2
    (step_returns_initial_mean grid3 rs0 (Fl (839808 # 1959552)) _ _ _))))
    _)).
  - split; [simpl; lia|reflexivity].
  - intros v Hv. simpl in Hv.
    repeat (apply elem_of_cons in Hv as [->|Hv]; [lia|]).
    by apply not_elem_of_nil in Hv.
  - reflexivity.
  - vm_compute. discriminate.
Defined.

(** The value returned belongs to the grid before the moves: on [grid4] the
    tick returns 17/42, the level of the initial grid, and leaves a grid
    whose level is 333/784. *)
Example step_mean_is_not_final :
  ∃ q1 q2,
    (step (grid4, rs0)).1 = Ret (Fl q1) ∧ segregation grid4 = Fl q1 ∧
    segregation (step (grid4, rs0)).2.1 = Fl q2 ∧
    (q1 == 17 # 42)%Q ∧ (q2 == 333 # 784)%Q.
Proof. do 2 eexists. split_and!; vm_compute; reflexivity. Qed.

(** C10.  With an unhappy cell and no empty cell, [step] draws the
    destination from an empty range and raises [ValueError], leaving the
    grid as it was; with an empty cell, or without unhappy cell, it
    returns. *)
Theorem step_needs_an_empty_cell (s : t) (r : RandomState) :
  wf (array s) →
  ((∃ l, unhappy_cell s l) → count_empty (array s) = 0 →
   (step (s, r)).1 = Raise ValueError ∧ (step (s, r)).2.1 = s) ∧
  ((∀ l, ¬ unhappy_cell s l) ∨ 0 < count_empty (array s) →
   ∃ v, (step (s, r)).1 = Ret v).
Proof.
  intros Hwf.
  destruct (step_spec s r Hwf)
    as (res & a' & r' & -> & Hwf' & Hdim & Hperm & Hret & Hraise).
  cbn [fst snd]. split.
  - intros [l Hl] Hz.
    destruct Hraise as [-> ->]; [|lia|by destruct s].
    apply elem_of_unhappy_locs in Hl. intros Hnil.
    rewrite Hnil in Hl. by apply not_elem_of_nil in Hl.
  - intros Hok. exists (segregation s). apply Hret.
    destruct Hok as [Hno|Hpos]; [left|by right].
    destruct (locs_where (unhappy_of s)) as [|l ls] eqn:E; [done|].
    exfalso. apply (Hno l), elem_of_unhappy_locs. rewrite E. left.
Qed.

Lemma step_needs_an_empty_cell_witness :
  unhappy_cell grid_full (0, 0) ∧ count_empty (array grid_full) = 0 ∧
  (step (grid_full, rs0)).1 = Raise ValueError.
Proof.
  assert (unhappy_cell grid_full (0, 0)) as Hu.
  { split; [split; simpl; lia|]. eexists. split; [vm_compute|]; reflexivity. }
  split_and!; [done|reflexivity|].
  apply (step_needs_an_empty_cell grid_full rs0).
  - split; [simpl; lia|reflexivity].
  - by exists (0, 0).
  - reflexivity.
Defined.

End SchellingClaims.

(** ** Sugarscape: vision and the choice of a cell *)

Module VisionFacts.
Import Sugarscape SugarscapeSpec SugarscapeChoice.

Lemma make_array_spec d r :
  (make_array d r).1 ≡ₚ ring d ∧
  ∀ o, o ∈ (make_array d r).1 → 0 <= d → distance o = d.
Proof.
  unfold make_array.
  pose proof (shuffle_Permutation (ring d) r) as HP. split; [done|].
  intros o Ho Hd. fold (ring d) in Ho. rewrite HP in Ho.
  unfold ring in Ho.
  repeat (apply elem_of_cons in Ho as [->|Ho];
          [unfold distance; simpl; lia|]).
  by apply not_elem_of_nil in Ho.
Qed.

Lemma make_arrays_spec ds r :
  Forall2 (λ d arr, arr ≡ₚ ring d ∧ ∀ o, o ∈ arr → 0 <= d → distance o = d)
          ds (make_arrays ds r).1.
Proof.
  revert r. induction ds as [|d ds IH]; intros r; [constructor|].
  cbn [make_arrays]. pose proof (make_array_spec d r) as Hd.
  destruct (make_array d r) as [a r1].
  specialize (IH r1). destruct (make_arrays ds r1) as [l r2].
  constructor; done.
Qed.

Lemma concat_rings ds arrays :
  Forall2 (λ d arr, arr ≡ₚ ring d ∧ ∀ o, o ∈ arr → 0 <= d → distance o = d)
          ds arrays →
  concat arrays ≡ₚ ds ≫= ring.
Proof.
  induction 1 as [|d arr ds arrays [Hp _] _ IH]; [done|].
  rewrite bind_cons. simpl. by rewrite Hp, IH.
Qed.

Lemma concat_rings_sorted ds arrays :
  Forall2 (λ d arr, arr ≡ₚ ring d ∧ ∀ o, o ∈ arr → 0 <= d → distance o = d)
          ds arrays →
  Forall (λ d, 0 <= d) ds →
  StronglySorted Z.le ds →
  StronglySorted (λ o1 o2, distance o1 <= distance o2) (concat arrays) ∧
  ∀ o, o ∈ concat arrays → ∃ d, d ∈ ds ∧ distance o = d.
Proof.
  induction 1 as [|d arr ds arrays [Hp Hd] HF IH]; intros Hpos Hs.
  - split; [constructor|]. intros o Ho. by apply not_elem_of_nil in Ho.
  - apply Forall_cons in Hpos as [Hd0 Hpos].
    apply StronglySorted_cons in Hs as [Hle Hs].
    destruct (IH Hpos Hs) as [IHs IHd]. simpl. split.
    + apply StronglySorted_app. split_and!; [|clear IHs|done].
      * intros o1 o2 Ho1 Ho2. rewrite (Hd o1) by done.
        destruct (IHd o2 Ho2) as (d2 & Hd2 & ->).
        rewrite Forall_forall in Hle. by apply Hle.
      * assert (∀ o, o ∈ arr → distance o = d) as Hall by eauto.
        clear Hp Hd. induction arr as [|o arr IHa]; [constructor|].
        constructor.
        -- apply IHa. intros o' Ho'. apply Hall. by right.
        -- apply Forall_forall. intros o' Ho'.
           rewrite (Hall o), (Hall o'); [lia|by right|by left].
    + intros o [Ho|Ho]%elem_of_app.
      * exists d. split; [left|]. by apply Hd.
      * destruct (IHd o Ho) as (d' & ? & ?). exists d'. split; [by right|done].
Qed.

Lemma seqZ_sorted m k : StronglySorted Z.le (seqZ m k).
Proof.
  destruct (decide (0 <= k)) as [Hk|Hk]; [|rewrite seqZ_nil by lia; constructor].
  rewrite <- (Z2Nat.id k) by done. generalize (Z.to_nat k) as j. clear.
  intros j. revert m. induction j as [|j IH]; intros m; [constructor|].
  rewrite seqZ_cons by lia. constructor.
  - replace (Z.pred (Z.of_nat (S j))) with (Z.of_nat j) by lia. apply IH.
  - apply Forall_forall. intros x Hx. apply elem_of_seqZ in Hx. lia.
Qed.

(** With a range of at least 1, [make_visible_locs] returns an enumeration
    of the visible offsets; otherwise it raises. *)
Lemma make_visible_locs_spec vision r :
  1 <= vision →
  ∃ offs, (make_visible_locs vision r).1 = Ret offs ∧
          visible_enumeration vision offs.
Proof.
  intros Hv. unfold make_visible_locs.
  pose proof (make_arrays_spec (seqZ 1 vision) r) as HF.
  destruct (make_arrays (seqZ 1 vision) r) as [arrays r'].
  cbn [fst] in HF.
  assert (arrays ≠ []) as Hne.
  { intros ->. apply Forall2_nil_inv_r in HF.
    rewrite seqZ_cons in HF by lia. done. }
  exists (concat arrays). split; [by destruct arrays|].
  split; [by apply concat_rings|].
  eapply concat_rings_sorted; [done| |apply seqZ_sorted].
  apply Forall_forall. intros d Hd. apply elem_of_seqZ in Hd. lia.
Qed.

Lemma make_visible_locs_raises vision r :
  vision < 1 → (make_visible_locs vision r).1 = Raise ValueError.
Proof.
  intros Hv. unfold make_visible_locs. by rewrite seqZ_nil by lia.
Qed.

Lemma argmax_from_spec t : ∀ pre best besti,
  pre !! besti = Some best →
  (∀ x, x ∈ pre → x <= best) →
  (∀ j x, (j < besti)%nat → pre !! j = Some x → x < best) →
  ∃ m, (pre ++ t) !! argmax_from best besti (length pre) t = Some m ∧
       (∀ x, x ∈ pre ++ t → x <= m) ∧
       (∀ j x, (j < argmax_from best besti (length pre) t)%nat →
               (pre ++ t) !! j = Some x → x < m).
Proof.
  induction t as [|x t IH]; intros pre best besti Hb Hmax Hfirst.
  - rewrite app_nil_r. simpl. eauto.
  - simpl. replace (pre ++ x :: t) with ((pre ++ [x]) ++ t)
      by (by rewrite <- app_assoc).
    replace (S (length pre)) with (length (pre ++ [x]))
      by (rewrite length_app; simpl; lia).
    destruct (decide (best < x)) as [Hlt|Hge].
    + apply IH.
      * rewrite lookup_app_r by lia. by rewrite Nat.sub_diag.
      * intros y [Hy|Hy]%elem_of_app; [specialize (Hmax y Hy); lia|].
        apply list_elem_of_singleton in Hy. lia.
      * intros j y Hj Hy. rewrite lookup_app_l in Hy by done.
        apply list_elem_of_lookup_2, Hmax in Hy. lia.
    + apply IH.
      * apply lookup_app_l_Some. done.
      * intros y [Hy|Hy]%elem_of_app; [by apply Hmax|].
        apply list_elem_of_singleton in Hy. lia.
      * intros j y Hj Hy. apply (Hfirst j); [done|].
        rewrite lookup_app_l in Hy; [done|].
        apply lookup_lt_Some in Hb. lia.
Qed.

(** [argmax] returns the first index of the maximum. *)
Lemma argmax_spec t i :
  argmax t = Some i →
  ∃ m, t !! i = Some m ∧ (∀ x, x ∈ t → x <= m) ∧
       (∀ j x, (j < i)%nat → t !! j = Some x → x < m).
Proof.
  destruct t as [|x t]; [done|]. intros [= <-].
  apply (argmax_from_spec t [x] x 0%nat); [done|..].
  - intros y Hy. apply list_elem_of_singleton in Hy. lia.
  - intros j y Hj. lia.
Qed.

Lemma argmax_is_Some t : t ≠ [] → is_Some (argmax t).
Proof. destruct t; [done|]. intros _. by eexists. Qed.

(** An entry of a filtered list comes from an entry of the list, and the
    entries before it that pass the filter come before it in the filtered
    list. *)
Lemma filter_lookup_first {A} (P : A → Prop) `{∀ x, Decision (P x)}
    (l : list A) : ∀ i x,
  filter P l !! i = Some x →
  ∃ k, l !! k = Some x ∧ P x ∧
       ∀ k' y, (k' < k)%nat → l !! k' = Some y → P y →
               ∃ j, (j < i)%nat ∧ filter P l !! j = Some y.
Proof.
  induction l as [|y l IH]; intros i x Hx; [done|].
  rewrite filter_cons in Hx |- *. destruct (decide (P y)) as [Hy|Hy].
  - destruct i as [|i].
    + injection Hx as <-. exists 0%nat. split_and!; [done..|]. intros; lia.
    + destruct (IH i x Hx) as (k & Hk & HP & Hbefore).
      exists (S k). split_and!; [done..|].
      intros [|k'] z Hk' Hz HPz.
      * injection Hz as <-. exists 0%nat. split; [lia|done].
      * destruct (Hbefore k' z) as (j & Hj & Hjz); [lia|done..|].
        exists (S j). split; [lia|done].
  - destruct (IH i x Hx) as (k & Hk & HP & Hbefore).
    exists (S k). split_and!; [done..|].
    intros [|k'] z Hk' Hz HPz.
    + injection Hz as <-. done.
    + apply (Hbefore k' z); [lia|done..].
Qed.

Lemma mapM_or_raise {S A B} (g : A → option B) (e : exn) (ls : list A)
    (w : S) :
  list_comp (λ x, or_raise e (g x)) ls w
  = match mapM (M := option) g ls with
    | Some ys => (Ret ys, w)
    | None => (Raise e, w)
    end.
Proof.
  induction ls as [|x ls IH]; [done|].
  cbn [list_comp]. unfold bind at 1.
  destruct (g x) as [y|] eqn:Hg; simpl; rewrite Hg; simpl; [|done].
  unfold bind at 1. rewrite IH.
  destruct (mapM g ls); done.
Qed.

(** [look_and_move] draws the offsets and then chooses; only the generator
    changes. *)
Lemma look_and_move_eq center vision e h r :
  look_and_move center vision ((e, h), r)
  = match (make_visible_locs vision r).1 with
    | Ret offs => (choose e center offs, ((e, h), (make_visible_locs vision r).2))
    | Raise x => (Raise x, ((e, h), (make_visible_locs vision r).2))
    | Diverge => (Diverge, ((e, h), (make_visible_locs vision r).2))
    end.
Proof.
  unfold look_and_move. unfold bind at 1. unfold rand_result. cbn [fst snd].
  destruct (make_visible_locs vision r) as [[offs|x|] r']; cbn [fst snd];
    [|done..].
  unfold bind at 1. unfold get_env, bind, get, ret, env. cbn [fst snd].
  unfold choose.
  destruct (decide (length _ = 0%nat)); [done|].
  rewrite mapM_or_raise.
  destruct (mapM _ _) as [t|]; [|done].
  destruct (argmax t) as [i|]; cbn; [|done].
  destruct (_ !! i); done.
Qed.

Lemma StronglySorted_lookup_lt {A} (R : A → A → Prop) (l : list A) i j x y :
  StronglySorted R l → (i < j)%nat →
  l !! i = Some x → l !! j = Some y → R x y.
Proof.
  intros Hs Hij Hx Hy. rewrite <- (take_drop j l) in Hs.
  eapply StronglySorted_app_1_elem_of; [done|..].
  - apply list_elem_of_lookup. exists i. by rewrite lookup_take_lt.
  - apply list_elem_of_lookup. exists 0%nat.
    by rewrite lookup_drop, Nat.add_0_r.
Qed.

Lemma np_mod_bound x n : 0 < n → 0 <= np_mod x n < n.
Proof.
  intros Hn. unfold np_mod. rewrite decide_False by lia.
  by apply Z.mod_pos_bound.
Qed.

Lemma translate_valid n center offs c :
  0 < n → c ∈ translate n center offs → valid n c.
Proof.
  intros Hn (o & -> & _)%list_elem_of_fmap.
  split; simpl; by apply np_mod_bound.
Qed.

Lemma choose_Ret e center offs c :
  choose e center offs = Ret c →
  c = center ∨ (c ∈ translate (n e) center offs ∧ c ∉ occupied e).
Proof.
  unfold choose. destruct (decide (length _ = 0%nat)); [left; congruence|].
  destruct (mapM _ _) as [t|]; [|done].
  destruct (argmax t) as [i|]; [|done].
  destruct (_ !! i) as [c'|] eqn:Hi; [|done].
  intros [= <-]. right.
  apply list_elem_of_lookup_2, list_elem_of_filter in Hi. tauto.
Qed.

(** The choice, when the grid is well formed. *)
Lemma choose_spec e center offs :
  0 < n e → wf (array e) → dim (array e) = n e →
  ((∀ c, c ∈ translate (n e) center offs → c ∈ occupied e) →
   choose e center offs = Ret center) ∧
  ((∃ c, c ∈ translate (n e) center offs ∧ c ∉ occupied e) →
   ∃ k c,
     translate (n e) center offs !! k = Some c ∧
     choose e center offs = Ret c ∧
     (c ∉ occupied e) ∧
     (∀ c', c' ∈ translate (n e) center offs → c' ∉ occupied e →
            level e c' <= level e c) ∧
     (∀ k' c', (k' < k)%nat → translate (n e) center offs !! k' = Some c' →
               c' ∉ occupied e → level e c' < level e c)).
Proof.
  intros Hn Hwf Hdim.
  set (cells := translate (n e) center offs).
  set (empty_locs := filter (λ l, l ∉ occupied e) cells).
  assert (mapM (getitem (array e)) empty_locs
          = Some (level e <$> empty_locs)) as HmapM.
  { apply mapM_Some. apply Forall2_fmap_r, Forall_Forall2_diag.
    apply Forall_forall. intros c [_ Hc]%list_elem_of_filter.
    destruct (getitem_is_Some (array e) c) as [v Hv]; [done|..].
    - rewrite Hdim. by apply (translate_valid (n e) center offs).
    - unfold compose, level. by rewrite Hv. }
  split.
  - intros Hall. unfold choose. fold cells. fold empty_locs.
    rewrite decide_True; [done|].
    destruct empty_locs as [|c l] eqn:E; [done|].
    assert (c ∈ empty_locs) as Hc by (rewrite E; left).
    apply list_elem_of_filter in Hc as [Hc1 Hc2]. by apply Hall in Hc2.
  - intros (c0 & Hc0 & Hfree).
    assert (c0 ∈ empty_locs) as Hin by by apply list_elem_of_filter.
    assert (empty_locs ≠ []) as Hne.
    { intros E. rewrite E in Hin. by apply not_elem_of_nil in Hin. }
    destruct (argmax_is_Some (level e <$> empty_locs)) as [i Hi].
    { intros E. apply fmap_nil_inv in E. done. }
    destruct (argmax_spec _ _ Hi) as (m & Hm & Hmax & Hfirst).
    rewrite list_lookup_fmap in Hm.
    destruct (empty_locs !! i) as [c|] eqn:Hc; [|done].
    injection Hm as <-.
    destruct (filter_lookup_first _ cells i c Hc) as (k & Hk & Hfc & Hbefore).
    exists k, c. split_and!.
    + done.
    + unfold choose. fold cells. fold empty_locs.
      rewrite decide_False by (by destruct empty_locs).
      by rewrite HmapM, Hi, Hc.
    + done.
    + intros c' Hc' Hfree'. apply Hmax.
      apply list_elem_of_fmap_2. by apply list_elem_of_filter.
    + intros k' c' Hk' Hc' Hfree'.
      destruct (Hbefore k' c' Hk' Hc' Hfree') as (j & Hj & Hjc).
      apply (Hfirst j); [done|]. rewrite list_lookup_fmap.
      unfold empty_locs. by rewrite Hjc.
Qed.

End VisionFacts.

Module LookAndMoveClaim.
Import Sugarscape SugarscapeSpec SugarscapeChoice VisionFacts.

(** The translation of the code is the translation on the torus. *)
Lemma translate_torus n center offs :
  0 < n → translate n center offs = torus_cell n center <$> offs.
Proof.
  intros Hn. unfold translate. apply list_fmap_ext. intros _ o _.
  unfold torus_cell, np_mod. destruct (decide (n = 0)); [lia|].
  f_equal; f_equal; lia.
Qed.

(** C4, as the code has it.  With a vision below 1 there is no offset to
    stack and [look_and_move(center, vision)] raises [ValueError].  With a
    vision of at least 1 it enumerates the visible offsets ring by ring,
    nearest first; the visible cells are the cells these offsets reach
    from [center] on the torus.  It changes neither the object nor the
    agents.  When every visible cell is in the occupancy index it returns
    [center]; otherwise it returns an unoccupied visible cell of maximal
    level, the first such cell of the enumeration: every visible cell
    before it is occupied or holds strictly less, so no unoccupied cell
    with the same level is nearer. *)
Theorem look_and_move_choice (w : world) (center : loc) (vision : Z) :
  0 < n (env w) → wf (array (env w)) → dim (array (env w)) = n (env w) →
  (vision < 1 → look_and_move center vision w = (Raise ValueError, w)) ∧
  (1 <= vision →
   ∃ offs,
    visible_enumeration vision offs ∧
    (look_and_move center vision w).2.1 = w.1 ∧
    let cells := torus_cell (n (env w)) center <$> offs in
    let out := (look_and_move center vision w).1 in
    ((∀ c, c ∈ cells → c ∈ occupied (env w)) → out = Ret center) ∧
    ((∃ c, c ∈ cells ∧ c ∉ occupied (env w)) →
     ∃ k o c,
       offs !! k = Some o ∧ c = torus_cell (n (env w)) center o ∧
       out = Ret c ∧ valid (n (env w)) c ∧
       (c ∉ occupied (env w)) ∧
       (∀ c', c' ∈ cells → c' ∉ occupied (env w) →
              level (env w) c' <= level (env w) c) ∧
       (∀ k' o' c', offs !! k' = Some o' →
                    c' = torus_cell (n (env w)) center o' →
                    c' ∉ occupied (env w) →
                    level (env w) c' = level (env w) c →
                    (k <= k')%nat ∧ distance o <= distance o'))).
Proof.
  destruct w as [[e h] r]. unfold env. cbn [fst snd].
  intros Hn Hwf Hdim. split.
  { intros Hv. rewrite look_and_move_eq.
    unfold make_visible_locs. by rewrite seqZ_nil by lia. }
  intros Hv.
  destruct (make_visible_locs_spec vision r Hv) as (offs & Hoffs & Henum).
  exists offs. rewrite look_and_move_eq, Hoffs. cbn [fst snd].
  split; [done|]. split; [done|]. cbv zeta.
  rewrite <- (translate_torus (n e) center offs Hn).
  destruct (choose_spec e center offs Hn Hwf Hdim) as [Hstay Hmove].
  split; [done|].
  intros Hex. destruct (Hmove Hex) as (k & c & Hk & Hc & Hfree & Hmax & Hfirst).
  assert (∀ j o', offs !! j = Some o' →
            translate (n e) center offs !! j
            = Some (torus_cell (n e) center o')) as Hat.
  { intros j o' Hj. rewrite translate_torus by done.
    by rewrite list_lookup_fmap, Hj. }
  pose proof Hk as Hk'. unfold translate in Hk'.
  rewrite list_lookup_fmap in Hk'.
  destruct (offs !! k) as [o|] eqn:Ho; [|done].
  assert (c = torus_cell (n e) center o) as Hco.
  { rewrite (Hat k o Ho) in Hk. by injection Hk. }
  exists k, o, c. split_and!; [done..| |done|done|].
  { apply (translate_valid (n e) center offs); [done|].
    by eapply list_elem_of_lookup_2. }
  intros k' o' c' Ho' -> Hfree' Heq.
  assert (k <= k')%nat as Hle.
  { destruct (decide (k <= k')%nat) as [|Hlt]; [done|].
    assert (level e (torus_cell (n e) center o') < level e c)
      by (apply (Hfirst k'); [lia|by apply Hat|done]).
    lia. }
  split; [done|].
  destruct (decide (k = k')) as [->|Hne]; [by simplify_eq|].
  destruct Henum as [_ Hsorted].
  apply (StronglySorted_lookup_lt
           (λ o1 o2, distance o1 <= distance o2) offs k k');
    [done|lia|done..].
Qed.

End LookAndMoveClaim.

(** ** Sugarscape: what each operation does to the world *)

Module OpFacts.
Import Sugarscape SugarscapeSpec SugarscapeChoice SugarscapeInv VisionFacts.
Import SugarscapeVisit.

Lemma get_agent_eq a e h r :
  get_agent a ((e, h), r)
  = match h !! a with
    | Some x => (Ret x, ((e, h), r))
    | None => (Raise ReferenceError, ((e, h), r))
    end.
Proof. unfold get_agent, bind, get, heap. simpl. by destruct (h !! a). Qed.

Lemma set_agent_eq a x e h r :
  set_agent a x ((e, h), r) = (Ret tt, ((e, <[a := x]> h), r)).
Proof. done. Qed.

Lemma get_env_eq e h r : get_env ((e, h), r) = (Ret e, ((e, h), r)).
Proof. done. Qed.

Lemma put_env_eq e' e h r : put_env e' ((e, h), r) = (Ret tt, ((e', h), r)).
Proof. done. Qed.

Lemma occupied_remove_eq l e h r :
  occupied_remove l ((e, h), r)
  = if decide (l ∈ occupied e)
    then (Ret tt, ((set_occupied e (occupied e ∖ {[l]}), h), r))
    else (Raise KeyError, ((e, h), r)).
Proof.
  unfold occupied_remove, bind. rewrite get_env_eq.
  by destruct (decide (l ∈ occupied e)).
Qed.

Lemma harvest_eq l e h r :
  harvest l ((e, h), r)
  = match getitem (array e) l, setitem (array e) l 0 with
    | Some v, Some a' => (Ret v, ((set_array e a', h), r))
    | _, _ => (Raise IndexError, ((e, h), r))
    end.
Proof.
  unfold harvest, bind. rewrite get_env_eq.
  destruct (getitem (array e) l); simpl; [|done].
  by destruct (setitem (array e) l 0).
Qed.

Lemma agents_remove_eq a e h r :
  agents_remove a ((e, h), r)
  = match list_remove a (agents e) with
    | Some l => (Ret tt, ((set_agents e l, h), r))
    | None => (Raise ValueError, ((e, h), r))
    end.
Proof.
  unfold agents_remove, bind. rewrite get_env_eq.
  by destruct (list_remove a (agents e)).
Qed.

(** *** The generator keeps its sequence of draws *)

Lemma shuffle_loop_draws {A} i (x : list A) r :
  draws (shuffle_loop i x r).2 = draws r.
Proof.
  revert x r. induction i as [|i IH]; intros x r; [done|].
  simpl. by rewrite IH.
Qed.

Lemma shuffle_draws {A} (x : list A) r : draws (shuffle x r).2 = draws r.
Proof. apply shuffle_loop_draws. Qed.

Lemma make_arrays_draws ds r : draws (make_arrays ds r).2 = draws r.
Proof.
  revert r. induction ds as [|d ds IH]; intros r; [done|].
  cbn [make_arrays].
  assert (draws (make_array d r).2 = draws r) as H by apply shuffle_draws.
  destruct (make_array d r) as [a r1].
  specialize (IH r1).
  destruct (make_arrays ds r1) as [l r2]. cbn [fst snd] in *. congruence.
Qed.

Lemma make_visible_locs_draws vision r :
  draws (make_visible_locs vision r).2 = draws r.
Proof.
  unfold make_visible_locs.
  pose proof (make_arrays_draws (seqZ 1 vision) r) as H.
  destruct (make_arrays (seqZ 1 vision) r) as [[|a l] r']; done.
Qed.

Lemma randint2_outcome low high r :
  match (randint2 low high r).1 with
  | Ret i => low <= i < high ∧ - 2 ^ 63 <= low ∧ high <= 2 ^ 63
  | Raise ex =>
      ex = ValueError ∧ ¬ (- 2 ^ 63 <= low ∧ high <= 2 ^ 63 ∧ low < high) ∧
      (randint2 low high r).2 = r
  | Diverge => False
  end ∧ draws (randint2 low high r).2 = draws r.
Proof.
  unfold randint2.
  destruct (decide (- 2 ^ 63 <= low ∧ high <= 2 ^ 63 ∧ low < high))
    as [(? & ? & ?)|]; simpl.
  - split; [|done]. pose proof (Z.mod_pos_bound (Z.of_nat (draws r (pos r)))
                                  (high - low)). lia.
  - done.
Qed.

Lemma randint_outcome high r :
  match (randint high r).1 with
  | Ret i => 0 <= i < high
  | Raise _ => high <= 0 ∧ (randint high r).2 = r
  | Diverge => False
  end ∧ draws (randint high r).2 = draws r.
Proof.
  unfold randint. destruct (decide (0 < high)); simpl.
  - split; [|done]. by apply Z.mod_pos_bound.
  - split; [|done]. split; [lia|done].
Qed.

Lemma uniform_outcome lo hi r :
  match (uniform lo hi r).1 with
  | Ret _ => range_ok lo hi
  | Raise ex => ex = OverflowError ∧ ¬ range_ok lo hi ∧ (uniform lo hi r).2 = r
  | Diverge => False
  end ∧ draws (uniform lo hi r).2 = draws r.
Proof.
  unfold uniform, range_ok.
  destruct (is_finite lo && is_finite hi && is_finite (hi - lo)); simpl;
    [done|]. split; [|done]. split; [done|]. split; done.
Qed.

(** *** Cells set to zero *)

Lemma zeroed_refl a : zeroed a a.
Proof.
  split; [done|]. apply Forall_Forall2_diag, Forall_forall. by left.
Qed.

Lemma zeroed_trans a b c : zeroed a b → zeroed b c → zeroed a c.
Proof.
  intros [Hd1 H1] [Hd2 H2]. split; [congruence|].
  revert H2. generalize (data c). induction H1 as [|x y l k Hxy _ IH];
    intros l' H2; inv H2; constructor; [lia|by apply IH].
Qed.

Lemma setitem_zeroed a l a' : setitem a l 0 = Some a' → zeroed a a'.
Proof.
  unfold setitem. destruct (flat_index a l) as [k|]; [|done]. simpl.
  destruct (data a !! k) as [v|] eqn:Hk; [|done]. intros [= <-].
  split; [done|]. simpl. clear Hk.
  revert k. induction (data a) as [|x xs IH]; intros k; [constructor|].
  destruct k; simpl; constructor; try (by left); try (by right).
  - apply Forall_Forall2_diag, Forall_forall. by left.
  - apply IH.
Qed.

Lemma zeroed_wf a a' : zeroed a a' → wf a → wf a'.
Proof.
  intros [Hd HF] [H0 Hl]. split; rewrite Hd; [done|].
  rewrite <- Hl. symmetry. by eapply Forall2_length.
Qed.

(** *** Spawning an agent *)

Lemma Agent_init_outcome l ps e h r res w' :
  Agent_init l ps ((e, h), r) = (res, w') →
  draws w'.2 = draws r ∧
  match res with
  | Ret a' =>
      ∃ x, w'.1 = (e, <[a' := x]> h) ∧ h !! a' = None ∧ loc_ x = l ∧
           1 <= vision x ∧ traits_ok ps
  | Raise _ => ¬ traits_ok ps ∧ w'.1 = (e, h)
  | Diverge => False
  end.
Proof.
  unfold Agent_init. unfold bind at 1. unfold rand_result at 1.
  cbn [fst snd].
  pose proof (randint2_outcome 1 (default 6 (max_vision ps) + 1) r)
    as [Hout Hd].
  destruct (randint2 1 (default 6 (max_vision ps) + 1) r) as [[v| |] r1];
    cbn [fst snd] in *; [| |done].
  2:{ intros [= <- <-]. simpl. split; [done|]. split; [|done].
      destruct Hout as (_ & Hout & _). intros ((? & ?) & _). lia. }
  unfold bind at 1. unfold rand_result at 1. cbn [fst snd].
  pose proof (uniform_outcome 1 (default 4%Q (max_metabolism ps)) r1)
    as [Hm Hdm].
  destruct (uniform 1 (default 4%Q (max_metabolism ps)) r1)
    as [[m| |] r2]; cbn [fst snd] in *; [| |done].
  2:{ intros [= <- <-]. simpl. split; [congruence|]. split; [|done].
      destruct Hm as (_ & Hm & _). intros (_ & ? & _). done. }
  unfold bind at 1. unfold rand_result at 1. cbn [fst snd].
  pose proof (uniform_outcome (default 10000%Q (min_lifespan ps))
                (default 10000%Q (max_lifespan ps)) r2) as [Hl Hdl].
  destruct (uniform (default 10000%Q (min_lifespan ps))
              (default 10000%Q (max_lifespan ps)) r2)
    as [[ls| |] r3]; cbn [fst snd] in *; [| |done].
  2:{ intros [= <- <-]. simpl. split; [congruence|]. split; [|done].
      destruct Hl as (_ & Hl & _). intros (_ & _ & ? & _). done. }
  unfold bind at 1. unfold rand_result at 1. cbn [fst snd].
  pose proof (uniform_outcome (default 5%Q (min_sugar ps))
                (default 25%Q (max_sugar ps)) r3) as [Hs Hds].
  destruct (uniform (default 5%Q (min_sugar ps))
              (default 25%Q (max_sugar ps)) r3)
    as [[sg| |] r4]; cbn [fst snd] in *; [| |done].
  2:{ intros [= <- <-]. simpl. split; [congruence|]. split; [|done].
      destruct Hs as (_ & Hs & _). intros (_ & _ & _ & ?). done. }
  intros [= <- <-]. cbn [fst snd]. split; [congruence|].
  eexists. split_and!; [reflexivity| |reflexivity|simpl; lia|].
  - apply not_elem_of_dom, is_fresh.
  - split; [lia|done].
Qed.

Lemma random_loc_outcome fuel e h : ∀ r res w',
  random_loc fuel ((e, h), r) = (res, w') →
  w'.1 = (e, h) ∧ draws w'.2 = draws r ∧
  match res with
  | Ret c => (c ∉ occupied e) ∧ valid (n e) c
  | Raise _ => n e <= 0
  | Diverge => True
  end.
Proof.
  induction fuel as [|fuel IH]; intros r res w'.
  - intros [= <- <-]. done.
  - cbn [random_loc]. unfold bind at 1. rewrite get_env_eq.
    unfold bind at 1. unfold rand_result. cbn [fst snd].
    pose proof (randint_outcome (n e) r) as [Hi Hdi].
    destruct (randint (n e) r) as [[i| |] r1]; cbn [fst snd] in *.
    + unfold bind at 1. cbn [fst snd].
      pose proof (randint_outcome (n e) r1) as [Hj Hdj].
      destruct (randint (n e) r1) as [[j| |] r2]; cbn [fst snd] in *.
      * destruct (decide ((i, j) ∈ occupied e)) as [Hocc|Hfree].
        -- intros Hrec. apply IH in Hrec as (? & ? & ?).
           split_and!; [done|congruence|done].
        -- intros [= <- <-]. cbn [fst snd].
           split_and!; [done|congruence|done|split; simpl; lia].
      * intros [= <- <-]. cbn [fst snd]. split_and!; [done|congruence|lia].
      * done.
    + intros [= <- <-]. cbn [fst snd]. split_and!; [done|done|lia].
    + done.
Qed.

Lemma add_agent_outcome fuel e h r res w' :
  add_agent fuel ((e, h), r) = (res, w') →
  draws w'.2 = draws r ∧
  match res with
  | Ret a' =>
      ∃ x, w'.1 = (set_occupied (set_agents e (agents e ++ [a']))
                     ({[loc_ x]} ∪ occupied e), <[a' := x]> h) ∧
           h !! a' = None ∧ (loc_ x ∉ occupied e) ∧ valid (n e) (loc_ x) ∧
           1 <= vision x ∧ Cfg e
  | Raise _ => ¬ Cfg e ∧ w'.1 = (e, h)
  | Diverge => w'.1 = (e, h)
  end.
Proof.
  unfold add_agent. unfold bind at 1. rewrite get_env_eq.
  unfold bind at 1.
  destruct (random_loc fuel ((e, h), r)) as [res1 [[e1 h1] r1]] eqn:E1.
  apply random_loc_outcome in E1 as (Hw1 & Hd1 & Hres1).
  cbn [fst snd] in *. injection Hw1 as -> ->.
  destruct res1 as [c| |].
  - destruct Hres1 as [Hfree Hvalid].
    unfold bind at 1.
    destruct (Agent_init c (params e) ((e, h), r1))
      as [res2 [[e2 h2] r2]] eqn:E2.
    apply Agent_init_outcome in E2 as (Hd2 & Hres2). cbn [fst snd] in *.
    destruct res2 as [a'| |].
    + destruct Hres2 as (x & [= -> ->] & Hnew & Hloc & Hvis & Hmv).
      unfold bind at 1. rewrite get_env_eq.
      unfold bind at 1. rewrite put_env_eq.
      unfold bind at 1. rewrite get_agent_eq, lookup_insert_eq.
      unfold bind at 1. rewrite get_env_eq.
      unfold bind at 1. rewrite put_env_eq.
      intros [= <- <-]. cbn [fst snd]. split; [congruence|].
      exists x. subst c. split_and!; try done.
      split; [destruct Hvalid; lia|done].
    + destruct Hres2 as [Hmv [= -> ->]].
      intros [= <- <-]. cbn [fst snd]. split; [congruence|].
      split; [|done]. intros [_ ?]. done.
    + done.
  - intros [= <- <-]. cbn [fst snd]. split; [done|].
    split; [|done]. intros [? _]. lia.
  - intros [= <- <-]. done.
Qed.

(** *** One agent's turn *)

Lemma choose_no_raise e center offs :
  0 < n e → wf (array e) → dim (array e) = n e →
  ∃ c, choose e center offs = Ret c.
Proof.
  intros Hn Hwf Hdim.
  destruct (choose_spec e center offs Hn Hwf Hdim) as [Hstay Hmove].
  destruct (decide (Forall (λ c, c ∈ occupied e)
                      (translate (n e) center offs))) as [Hall|Hex].
  - exists center. apply Hstay. by apply Forall_forall.
  - apply not_Forall_Exists, Exists_exists in Hex as (c & Hc & Hfree);
      [|apply _].
    destruct Hmove as (k & c' & _ & Hret & _); eauto.
Qed.

Lemma Agent_step_outcome a x e h r res w' :
  h !! a = Some x →
  Agent_step a ((e, h), r) = (res, w') →
  draws w'.2 = draws r ∧
  match res with
  | Ret _ =>
      ∃ l v a',
        w'.1 = (set_array e a', <[a := stepped x l v]> h) ∧
        (l = loc_ x ∨ l ∉ occupied e) ∧
        (0 < n e → l = loc_ x ∨ valid (n e) l) ∧
        getitem (array e) l = Some v ∧ setitem (array e) l 0 = Some a'
  | Raise _ =>
      ¬ (wf (array e) ∧ dim (array e) = n e ∧ valid (n e) (loc_ x) ∧
         1 <= vision x)
  | Diverge => False
  end.
Proof.
  intros Hx. unfold Agent_step. unfold bind at 1.
  rewrite get_agent_eq, Hx. unfold bind at 1. rewrite look_and_move_eq.
  pose proof (make_visible_locs_draws (vision x) r) as Hd.
  destruct (make_visible_locs (vision x) r) as [[offs|ex|] r1] eqn:Emv;
    cbn [fst snd] in *.
  - destruct (choose e (loc_ x) offs) as [l|ex|] eqn:Ech.
    + unfold bind at 1. rewrite set_agent_eq.
      unfold bind at 1. rewrite get_agent_eq, lookup_insert_eq.
      unfold bind at 1. rewrite harvest_eq. cbn [loc_ set_loc].
      assert (0 < n e → l = loc_ x ∨ valid (n e) l) as Hvalid.
      { intros Hn. apply choose_Ret in Ech as [?|[Hin _]]; [by left|right].
        by eapply translate_valid. }
      destruct (getitem (array e) l) as [v|] eqn:Hg.
      * destruct (setitem (array e) l 0) as [a'|] eqn:Hs.
        -- unfold bind at 1. rewrite set_agent_eq.
           unfold bind at 1. rewrite get_agent_eq, lookup_insert_eq.
           rewrite set_agent_eq. intros [= <- <-]. cbn [fst snd].
           split; [done|]. exists l, v, a'.
           rewrite !insert_insert_eq. split_and!; try done.
           apply choose_Ret in Ech as [?|[_ ?]]; [by left|by right].
        -- intros [= <- <-]. cbn [fst snd]. split; [done|].
           intros (Hwf & Hdim & Hloc & Hvis).
           assert (valid (dim (array e)) l) as Hl.
           { rewrite Hdim. destruct Hvalid as [->|?]; [|done..].
             destruct Hloc. lia. }
           rewrite setitem_valid in Hs by done. done.
      * intros [= <- <-]. cbn [fst snd]. split; [done|].
        intros (Hwf & Hdim & Hloc & Hvis).
        assert (valid (dim (array e)) l) as Hl.
        { rewrite Hdim. destruct Hvalid as [->|?]; [|done..].
          destruct Hloc. lia. }
        destruct (getitem_is_Some (array e) l Hwf Hl). congruence.
    + intros [= <- <-]. cbn [fst snd]. split; [done|].
      intros (Hwf & Hdim & Hloc & Hvis).
      destruct (choose_no_raise e (loc_ x) offs) as [c Hc]; try done.
      * destruct Hloc. lia.
      * congruence.
    + intros [= <- <-]. cbn [fst snd]. split; [done|].
      unfold choose in Ech. repeat case_match; done.
  - intros [= <- <-]. cbn [fst snd]. split; [done|].
    intros (_ & _ & _ & Hvis).
    destruct (make_visible_locs_spec (vision x) r Hvis) as (offs & Ho & _).
    rewrite Emv in Ho. done.
  - intros [= <- <-]. cbn [fst snd].
    unfold make_visible_locs in Emv.
    destruct (make_arrays _ r) as [[|? ?] ?]; done.
Qed.

Lemma visit_factor fuel rp a w :
  visit fuel rp a w
  = match visit_prefix rp a w with
    | (Ret true, w1) => bind (add_agent fuel) (λ _, ret tt) w1
    | (Ret false, w1) => (Ret tt, w1)
    | (Raise ex, w1) => (Raise ex, w1)
    | (Diverge, w1) => (Diverge, w1)
    end.
Proof.
  unfold visit, visit_prefix, bind.
  destruct (get_agent a w) as [[x|ex|] w1]; [|done..].
  destruct (occupied_remove (loc_ x) w1) as [[[]|ex|] w2]; [|done..].
  destruct (Agent_step a w2) as [[[]|ex|] w3]; [|done..].
  destruct (get_agent a w3) as [[y|ex|] w4]; [|done..].
  destruct (is_starving y || is_old y).
  - destruct (agents_remove a w4) as [[[]|ex|] w5]; [|done..].
    destruct rp; done.
  - destruct w4 as [[e4 h4] r4]. done.
Qed.

(** *** The bijection under the updates of a turn *)

Lemma agent_loc_insert h a x b :
  agent_loc (<[a := x]> h) b
  = if decide (a = b) then Some (loc_ x) else agent_loc h b.
Proof.
  unfold agent_loc. rewrite lookup_insert. by destruct (decide (a = b)).
Qed.

Lemma list_remove_spec a l :
  match list_remove a l with
  | Some l' =>
      a ∈ l ∧ length l = S (length l') ∧
      (∀ b, b ∈ l ↔ b = a ∨ b ∈ l') ∧
      (NoDup l → NoDup l' ∧ a ∉ l')
  | None => a ∉ l
  end.
Proof.
  induction l as [|b l IH]; cbn [list_remove].
  - apply not_elem_of_nil.
  - destruct (decide (a = b)) as [->|Hne].
    + split_and!; [left|done| |].
      * intros c. rewrite elem_of_cons. done.
      * intros [? ?]%NoDup_cons. done.
    + destruct (list_remove a l) as [l'|]; cbn.
      * destruct IH as (Hin & Hlen & Hmem & Hnd).
        split_and!; [by right|simpl; lia| |].
        -- intros c. rewrite !elem_of_cons, Hmem. tauto.
        -- intros [Hb Hl]%NoDup_cons. destruct (Hnd Hl) as [Hl' Ha].
           split.
           ++ apply NoDup_cons. split; [|done]. rewrite Hmem in Hb. tauto.
           ++ rewrite elem_of_cons. tauto.
      * rewrite elem_of_cons. tauto.
Qed.

Lemma bijection_move ags occ h a x x' :
  bijection ags occ h → a ∈ ags → h !! a = Some x →
  loc_ x' ∉ occ ∖ {[loc_ x]} →
  bijection ags ({[loc_ x']} ∪ occ ∖ {[loc_ x]}) (<[a := x']> h).
Proof.
  intros [Hnd Hal Hinj Hocc] Ha Hx Hfree.
  assert (agent_loc h a = Some (loc_ x)) as Hla
    by (unfold agent_loc; by rewrite Hx).
  assert (∀ b, b ∈ ags → b ≠ a → agent_loc h b ≠ Some (loc_ x')) as Hother.
  { intros b Hb Hne Hlb. apply Hfree. apply elem_of_difference. split.
    - apply Hocc. eauto.
    - intros Heq%elem_of_singleton. apply Hne.
      apply (Hinj b a (loc_ x')); [done..|congruence]. }
  split.
  - done.
  - intros b Hb. rewrite lookup_insert. case_decide; [done|by apply Hal].
  - intros b c l Hb Hc. rewrite !agent_loc_insert.
    repeat case_decide; subst; try done.
    + intros [= <-] Hl. by destruct (Hother c).
    + intros Hl [= <-]. by destruct (Hother b).
    + by apply Hinj.
  - intros l. rewrite elem_of_union, elem_of_singleton, elem_of_difference,
      elem_of_singleton, Hocc. split.
    + intros [->|[(b & Hb & Hlb) Hne]].
      * exists a. rewrite agent_loc_insert, decide_True by done. done.
      * exists b. split; [done|]. rewrite agent_loc_insert.
        rewrite decide_False; [done|]. intros ->. congruence.
    + intros (b & Hb & Hlb). rewrite agent_loc_insert in Hlb.
      case_decide; [left; congruence|]. right. split; [eauto|].
      intros ->. apply H. symmetry. by apply (Hinj b a (loc_ x)).
Qed.

Lemma bijection_remove ags ags' occ h a x x' :
  bijection ags occ h → h !! a = Some x →
  list_remove a ags = Some ags' →
  bijection ags' (occ ∖ {[loc_ x]}) (<[a := x']> h).
Proof.
  intros [Hnd Hal Hinj Hocc] Hx Hrem.
  pose proof (list_remove_spec a ags) as Hspec. rewrite Hrem in Hspec.
  destruct Hspec as (Ha & _ & Hmem & Hnd').
  destruct (Hnd' Hnd) as [Hnd'' Hnotin].
  assert (agent_loc h a = Some (loc_ x)) as Hla
    by (unfold agent_loc; by rewrite Hx).
  assert (∀ b, b ∈ ags' → b ∈ ags ∧ b ≠ a) as Hsub.
  { intros b Hb. split; [apply Hmem; by right|]. by intros ->. }
  split.
  - done.
  - intros b Hb. rewrite lookup_insert. case_decide; [done|].
    apply Hal, Hsub, Hb.
  - intros b c l Hb Hc. destruct (Hsub b Hb), (Hsub c Hc).
    rewrite !agent_loc_insert, !decide_False by done. by apply Hinj.
  - intros l. rewrite elem_of_difference, elem_of_singleton, Hocc. split.
    + intros [(b & Hb & Hlb) Hne].
      assert (b ≠ a) by (intros ->; congruence).
      exists b. rewrite agent_loc_insert, decide_False by done.
      split; [|done]. apply Hmem in Hb as [?|?]; done.
    + intros (b & Hb & Hlb). destruct (Hsub b Hb) as [Hb' Hne].
      rewrite agent_loc_insert, decide_False in Hlb by done.
      split; [eauto|]. intros ->. apply Hne. by apply (Hinj b a (loc_ x)).
Qed.

Lemma bijection_add ags occ h a' x :
  bijection ags occ h → h !! a' = None → loc_ x ∉ occ →
  bijection (ags ++ [a']) ({[loc_ x]} ∪ occ) (<[a' := x]> h).
Proof.
  intros [Hnd Hal Hinj Hocc] Hnew Hfree.
  assert (a' ∉ ags) as Hnotin.
  { intros Hin. destruct (Hal a' Hin). congruence. }
  assert (∀ b, b ∈ ags → b ≠ a' ∧ agent_loc h b ≠ Some (loc_ x)) as Hold.
  { intros b Hb. split; [by intros ->|].
    intros Hlb. apply Hfree, Hocc. eauto. }
  split.
  - apply NoDup_app. split_and!; [done| |apply NoDup_singleton].
    intros b Hb ->%list_elem_of_singleton. done.
  - intros b [Hb| ->%list_elem_of_singleton]%elem_of_app.
    + rewrite lookup_insert_ne; [by apply Hal|]. by intros ->.
    + by rewrite lookup_insert_eq.
  - intros b c l. rewrite !elem_of_app, !list_elem_of_singleton.
    rewrite !agent_loc_insert.
    intros [Hb| ->] [Hc| ->]; repeat case_decide; subst; try done.
    + by apply Hinj.
    + intros Hl [= <-]. by destruct (Hold b Hb).
    + intros [= <-] Hl. by destruct (Hold c Hc).
  - intros l. rewrite elem_of_union, elem_of_singleton, Hocc. split.
    + intros [->|(b & Hb & Hlb)].
      * exists a'. rewrite elem_of_app, list_elem_of_singleton.
        rewrite agent_loc_insert, decide_True by done. tauto.
      * exists b. rewrite elem_of_app, agent_loc_insert.
        destruct (Hold b Hb). rewrite decide_False by done. tauto.
    + intros (b & [Hb| ->%list_elem_of_singleton]%elem_of_app & Hlb);
        rewrite agent_loc_insert in Hlb.
      * destruct (Hold b Hb). rewrite decide_False in Hlb by done.
        right. eauto.
      * rewrite decide_True in Hlb by done. left. congruence.
Qed.

Lemma Inv_loc_occupied e h a x :
  Inv e h → a ∈ agents e → h !! a = Some x → loc_ x ∈ occupied e.
Proof.
  intros HI Ha Hx. apply (inv_occ _ _ _ HI). exists a. split; [done|].
  unfold agent_loc. by rewrite Hx.
Qed.

Lemma Strong_agent e h a x :
  Strong e h → a ∈ agents e → h !! a = Some x →
  valid (n e) (loc_ x) ∧ 1 <= vision x ∧ Cfg e.
Proof.
  intros HS Ha Hx. destruct (st_agents _ _ HS a Ha) as (y & Hy & ? & ?).
  assert (y = x) as -> by congruence. split_and!; [done..|].
  apply (st_cfg _ _ HS). intros E. rewrite E in Ha.
  by apply not_elem_of_nil in Ha.
Qed.

Lemma getitem_Some_bounds {A} (a : ndarray A) (l : loc) (v : A) :
  getitem a l = Some v →
  (- dim a <= l.1 < dim a) ∧ (- dim a <= l.2 < dim a).
Proof.
  unfold getitem, flat_index, py_index. intros H.
  repeat case_decide; try done; lia.
Qed.

(** The turn of agent [a] up to the replacement. *)
Lemma visit_prefix_outcome rp a x e h r res w' :
  Inv e h → a ∈ agents e → h !! a = Some x →
  visit_prefix rp a ((e, h), r) = (res, w') →
  draws w'.2 = draws r ∧
  match res with
  | Ret b =>
      ∃ e' l v,
        w'.1 = (e', <[a := stepped x l v]> h) ∧
        Inv e' (<[a := stepped x l v]> h) ∧
        n e' = n e ∧ params e' = params e ∧ capacity e' = capacity e ∧
        agent_count_seq e' = agent_count_seq e ∧
        zeroed (array e) (array e') ∧
        b = dead (stepped x l v) && rp ∧
        (if dead (stepped x l v)
         then list_remove a (agents e) = Some (agents e') ∧ l ∉ occupied e'
         else agents e' = agents e) ∧
        (Strong e h →
         Strong e' (<[a := stepped x l v]> h) ∧ valid (n e) l ∧ Cfg e) ∧
        (Grounded e h →
         Grounded e' (<[a := stepped x l v]> h) ∧ valid (n e) l)
  | Raise _ => ¬ Strong e h
  | Diverge => False
  end.
Proof.
  intros HI Ha Hx. unfold visit_prefix.
  unfold bind at 1. rewrite get_agent_eq, Hx.
  unfold bind at 1. rewrite occupied_remove_eq.
  rewrite decide_True by (by eapply Inv_loc_occupied).
  unfold bind at 1.
  set (e1 := set_occupied e (occupied e ∖ {[loc_ x]})).
  destruct (Agent_step a ((e1, h), r)) as [res1 [[e2 h2] r2]] eqn:E1.
  apply (Agent_step_outcome a x) in E1 as [Hd Hres1]; [|done].
  cbn [fst snd] in *.
  destruct res1 as [[]|ex|]; [| |done].
  - destruct Hres1 as (l & v & a' & [= -> ->] & Hl & Hlv & Hg & Hs).
    unfold bind at 1. rewrite get_agent_eq, lookup_insert_eq.
    fold (dead (stepped x l v)).
    assert (l ∉ occupied e ∖ {[loc_ x]}) as Hfree.
    { destruct Hl as [->|Hl]; [|done].
      rewrite elem_of_difference, elem_of_singleton. tauto. }
    assert (zeroed (array e) a') as Hz by by eapply setitem_zeroed.
    assert (Strong e h →
            wf a' ∧ dim a' = n e ∧ valid (n e) l ∧ 1 <= vision x ∧ Cfg e)
      as Hstrong.
    { intros HS. destruct (Strong_agent e h a x HS Ha Hx) as (Hv & Hvis & HC).
      split_and!; try done.
      - eapply zeroed_wf; [done|]. apply HS.
      - destruct Hz as [-> _]. apply HS.
      - destruct Hlv as [->|?]; [apply HC|done..]. }
    assert (Grounded e h → wf a' ∧ dim a' = n e ∧ valid (n e) l) as Hground.
    { intros HG. destruct (gr_agents _ _ HG a Ha) as (y & Hy & Hy1 & Hy2).
      assert (y = x) as -> by congruence.
      split_and!.
      - eapply zeroed_wf; [done|]. apply HG.
      - destruct Hz as [-> _]. apply HG.
      - apply getitem_Some_bounds in Hg. cbn [array e1 set_occupied] in Hg.
        rewrite (gr_dim _ _ HG) in Hg.
        destruct Hlv as [->|?]; [cbn; lia| |done]. split; lia. }
    destruct (dead (stepped x l v)) eqn:Hdead.
    + unfold bind at 1. rewrite agents_remove_eq. cbn [agents set_array e1
        set_occupied].
      pose proof (list_remove_spec a (agents e)) as Hrem.
      destruct (list_remove a (agents e)) as [ags'|] eqn:Erem; [|done].
      intros [= <- <-]. cbn [fst snd]. split; [done|].
      eexists _, l, v. split; [reflexivity|].
      rewrite Hdead. cbn [n params capacity agent_count_seq array agents
        occupied set_agents set_array set_occupied].
      split_and!; try done.
      * by eapply bijection_remove.
      * intros HS. destruct (Hstrong HS) as (? & ? & ? & ? & ?).
        split_and!; [|done..]. split; cbn; try apply HS; try done.
        intros b Hb. destruct Hrem as (_ & _ & Hmem & Hnd).
        destruct (Hnd (inv_nodup _ _ _ HI)) as [_ Hnotin].
        assert (b ≠ a) by (by intros ->).
        rewrite lookup_insert_ne by done. apply (st_agents _ _ HS).
        apply Hmem. by right.
      * intros HG. destruct (Hground HG) as (? & ? & ?).
        split; [|done]. split; cbn; try apply HG; try done.
        intros b Hb. destruct Hrem as (_ & _ & Hmem & Hnd).
        destruct (Hnd (inv_nodup _ _ _ HI)) as [_ Hnotin].
        assert (b ≠ a) by (by intros ->).
        rewrite lookup_insert_ne by done. apply (gr_agents _ _ HG).
        apply Hmem. by right.
    + unfold bind at 1. rewrite get_env_eq.
      unfold bind at 1. rewrite put_env_eq.
      intros [= <- <-]. cbn [fst snd]. split; [done|].
      eexists _, l, v. split; [reflexivity|].
      rewrite Hdead. cbn [n params capacity agent_count_seq array agents
        occupied set_agents set_array set_occupied e1 loc_ stepped set_age
        set_sugar set_loc].
      split_and!; try done.
      * by apply (bijection_move _ _ _ a x (stepped x l v)).
      * intros HS. destruct (Hstrong HS) as (? & ? & ? & ? & ?).
        split_and!; [|done..]. split; cbn; try apply HS; try done.
        intros b Hb. destruct (decide (b = a)) as [->|Hne].
        -- rewrite lookup_insert_eq. eexists. split; [done|]. done.
        -- rewrite lookup_insert_ne by done. by apply (st_agents _ _ HS).
      * intros HG. destruct (Hground HG) as (? & ? & Hvl).
        split; [|done]. split; cbn; try apply HG; try done.
        intros b Hb. destruct (decide (b = a)) as [->|Hne].
        -- rewrite lookup_insert_eq. eexists. split; [done|].
           cbn. destruct Hvl. lia.
        -- rewrite lookup_insert_ne by done. by apply (gr_agents _ _ HG).
  - intros [= <- <-]. cbn [fst snd]. split; [done|]. intros HS. apply Hres1.
    destruct (Strong_agent e h a x HS Ha Hx) as (Hv & Hvis & HC).
    split_and!; try done; apply HS.
Qed.

Lemma Cfg_ext e e' : n e' = n e → params e' = params e → Cfg e → Cfg e'.
Proof. unfold Cfg. by intros -> ->. Qed.

Lemma evolves_refl e h : evolves e h e h.
Proof. split; try done. apply zeroed_refl. Qed.

Lemma evolves_trans e h e1 h1 e2 h2 :
  evolves e h e1 h1 → evolves e1 h1 e2 h2 → evolves e h e2 h2.
Proof.
  intros [] []. split; try congruence; [|tauto..].
  by eapply zeroed_trans.
Qed.

(** The turn of agent [a]. *)
Lemma visit_outcome fuel rp a x e h r res w' :
  Inv e h → a ∈ agents e → h !! a = Some x →
  visit fuel rp a ((e, h), r) = (res, w') →
  draws w'.2 = draws r ∧
  match res with
  | Ret _ =>
      ∃ e' h' l v,
        w'.1 = (e', h') ∧ Inv e' h' ∧ evolves e h e' h' ∧
        h' !! a = Some (stepped x l v) ∧
        (a ∈ agents e' ↔ dead (stepped x l v) = false) ∧
        (∀ b, b ≠ a → is_Some (h !! b) →
              h' !! b = h !! b ∧ (b ∈ agents e' ↔ b ∈ agents e)) ∧
        (rp = true → length (agents e') = length (agents e))
  | Raise _ => ¬ Strong e h
  | Diverge => True
  end.
Proof.
  intros HI Ha Hx. rewrite visit_factor.
  destruct (visit_prefix rp a ((e, h), r)) as [res1 [[e1 h1] r1]] eqn:E1.
  apply (visit_prefix_outcome rp a x) in E1 as [Hd Hres1]; [|done..].
  cbn [fst snd] in *.
  destruct res1 as [b|ex|]; [| |done].
  2:{ intros [= <- <-]. done. }
  destruct Hres1 as (e' & l & v & [= -> ->] & HI' & Hn & Hp & Hc & Hseq & Hz
                     & Hb & Hags & HS' & HG').
  set (x' := stepped x l v) in *.
  assert (evolves e h e' (<[a := x']> h)) as Hev.
  { split; try done; [intros HS; by apply HS'|intros HG; by apply HG']. }
  pose proof (list_remove_spec a (agents e)) as Hrem.
  destruct (dead x') eqn:Hdead.
  - destruct Hags as [Erem Hfree]. rewrite Erem in Hrem.
    destruct Hrem as (_ & Hlen & Hmem & Hnd).
    destruct (Hnd (inv_nodup _ _ _ HI)) as [_ Hnotin].
    destruct rp; cbn in Hb; subst b.
    + unfold bind.
      destruct (add_agent fuel ((e', <[a := x']> h), r1))
        as [res2 [[e2 h2] r2]] eqn:E2.
      apply add_agent_outcome in E2 as [Hd2 Hres2]. cbn [fst snd] in *.
      destruct res2 as [a2|ex|].
      * destruct Hres2 as (y & [= -> ->] & Hnew & Hyfree & Hyv & Hyvis & HC).
        assert (a2 ≠ a) as Hne.
        { intros ->. by rewrite lookup_insert_eq in Hnew. }
        rewrite lookup_insert_ne in Hnew by done.
        intros [= <- <-]. cbn [fst snd]. split; [congruence|].
        eexists _, _, l, v. split; [reflexivity|]. split_and!.
        -- apply bijection_add; [done| |done].
           by rewrite lookup_insert_ne.
        -- eapply evolves_trans; [exact Hev|].
           split; try done; cbn; [apply zeroed_refl| |].
           ++ intros HS. split; cbn; try apply HS.
              ** intros c [Hc'| ->%list_elem_of_singleton]%elem_of_app.
                 --- destruct (st_agents _ _ HS c Hc') as (z & Hz' & ?).
                     exists z. split; [|done].
                     rewrite lookup_insert_ne; [done|]. intros ->.
                     rewrite lookup_insert_ne in Hz' by done. congruence.
                 --- exists y. rewrite lookup_insert_eq. by split_and!.
              ** intros _. done.
           ++ intros HG. split; cbn; try apply HG.
              intros c [Hc'| ->%list_elem_of_singleton]%elem_of_app.
              ** destruct (gr_agents _ _ HG c Hc') as (z & Hz' & ?).
                 exists z. split; [|done].
                 rewrite lookup_insert_ne; [done|]. intros ->.
                 rewrite lookup_insert_ne in Hz' by done. congruence.
              ** exists y. rewrite lookup_insert_eq.
                 destruct Hyv. split; [done|lia].
        -- rewrite lookup_insert_ne by done. by rewrite lookup_insert_eq.
        -- cbn. rewrite elem_of_app, list_elem_of_singleton. fold x'.
           split; [|congruence]. intros [?|?]; done.
        -- intros c Hca Hc'. cbn.
           assert (c ≠ a2) by (intros ->; destruct Hc'; congruence).
           rewrite !lookup_insert_ne by done. split; [done|].
           rewrite elem_of_app, list_elem_of_singleton, Hmem. tauto.
        -- intros _. cbn. rewrite length_app. simpl. lia.
      * destruct Hres2 as [HC _]. intros [= <- <-]. cbn [fst snd].
        split; [congruence|]. intros HS. apply HC.
        destruct (HS' HS) as (_ & _ & HC').
        by apply (Cfg_ext e e').
      * intros [= <- <-]. cbn [fst snd]. split; [congruence|done].
    + intros [= <- <-]. cbn [fst snd]. split; [done|].
      eexists _, _, l, v. split; [reflexivity|]. split_and!.
      * done.
      * done.
      * by rewrite lookup_insert_eq.
      * fold x'. split; [done|congruence].
      * intros c Hca Hc'. rewrite lookup_insert_ne by done. split; [done|].
        rewrite Hmem. tauto.
      * done.
  - cbn in Hb. subst b.
    intros [= <- <-]. cbn [fst snd]. split; [done|].
    eexists _, _, l, v. split; [reflexivity|]. split_and!.
    + done.
    + done.
    + by rewrite lookup_insert_eq.
    + fold x'. rewrite Hags. tauto.
    + intros c Hca Hc'. rewrite lookup_insert_ne by done. by rewrite Hags.
    + intros _. by rewrite Hags.
Qed.

(** The loop over the permuted population. *)
Lemma agents_loop_outcome fuel rp rest : ∀ e h r res w',
  Inv e h → NoDup rest → (∀ b, b ∈ rest → b ∈ agents e) →
  agents_loop fuel rp rest ((e, h), r) = (res, w') →
  draws w'.2 = draws r ∧
  match res with
  | Ret _ =>
      ∃ e' h',
        w'.1 = (e', h') ∧ Inv e' h' ∧ evolves e h e' h' ∧
        (∀ b, b ∈ rest →
              ∃ x l v, h !! b = Some x ∧ h' !! b = Some (stepped x l v) ∧
                       (b ∈ agents e' ↔ dead (stepped x l v) = false)) ∧
        (∀ b, b ∉ rest → is_Some (h !! b) →
              h' !! b = h !! b ∧ (b ∈ agents e' ↔ b ∈ agents e)) ∧
        (rp = true → length (agents e') = length (agents e))
  | Raise _ => ¬ Strong e h
  | Diverge => True
  end.
Proof.
  induction rest as [|a rest IH]; intros e h r res w' HI Hnd Hsub.
  - intros [= <- <-]. cbn [fst snd]. split; [done|].
    exists e, h. split_and!; try done.
    + apply evolves_refl.
    + intros b Hb. by apply not_elem_of_nil in Hb.
  - apply NoDup_cons in Hnd as [Ha Hnd].
    assert (a ∈ agents e) as Hin by (apply Hsub; left).
    destruct (inv_alloc _ _ _ HI a Hin) as [x Hx].
    cbn [agents_loop]. unfold bind at 1.
    destruct (visit fuel rp a ((e, h), r)) as [res1 [[e1 h1] r1]] eqn:E1.
    apply (visit_outcome fuel rp a x) in E1 as [Hd1 Hres1]; [|done..].
    cbn [fst snd] in *.
    destruct res1 as [[]|ex|].
    + destruct Hres1 as (e1' & h1' & l & v & [= -> ->] & HI1 & Hev1 & Hy
                         & Hay & Hframe1 & Hlen1).
      intros E2.
      apply IH in E2 as [Hd2 Hres2]; [|done..|].
      2:{ intros b Hb. assert (b ≠ a) by (by intros ->).
          apply Hframe1; [done| |by apply Hsub; right].
          apply (inv_alloc _ _ _ HI). apply Hsub. by right. }
      split; [congruence|].
      destruct res as [[]|ex|]; [| |done].
      * destruct Hres2 as (e2 & h2 & -> & HI2 & Hev2 & Hdone2 & Hframe2
                           & Hlen2).
        exists e2, h2. split_and!; try done.
        -- by eapply evolves_trans.
        -- intros b [->|Hb]%elem_of_cons.
           ++ destruct (Hframe2 a Ha) as [Hh Hm]; [by rewrite Hy|].
              exists x, l, v. split_and!; [done|congruence|by rewrite Hm].
           ++ destruct (Hdone2 b Hb) as (x2 & l2 & v2 & Hx2 & Hy2 & Hm2).
              exists x2, l2, v2. split_and!; [|done..].
              rewrite <- Hx2. symmetry. apply Hframe1; [by intros ->|].
              apply (inv_alloc _ _ _ HI). apply Hsub. by right.
        -- intros b Hb Hsome.
           apply not_elem_of_cons in Hb as [Hne Hb].
           destruct (Hframe1 b Hne Hsome) as [Hh1 Hm1].
           destruct (Hframe2 b Hb) as [Hh2 Hm2]; [by rewrite Hh1|].
           split; [congruence|]. by rewrite Hm2.
        -- intros Hrp. rewrite Hlen2, Hlen1 by done. done.
      * intros HS. apply Hres2. by apply (ev_strong _ _ _ _ Hev1).
    + intros [= <- <-]. done.
    + intros [= <- <-]. done.
Qed.

Lemma grow_eq e h r :
  grow ((e, h), r)
  = if decide (int64 (default 1 (grow_rate (params e)))) then
      (Ret tt,
       ((set_array e
           (arr_zip Z.min
              (arr_map (λ v, wrap64 (v + default 1 (grow_rate (params e))))
                       (array e))
              (capacity e)), h), r))
    else (Raise OverflowError, ((e, h), r)).
Proof.
  unfold grow. unfold bind at 1. rewrite get_env_eq.
  destruct (decide (int64 (default 1 (grow_rate (params e))))); [|done].
  by rewrite put_env_eq.
Qed.

(** Within the range of int64 nothing wraps. *)
Lemma wrap64_id z : int64 z → wrap64 z = z.
Proof.
  unfold int64, wrap64. intros H.
  rewrite Z.mod_small; lia.
Qed.

Lemma wrap64_int64 z : int64 (wrap64 z).
Proof.
  unfold int64, wrap64.
  pose proof (Z.mod_pos_bound (z + 2 ^ 63) (2 ^ 64)). lia.
Qed.

Lemma wf_grown {A} (f : Z → A) (k : A → Z → Z) a c :
  wf a → wf c → dim a = dim c →
  wf (arr_zip k (arr_map f a) c).
Proof.
  intros [H0 Hl] [H0' Hl'] Hd. split; [done|]. simpl.
  rewrite length_zip_with, length_fmap, Hl, Hl', Hd. lia.
Qed.

(** One call of [step]. *)
Lemma step_outcome fuel e h r res w' :
  Inv e h →
  step fuel ((e, h), r) = (res, w') →
  draws w'.2 = draws r ∧
  match res with
  | Ret v =>
      ∃ e' h' a1,
        w'.1 = (e', h') ∧ Inv e' h' ∧
        n e' = n e ∧ params e' = params e ∧ capacity e' = capacity e ∧
        v = Z.of_nat (length (agents e')) ∧
        agent_count_seq e' = agent_count_seq e ++ [v] ∧
        zeroed (array e) a1 ∧
        int64 (default 1 (grow_rate (params e))) ∧
        array e'
        = arr_zip Z.min
            (arr_map (λ v, wrap64 (v + default 1 (grow_rate (params e)))) a1)
            (capacity e) ∧
        (∀ b, b ∈ agents e →
              ∃ x l v, h !! b = Some x ∧ h' !! b = Some (stepped x l v) ∧
                       (b ∈ agents e' ↔ dead (stepped x l v) = false)) ∧
        (default false (replace (params e)) = true →
         length (agents e') = length (agents e)) ∧
        (Strong e h → Strong e' h') ∧
        (Grounded e h → Grounded e' h')
  | Raise _ => ¬ Strong e h ∨ ¬ int64 (default 1 (grow_rate (params e)))
  | Diverge => True
  end.
Proof.
  intros HI. unfold step. unfold bind at 1. rewrite get_env_eq.
  unfold bind at 1. unfold rand. cbn [fst snd].
  pose proof (permutation_Permutation (agents e) r) as HP.
  pose proof (shuffle_draws (agents e) r) as Hd0.
  unfold permutation in *.
  destruct (shuffle (agents e) r) as [order r0]. cbn [fst snd] in *.
  unfold bind at 1.
  destruct (agents_loop fuel (default false (replace (params e))) order
              ((e, h), r0)) as [res1 [[e1 h1] r1]] eqn:E1.
  apply agents_loop_outcome in E1 as [Hd1 Hres1];
    [|done|rewrite HP; apply HI|intros b; by rewrite HP].
  cbn [fst snd] in *.
  destruct res1 as [[]|ex|].
  - destruct Hres1 as (e1' & h1' & [= -> ->] & HI1 & Hev & Hdone & _ & Hlen).
    unfold bind at 1. rewrite get_env_eq.
    unfold bind at 1. rewrite put_env_eq.
    unfold bind at 1. rewrite grow_eq.
    cbn [n params capacity agent_count_seq array agents occupied
         set_array set_agent_count_seq].
    destruct Hev as [Hn Hp Hc Hseq Hz HS HG]. rewrite Hp.
    destruct (decide (int64 (default 1 (grow_rate (params e)))))
      as [Hg|Hg].
    2:{ intros [= <- <-]. cbn [fst snd]. split; [congruence|]. by right. }
    unfold bind at 1. rewrite get_env_eq.
    intros [= <- <-]. cbn [fst snd]. split; [congruence|].
    eexists _, _, (array e1'). split; [reflexivity|].
    cbn [n params capacity agent_count_seq array agents occupied
         set_array set_agent_count_seq].
    split_and!; try done.
    + by rewrite Hseq.
    + by rewrite Hc.
    + intros b Hb. apply Hdone. by rewrite HP.
    + intros HS0. destruct (HS HS0) as [Hwf Hdim Hcwf Hcdim Hags Hcfg].
      split; cbn; try done.
      apply wf_grown; [done..|congruence].
    + intros HG0. destruct (HG HG0) as [Hwf Hdim Hcwf Hcdim Hags].
      split; cbn; try done.
      apply wf_grown; [done..|congruence].
  - intros [= <- <-]. cbn [fst snd]. split; [congruence|by left].
  - intros [= <- <-]. cbn [fst snd]. split; [congruence|done].
Qed.

End OpFacts.

(** ** Sugarscape: construction *)

Module InitFacts.
Import Sugarscape SugarscapeSpec SugarscapeChoice SugarscapeInv VisionFacts.
Import SugarscapeVisit OpFacts.

(** The agents made by the comprehension of [make_agents]: agent [k] stands
    at [locs[idx[k]]], and all are new objects. *)
Lemma create_outcome (locs : list loc) (ps : Params) e (idx : list Z) :
  ∀ h r res w',
  (∀ i, i ∈ idx → 0 <= i < Z.of_nat (length locs)) →
  list_comp (λ i, bind (or_raise IndexError (list_getitem locs i))
                       (λ l, Agent_init l ps)) idx ((e, h), r)
  = (res, w') →
  match res with
  | Ret ags =>
      ∃ h', w'.1 = (e, h') ∧
        Forall2 (λ i a, ∃ x, h' !! a = Some x ∧ h !! a = None ∧
                             locs !! Z.to_nat i = Some (loc_ x) ∧
                             1 <= vision x) idx ags ∧
        NoDup ags ∧
        (∀ b, is_Some (h !! b) → h' !! b = h !! b) ∧
        (idx ≠ [] → traits_ok ps)
  | _ => True
  end.
Proof.
  induction idx as [|i idx IH]; intros h r res w' Hvalid.
  - intros [= <- <-]. exists h. split_and!; try done; constructor.
  - cbn [list_comp]. unfold bind at 1. unfold bind at 1.
    assert (0 <= i < Z.of_nat (length locs)) as Hi by (apply Hvalid; left).
    rewrite list_getitem_valid by done.
    destruct (lookup_lt_is_Some_2 locs (Z.to_nat i)) as [l Hl]; [lia|].
    rewrite Hl. cbn [or_raise ret].
    destruct (Agent_init l ps ((e, h), r)) as [res1 [[e1 h1] r1]] eqn:E1.
    apply Agent_init_outcome in E1 as [_ Hres1]. cbn [fst snd] in *.
    destruct res1 as [a|ex|]; [| |done].
    2:{ by intros [= <- <-]. }
    destruct Hres1 as (x & [= -> ->] & Hnew & Hloc & Hvis & Hmv).
    unfold bind at 1.
    destruct (list_comp _ idx _) as [res2 [[e2 h2] r2]] eqn:E2.
    apply IH in E2; [|intros j Hj; apply Hvalid; by right].
    destruct res2 as [ags|ex|]; [| |by intros [= <- <-]].
    2:{ by intros [= <- <-]. }
    destruct E2 as (h' & [= -> ->] & HF & Hnd & Hframe & _).
    intros [= <- <-]. exists h'. split; [done|].
    assert (h' !! a = Some x) as Ha.
    { rewrite Hframe; by rewrite lookup_insert_eq. }
    assert (a ∉ ags) as Hnotin.
    { intros [k Hk]%list_elem_of_lookup.
      destruct (Forall2_lookup_r _ _ _ _ _ HF Hk) as (j & _ & y & _ & Hy & _).
      by rewrite lookup_insert_eq in Hy. }
    split_and!.
    + constructor.
      * exists x. subst l. done.
      * eapply Forall2_impl; [exact HF|].
        intros j b (y & Hy & Hnone & Hlj & Hvj).
        exists y. split_and!; try done.
        rewrite lookup_insert_None in Hnone. tauto.
    + by apply NoDup_cons.
    + intros b Hb. assert (b ≠ a) by (intros ->; destruct Hb; congruence).
      rewrite Hframe; rewrite lookup_insert_ne; done.
    + done.
Qed.

Lemma read_locs_outcome e h r (ags : list ref) (ls : list loc) :
  Forall2 (λ a l, agent_loc h a = Some l) ags ls →
  list_comp (λ a, bind (get_agent a) (λ x, ret (loc_ x))) ags ((e, h), r)
  = (Ret ls, ((e, h), r)).
Proof.
  induction 1 as [|a l ags ls Ha _ IH]; [done|].
  cbn [list_comp]. unfold bind at 1. unfold bind at 1.
  rewrite get_agent_eq. unfold agent_loc in Ha.
  destruct (h !! a) as [x|]; [|done]. injection Ha as <-.
  cbn [ret]. unfold bind at 1. rewrite IH. done.
Qed.

Lemma wf_make_capacity n0 : 0 <= n0 → wf (make_capacity n0).
Proof.
  intros Hn. split; [done|]. unfold make_capacity. simpl.
  rewrite length_fmap, length_zip_with, !length_fmap, length_indices by done.
  lia.
Qed.

Lemma created_locs (locs : list loc) (h h' : gmap ref Agent) idx ags :
  Forall2 (λ (i : Z) a, ∃ x, h' !! a = Some x ∧ h !! a = None ∧
                       locs !! Z.to_nat i = Some (loc_ x) ∧
                       1 <= vision x) idx ags →
  ∃ ls, Forall2 (λ a l, agent_loc h' a = Some l) ags ls ∧
        Forall2 (λ (i : Z) l, locs !! Z.to_nat i = Some l) idx ls.
Proof.
  induction 1 as [|i a idx ags (x & Hx & _ & Hl & _) _ (ls & H1 & H2)].
  - exists []. split; constructor.
  - exists (loc_ x :: ls). split; constructor; try done.
    unfold agent_loc. by rewrite Hx.
Qed.

Lemma bijection_created (locs : list loc) (h' : gmap ref Agent) idx ags ls :
  NoDup locs → NoDup idx → (∀ i, i ∈ idx → 0 <= i) → NoDup ags →
  Forall2 (λ a l, agent_loc h' a = Some l) ags ls →
  Forall2 (λ (i : Z) l, locs !! Z.to_nat i = Some l) idx ls →
  bijection ags (list_to_set ls) h'.
Proof.
  intros Hlocs Hidx Hpos Hags H1 H2. split.
  - done.
  - intros a [k Hk]%list_elem_of_lookup.
    destruct (Forall2_lookup_l _ _ _ _ _ H1 Hk) as (l & _ & Hl).
    unfold agent_loc in Hl. destruct (h' !! a); [done|by simpl in Hl].
  - intros a b l [k1 Hk1]%list_elem_of_lookup [k2 Hk2]%list_elem_of_lookup
      Ha Hb.
    destruct (Forall2_lookup_l _ _ _ _ _ H1 Hk1) as (l1 & Hl1 & Hal1).
    destruct (Forall2_lookup_l _ _ _ _ _ H1 Hk2) as (l2 & Hl2 & Hal2).
    assert (l1 = l) as -> by congruence.
    assert (l2 = l) as -> by congruence.
    destruct (Forall2_lookup_r _ _ _ _ _ H2 Hl1) as (i1 & Hi1 & Hloc1).
    destruct (Forall2_lookup_r _ _ _ _ _ H2 Hl2) as (i2 & Hi2 & Hloc2).
    assert (Z.to_nat i1 = Z.to_nat i2) as Heq
      by (by eapply (NoDup_lookup locs)).
    assert (i1 = i2) as ->.
    { apply list_elem_of_lookup_2, Hpos in Hi1.
      apply list_elem_of_lookup_2, Hpos in Hi2. lia. }
    assert (k1 = k2) as -> by (by eapply (NoDup_lookup idx)).
    congruence.
  - intros l. rewrite elem_of_list_to_set. split.
    + intros [k Hk]%list_elem_of_lookup.
      destruct (Forall2_lookup_r _ _ _ _ _ H1 Hk) as (a & Ha & Hl).
      exists a. split; [by eapply list_elem_of_lookup_2|done].
    + intros (a & [k Hk]%list_elem_of_lookup & Hl).
      destruct (Forall2_lookup_l _ _ _ _ _ H1 Hk) as (l' & Hl' & Hal).
      assert (l' = l) as -> by congruence.
      by eapply list_elem_of_lookup_2.
Qed.

(** The constructor. *)
Lemma init_outcome n0 ps r e h r' :
  init n0 ps r = (Ret tt, ((e, h), r')) →
  Inv e h ∧ n e = n0 ∧ params e = ps ∧
  capacity e = make_capacity n0 ∧ array e = make_capacity n0 ∧
  agent_count_seq e = [] ∧ 0 <= n0 ∧
  length (agents e) = Z.to_nat (default 400 (num_agents ps)) ∧
  (box_fits n0 ps → Strong e h) ∧
  Grounded e h.
Proof.
  unfold init. destruct (decide (n0 < 0)) as [|Hn0]; [done|].
  unfold make_agents. unfold bind at 1. rewrite get_env_eq.
  cbn [array params].
  set (box := default _ (starting_box ps)).
  assert (box = default (n0, n0) (starting_box ps)) as Hboxeq by done.
  unfold bind at 1. unfold rand. cbn [fst snd].
  pose proof (shuffle_Permutation (make_locs box.1 box.2) r) as HP.
  destruct (shuffle (make_locs box.1 box.2) r) as [locs r0].
  cbn [fst snd] in *.
  unfold bind at 1. unfold assert.
  case_bool_decide as Hnum; [|done]. cbn [ret].
  unfold bind at 1.
  match goal with |- context [list_comp ?F ?l ?w] =>
    destruct (list_comp F l w) as [res1 [[e1 h1] r1]] eqn:E1 end.
  apply create_outcome in E1.
  2:{ intros i Hi. apply elem_of_seqZ in Hi. lia. }
  destruct res1 as [ags|ex|]; [|done..].
  destruct E1 as (h' & [= -> ->] & HF & Hnd & _ & Hmv).
  destruct (created_locs _ _ _ _ _ HF) as (ls & H1 & H2).
  unfold bind at 1. rewrite (read_locs_outcome _ _ _ ags ls H1).
  unfold bind at 1. rewrite get_env_eq. rewrite put_env_eq.
  intros [= <- <- <-].
  cbn [n params capacity array agent_count_seq agents occupied
       set_agents set_occupied].
  assert (NoDup locs) as Hlocs by (rewrite HP; apply NoDup_indices).
  split_and!; try done; [|lia| | |].
  - unfold Inv. cbn. eapply bijection_created; try done.
    + apply NoDup_seqZ.
    + intros i Hi. apply elem_of_seqZ in Hi. lia.
  - apply Forall2_length in HF. by rewrite length_seqZ in HF.
  - intros Hbox.
    assert (box.1 <= n0 ∧ box.2 <= n0) as [Hb1 Hb2].
    { rewrite Hboxeq. unfold box_fits in Hbox.
      destruct (starting_box ps); simpl; [done|]. lia. }
    assert (∀ a, a ∈ ags →
              ∃ x, h' !! a = Some x ∧ valid n0 (loc_ x) ∧ 1 <= vision x)
      as Hagents.
    { intros a [k Hk]%list_elem_of_lookup.
      destruct (Forall2_lookup_r _ _ _ _ _ HF Hk)
        as (i & _ & x & Hx & _ & Hl & Hv).
      exists x. split_and!; [done| |done].
      apply list_elem_of_lookup_2 in Hl. rewrite HP in Hl.
      apply elem_of_indices in Hl. split; lia. }
    split; cbn [n params capacity array agents set_agents set_occupied].
    + apply wf_make_capacity. lia.
    + done.
    + apply wf_make_capacity. lia.
    + done.
    + done.
    + intros Hne. destruct ags as [|a ags']; [done|].
      destruct (Hagents a) as (x & _ & [Hv _] & _); [left|].
      split; cbn; [lia|]. apply Hmv. intros E.
      apply Forall2_length in HF. rewrite E in HF. done.
  - split; cbn [n params capacity array agents set_agents set_occupied];
      [apply wf_make_capacity; lia|done|apply wf_make_capacity; lia|done|].
    intros a [k Hk]%list_elem_of_lookup.
    destruct (Forall2_lookup_r _ _ _ _ _ HF Hk)
      as (i & _ & x & Hx & _ & Hl & Hv).
    exists x. split; [done|].
    apply list_elem_of_lookup_2 in Hl. rewrite HP in Hl.
    apply elem_of_indices in Hl. lia.
Qed.

End InitFacts.

(** ** Sugarscape: the reachable states *)

Module ReachFacts.
Import Sugarscape SugarscapeSpec SugarscapeChoice SugarscapeInv VisionFacts.
Import SugarscapeVisit OpFacts InitFacts.

Lemma make_capacity_range n0 c : c ∈ data (make_capacity n0) → 0 <= c <= 4.
Proof.
  unfold make_capacity. simpl. intros (d & -> & _)%list_elem_of_fmap.
  unfold digitize_sq.
  pose proof (length_filter (λ b, d < b * b) [21; 16; 11; 6]) as H.
  simpl in H. lia.
Qed.

Lemma bounded_initial (P : Z → Prop) e n0 :
  (∀ v, 0 <= v → P v) →
  array e = make_capacity n0 → capacity e = make_capacity n0 →
  bounded_from P e.
Proof.
  intros HP Ha Hc. unfold bounded_from. rewrite Ha, Hc. split; [done|].
  apply Forall_Forall2_diag, Forall_forall. intros c Hc'.
  apply make_capacity_range in Hc'. split_and!; [apply HP; lia|lia..].
Qed.

Lemma bounded_zeroed (P : Z → Prop) e a' :
  P 0 → bounded_from P e → zeroed (array e) a' →
  bounded_from P (set_array e a').
Proof.
  intros HP [Hd HF] [Hd' HZ]. split; cbn; [congruence|].
  revert HZ. generalize (data a').
  induction HF as [|v c l k (Hv & Hvc & Hc) _ IH]; intros l' HZ; inv HZ;
    constructor.
  - match goal with H : _ ∨ _ |- _ => destruct H as [->| ->] end;
      split_and!; first [done|lia].
  - by apply IH.
Qed.

Lemma bounded_grown (P : Z → Prop) e a1 g :
  P 0 →
  (∀ v c, P v → v <= c → 0 <= c <= 4 → P (Z.min (wrap64 (v + g)) c)) →
  bounded_from P e → zeroed (array e) a1 →
  bounded_from P
    (set_array e
       (arr_zip Z.min (arr_map (λ v, wrap64 (v + g)) a1) (capacity e))).
Proof.
  intros HP0 HP Hb Hz.
  apply (bounded_zeroed P e a1) in Hb as [Hd HF]; [|done..].
  cbn in *. split; cbn; [done|].
  induction HF as [|v c l k (Hv & Hvc & Hc) _ IH]; cbn; constructor; [|done].
  split_and!; [by apply HP|lia..].
Qed.

(** A rate that is not negative and leaves room for the greatest capacity
    below the greatest int64 keeps the levels from wrapping around. *)
Lemma grown_nonneg g v c :
  0 <= g → g + 4 < 2 ^ 63 → 0 <= v → v <= c → 0 <= c <= 4 →
  0 <= Z.min (wrap64 (v + g)) c.
Proof.
  intros. rewrite wrap64_id by (unfold int64; lia). lia.
Qed.

Lemma bounded_getitem (P : Z → Prop) e l v :
  bounded_from P e → getitem (array e) l = Some v →
  ∃ c, getitem (capacity e) l = Some c ∧ P v ∧ v <= c.
Proof.
  intros [Hd HF]. unfold getitem, flat_index. rewrite Hd.
  destruct (py_index (dim (capacity e)) l.1) as [i|]; [|done].
  destruct (py_index (dim (capacity e)) l.2) as [j|]; [|done]. cbn.
  intros Hv. destruct (Forall2_lookup_l _ _ _ _ _ HF Hv) as (c & Hc & ?).
  exists c. tauto.
Qed.

(** What holds in every reachable state. *)
Lemma reachable_facts n0 ps w :
  reachable n0 ps w →
  Inv (env w) (heap w) ∧
  n (env w) = n0 ∧ params (env w) = ps ∧
  capacity (env w) = make_capacity n0 ∧ 0 <= n0 ∧
  (box_fits n0 ps → Strong (env w) (heap w)) ∧
  Grounded (env w) (heap w) ∧
  bounded_from (λ _, True) (env w) ∧
  (0 <= default 1 (grow_rate ps) → default 1 (grow_rate ps) + 4 < 2 ^ 63 →
   bounded_from (Z.le 0) (env w)).
Proof.
  induction 1 as [r [[e h] r'] Hinit
                 |fuel [[e h] r] v [[e' h'] r'] _ IH Hstep
                 |fuel [[e h] r] a [[e' h'] r'] _ IH Hadd
                 |l [[e h] r] v [[e' h'] r'] _ IH Hharv
                 |[[e h] r] [[e' h'] r'] _ IH Hgrow];
    unfold env, heap in *; cbn [fst snd] in *.
  - apply init_outcome in Hinit
      as (HI & Hn & Hp & Hc & Ha & _ & Hn0 & _ & HS & HG).
    split_and!; try done.
    + by eapply bounded_initial.
    + intros _ _. by eapply bounded_initial.
  - destruct IH as (HI & Hn & Hp & Hc & Hn0 & HS & HG & Hu & Hb).
    apply step_outcome in Hstep as [_ Hres]; [|done]. cbn [fst snd] in Hres.
    destruct Hres as (e2 & h2 & a1 & [= -> ->] & HI2 & Hn2 & Hp2 & Hc2 & _
                      & _ & Hz & _ & Harr & _ & _ & HS2 & HG2).
    assert (∀ P : Z → Prop, P 0 →
              (∀ v c, P v → v <= c → 0 <= c <= 4 →
                      P (Z.min (wrap64 (v + default 1 (grow_rate ps))) c)) →
              bounded_from P e → bounded_from P e2) as Hstepb.
    { intros P HP0 HP HB.
      pose proof (bounded_grown P e a1 (default 1 (grow_rate ps))
                    HP0 HP HB Hz) as HB'.
      unfold bounded_from in *. rewrite Harr, Hc2, Hp. exact HB'. }
    split_and!; try congruence; [tauto|tauto|by apply Hstepb|].
    intros Hg Hg'. apply Hstepb; [done| |by apply Hb].
    intros. by apply grown_nonneg.
  - destruct IH as (HI & Hn & Hp & Hc & Hn0 & HS & HG & Hu & Hb).
    apply add_agent_outcome in Hadd as [_ Hres]. cbn [fst snd] in Hres.
    destruct Hres as (x & [= -> ->] & Hnew & Hfree & Hv & Hvis & HC).
    cbn [n params capacity array agents occupied set_agents set_occupied].
    split_and!; try done.
    + by apply bijection_add.
    + intros Hbox. specialize (HS Hbox). split; cbn; try apply HS.
      * intros b [Hb'| ->%list_elem_of_singleton]%elem_of_app.
        -- destruct (st_agents _ _ HS b Hb') as (z & Hz & ?).
           exists z. split; [|done]. rewrite lookup_insert_ne; [done|].
           intros ->. congruence.
        -- exists x. rewrite lookup_insert_eq. by split_and!.
      * intros _. done.
    + split; cbn; try apply HG.
      intros b [Hb'| ->%list_elem_of_singleton]%elem_of_app.
      * destruct (gr_agents _ _ HG b Hb') as (z & Hz & ?).
        exists z. split; [|done]. rewrite lookup_insert_ne; [done|].
        intros ->. congruence.
      * exists x. rewrite lookup_insert_eq. destruct Hv. split; [done|lia].
  - destruct IH as (HI & Hn & Hp & Hc & Hn0 & HS & HG & Hu & Hb).
    rewrite harvest_eq in Hharv.
    destruct (getitem (array e) l) as [v'|]; [|done].
    destruct (setitem (array e) l 0) as [a'|] eqn:Hs; [|done].
    injection Hharv as <- <- <- <-.
    apply setitem_zeroed in Hs.
    cbn [n params capacity array agents occupied set_array].
    split_and!; try done.
    + intros Hbox. specialize (HS Hbox). split; cbn; try apply HS.
      * eapply zeroed_wf; [done|apply HS].
      * destruct Hs as [-> _]. apply HS.
    + split; cbn; try apply HG.
      * eapply zeroed_wf; [done|apply HG].
      * destruct Hs as [-> _]. apply HG.
    + by apply bounded_zeroed.
    + intros Hg Hg'. by apply bounded_zeroed; [|apply Hb|].
  - destruct IH as (HI & Hn & Hp & Hc & Hn0 & HS & HG & Hu & Hb).
    rewrite grow_eq in Hgrow.
    destruct (decide (int64 (default 1 (grow_rate (params e))))); [|done].
    injection Hgrow as <- <- <-.
    cbn [n params capacity array agents occupied set_array].
    split_and!; try done.
    + intros Hbox. specialize (HS Hbox).
      destruct HS as [Hwf Hdim Hcwf Hcdim Hags Hcfg]. split; cbn; try done.
      apply wf_grown; [done..|congruence].
    + destruct HG as [Hwf Hdim Hcwf Hcdim Hags]. split; cbn; try done.
      apply wf_grown; [done..|congruence].
    + apply bounded_grown; [done..|apply zeroed_refl].
    + intros Hg Hg'. rewrite <- Hp in Hg, Hg'.
      apply bounded_grown;
        [done|intros; by apply grown_nonneg|by apply Hb; rewrite <- Hp|].
      apply zeroed_refl.
Qed.

(** The index counts the agents. *)
Lemma bijection_size h : ∀ ags occ,
  bijection ags occ h → size occ = length ags.
Proof.
  induction ags as [|a ags IH]; intros occ [Hnd Hal Hinj Hocc].
  - apply size_empty_iff, elem_of_equiv_empty. intros l Hl.
    apply Hocc in Hl as (a & Ha & _).
    by apply not_elem_of_nil in Ha.
  - apply NoDup_cons in Hnd as [Ha Hnd].
    destruct (Hal a) as [x Hx]; [left|].
    assert (agent_loc h a = Some (loc_ x)) as Hla
      by (unfold agent_loc; by rewrite Hx).
    assert (occ ≡ {[loc_ x]} ∪ occ ∖ {[loc_ x]}) as Heq.
    { intros l. rewrite elem_of_union, elem_of_difference, elem_of_singleton.
      destruct (decide (l = loc_ x)) as [->|]; [|tauto].
      split; [tauto|]. intros _. apply Hocc. exists a. split; [left|done]. }
    rewrite Heq, size_union, size_singleton.
    2:{ apply disjoint_singleton_l.
        rewrite elem_of_difference, elem_of_singleton. tauto. }
    cbn [length]. f_equal. apply IH. split.
    + done.
    + intros b Hb. apply Hal. by right.
    + intros b c l Hb Hc. apply Hinj; by right.
    + intros l. rewrite elem_of_difference, elem_of_singleton, Hocc. split.
      * intros [(b & [->|Hb]%elem_of_cons & Hlb) Hne]; [congruence|eauto].
      * intros (b & Hb & Hlb). split; [exists b; split; [by right|done]|].
        intros ->. apply Ha.
        replace a with b; [done|]. apply (Hinj b a (loc_ x)); try done.
        -- by right.
        -- left.
Qed.

End ReachFacts.

Module SugarscapeClaims.
Import Sugarscape SugarscapeSpec SugarscapeChoice SugarscapeInv VisionFacts.
Import SugarscapeVisit OpFacts InitFacts ReachFacts Samples.

Lemma result_eta {A S} (m : result A * S) (a : A) :
  m.1 = Ret a → m = (Ret a, m.2).
Proof. destruct m as [res s]. simpl. by intros ->. Qed.

Lemma init_w0 : init 3 ps0 rs0 = (Ret tt, w0).
Proof.
  apply (result_eta (init 3 ps0 rs0) tt). vm_compute. reflexivity.
Qed.

Lemma reachable_w0 : reachable 3 ps0 w0.
Proof. apply (reach_init 3 ps0 rs0), init_w0. Qed.

Lemma step_w0 : step 5 w0 = (Ret 3, w1).
Proof. apply (result_eta (step 5 w0) 3). vm_compute. reflexivity. Qed.

Lemma reachable_w1 : reachable 3 ps0 w1.
Proof.
  apply (reach_step 3 ps0 5 w0 3 w1); [apply reachable_w0|]. apply step_w0.
Qed.

(** C1.  In every state reached from the constructor through calls of
    [step], [add_agent], [harvest] and [grow] that return, the occupancy
    index is in bijection with the population: it has as many elements as
    there are agents, it holds the location of every agent, every element
    is the location of an agent, and no two agents share a location. *)
Theorem occupancy_bijection (n0 : Z) (ps : Params) (w : world) :
  reachable n0 ps w →
  size (occupied (env w)) = length (agents (env w)) ∧
  (∀ a, a ∈ agents (env w) →
        ∃ x, heap w !! a = Some x ∧ loc_ x ∈ occupied (env w)) ∧
  (∀ l, l ∈ occupied (env w) →
        ∃ a x, a ∈ agents (env w) ∧ heap w !! a = Some x ∧ loc_ x = l) ∧
  (∀ a b x y, a ∈ agents (env w) → b ∈ agents (env w) →
              heap w !! a = Some x → heap w !! b = Some y →
              loc_ x = loc_ y → a = b).
Proof.
  intros Hreach. apply reachable_facts in Hreach as (HI & _).
  split_and!.
  - by eapply bijection_size.
  - intros a Ha. destruct (inv_alloc _ _ _ HI a Ha) as [x Hx].
    exists x. split; [done|]. by eapply Inv_loc_occupied.
  - intros l Hl. apply (inv_occ _ _ _ HI) in Hl as (a & Ha & Hla).
    unfold agent_loc in Hla. destruct (heap w !! a) as [x|] eqn:Hx; [|done].
    exists a, x. split_and!; [done..|]. by injection Hla.
  - intros a b x y Ha Hb Hx Hy Heq.
    apply (inv_inj _ _ _ HI a b (loc_ x)); try done.
    + unfold agent_loc. by rewrite Hx.
    + unfold agent_loc. rewrite Hy. simpl. congruence.
Qed.

Lemma occupancy_bijection_witness :
  length (agents (env w1)) = 3%nat ∧
  size (occupied (env w1)) = length (agents (env w1)).
Proof.
  split; [vm_compute; reflexivity|].
  apply (occupancy_bijection 3 ps0 w1). apply reachable_w1.
Defined.

Lemma dead_spec (y : Agent) :
  dead y = true ↔ (sugar y < 0)%Q ∨ (lifespan y < inject_Z (age y))%Q.
Proof.
  unfold dead, is_starving, is_old.
  destruct (Qlt_le_dec (sugar y) 0) as [Hs|Hs],
           (Qlt_le_dec (lifespan y) (inject_Z (age y))) as [Ho|Ho];
    cbn; split; try tauto; try done.
  intros [H|H]; exfalso; by eapply Qlt_not_le.
Qed.

(** C5.  A call of [step] that returns has visited every agent of the
    population it started with: the agent moved to a cell [l], harvested
    [v] there, paid its metabolism and aged by one.  If its balance is then
    negative or its age exceeds its lifespan, it is no longer in the
    population when the call returns, and otherwise it still is; the
    occupancy index is then exactly the set of locations of the agents that
    remain.  With [replace] the population has the size it had, which is
    also the value returned. *)
Theorem step_removes_dead (n0 : Z) (ps : Params) (fuel : nat)
    (w w' : world) (v : Z) :
  reachable n0 ps w → step fuel w = (Ret v, w') →
  (∀ a, a ∈ agents (env w) →
     ∃ x l s, heap w !! a = Some x ∧
       heap w' !! a = Some (stepped x l s) ∧
       (((sugar (stepped x l s) < 0)%Q ∨
         (lifespan (stepped x l s) < inject_Z (age (stepped x l s)))%Q) →
        a ∉ agents (env w')) ∧
       (¬ ((sugar (stepped x l s) < 0)%Q ∨
           (lifespan (stepped x l s) < inject_Z (age (stepped x l s)))%Q) →
        a ∈ agents (env w'))) ∧
  Inv (env w') (heap w') ∧
  v = Z.of_nat (length (agents (env w'))) ∧
  (replace ps = Some true →
   length (agents (env w')) = length (agents (env w))).
Proof.
  intros Hreach Hstep.
  apply reachable_facts in Hreach as (HI & _ & Hp & _).
  destruct w as [[e h] r], w' as [[e' h'] r']. unfold env, heap in *.
  cbn [fst snd] in *.
  apply step_outcome in Hstep as [_ Hres]; [|done]. cbn [fst snd] in Hres.
  destruct Hres as (e2 & h2 & a1 & [= -> ->] & HI2 & _ & _ & _ & Hv & _ & _
                    & _ & _ & Hdone & Hlen & _).
  split_and!; try done.
  - intros a Ha. destruct (Hdone a Ha) as (x & l & s & Hx & Hy & Hm).
    exists x, l, s. split_and!; try done.
    + intros Hd%dead_spec. rewrite Hm. congruence.
    + intros Hd. apply Hm. destruct (dead (stepped x l s)) eqn:E; [|done].
      by apply dead_spec in E.
  - intros Hrp. apply Hlen. rewrite Hp, Hrp. done.
Qed.

Lemma step_removes_dead_witness :
  Inv (env w1) (heap w1) ∧
  3 = Z.of_nat (length (agents (env w1))) ∧
  length (agents (env w1)) = length (agents (env w0)).
Proof.
  destruct (step_removes_dead 3 ps0 5 w0 w1 3 reachable_w0 step_w0)
    as (_ & HI & Hv & Hlen).
  split_and!; [done..|]. by apply Hlen.
Defined.

(** C6, as the code has it.  In every reachable state the level of a cell
    is at most the capacity of the cell, whatever the growth rate.  It is
    at least 0 when the configured growth rate is not negative and the
    greatest capacity, 4, added to it is still an int64, that is when the
    rate lies between 0 and [2 ^ 63 - 5] (the default is 1): the levels are
    int64 values, and the addition of the rate wraps around beyond them.
    The capacity is the one computed by the constructor. *)
Theorem resource_bounds (n0 : Z) (ps : Params) (w : world) :
  reachable n0 ps w →
  capacity (env w) = make_capacity n0 ∧
  ∀ l v, getitem (array (env w)) l = Some v →
    ∃ c, getitem (capacity (env w)) l = Some c ∧ v <= c ∧
         (0 <= default 1 (grow_rate ps) →
          default 1 (grow_rate ps) + 4 < 2 ^ 63 → 0 <= v).
Proof.
  intros Hreach.
  apply reachable_facts in Hreach as (_ & _ & _ & Hc & _ & _ & _ & Hu & Hb).
  split; [done|]. intros l v Hv.
  destruct (bounded_getitem _ _ l v Hu Hv) as (c & Hcl & _ & Hle).
  exists c. split_and!; [done..|]. intros Hg Hg'.
  destruct (bounded_getitem _ _ l v (Hb Hg Hg') Hv) as (c' & _ & H0 & _).
  done.
Qed.

Lemma resource_bounds_witness :
  getitem (array (env w1)) (1, 1) = Some 1 ∧
  ∃ c, getitem (capacity (env w1)) (1, 1) = Some c ∧ 1 <= c ∧
       (0 <= default 1 (grow_rate ps0) →
        default 1 (grow_rate ps0) + 4 < 2 ^ 63 → 0 <= 1).
Proof.
  assert (getitem (array (env w1)) (1, 1) = Some 1) as Hg
    by (vm_compute; reflexivity).
  split; [exact Hg|].
  apply (resource_bounds 3 ps0 w1 reachable_w1). exact Hg.
Defined.

(** With a negative growth rate a level falls below 0: after one call of
    [step] on the 1 by 1 grid built with [grow_rate=-1] the only cell holds
    -1. *)
Lemma resource_bounds_counterexample :
  ¬ (∀ n0 ps w, reachable n0 ps w →
       ∀ l v, getitem (array (env w)) l = Some v →
         ∃ c, getitem (capacity (env w)) l = Some c ∧ 0 <= v <= c).
Proof.
  intros H.
  assert (reachable 1 ps_shrink (step 0 (init 1 ps_shrink rs0).2).2) as Hr.
  { apply (reach_step 1 ps_shrink 0 (init 1 ps_shrink rs0).2 0).
    - apply (reach_init 1 ps_shrink rs0).
      apply (result_eta (init 1 ps_shrink rs0) tt). vm_compute. reflexivity.
    - apply (result_eta (step 0 (init 1 ps_shrink rs0).2) 0).
      vm_compute. reflexivity. }
  assert (getitem (array (env (step 0 (init 1 ps_shrink rs0).2).2)) (0, 0)
          = Some (-1)) as Hg by (vm_compute; reflexivity).
  destruct (H _ _ _ Hr (0, 0) (-1) Hg) as (c & _ & Hc & _). lia.
Qed.

(** Nor may the rate be as large as int64 allows: with
    [grow_rate = 2 ^ 63 - 1] the sum wraps around on the 2 by 2 grid, whose
    cell (1, 1) has capacity 1, and after one call of [step] the cell holds
    [- 2 ^ 63]. *)
Example growth_wraps_around :
  reachable 2 ps_wrap (step 0 (init 2 ps_wrap rs0).2).2 ∧
  getitem (array (env (step 0 (init 2 ps_wrap rs0).2).2)) (1, 1)
  = Some (- 2 ^ 63).
Proof.
  split; [|vm_compute; reflexivity].
  apply (reach_step 2 ps_wrap 0 (init 2 ps_wrap rs0).2 0).
  - apply (reach_init 2 ps_wrap rs0).
    apply (result_eta (init 2 ps_wrap rs0) tt). vm_compute. reflexivity.
  - apply (result_eta (step 0 (init 2 ps_wrap rs0).2) 0).
    vm_compute. reflexivity.
Qed.

End SugarscapeClaims.

(** ** Sugarscape: when [step] returns *)

Module Termination.
Import Sugarscape SugarscapeSpec SugarscapeChoice SugarscapeInv VisionFacts.
Import SugarscapeVisit OpFacts InitFacts ReachFacts.

Lemma randint_eq (high : Z) (r : RandomState) :
  0 < high →
  randint high r = (Ret (Z.of_nat (draws r (pos r)) mod high), (next_raw r).2).
Proof.
  intros H. unfold randint. by rewrite decide_True by done.
Qed.

(** One attempt of [random_loc]. *)
Lemma random_loc_S fuel e h r :
  0 < n e →
  random_loc (S fuel) ((e, h), r)
  = if decide (cell_at (n e) (draws r) (pos r) ∈ occupied e)
    then random_loc fuel
           ((e, h), {| draws := draws r; pos := S (S (pos r)) |})
    else (Ret (cell_at (n e) (draws r) (pos r)),
          ((e, h), {| draws := draws r; pos := S (S (pos r)) |})).
Proof.
  intros Hn. cbn [random_loc]. unfold bind at 1. rewrite get_env_eq.
  unfold bind at 1. unfold rand_result. cbn [fst snd].
  rewrite randint_eq by done. cbn [fst snd next_raw].
  unfold bind at 1. cbn [fst snd]. rewrite randint_eq by done.
  cbn [fst snd next_raw draws pos]. unfold cell_at.
  by destruct (decide _).
Qed.

(** If some attempt draws a free cell, [random_loc] returns as soon as its
    budget covers that attempt. *)
Lemma random_loc_total e h : ∀ j r,
  0 < n e →
  cell_at (n e) (draws r) (pos r + 2 * j) ∉ occupied e →
  ∃ f0 c r', ∀ f, (f0 <= f)%nat →
    random_loc f ((e, h), r) = (Ret c, ((e, h), r')).
Proof.
  induction j as [|j IH]; intros r Hn Hfree.
  - exists 1%nat. eexists _, _. intros [|f] Hf; [lia|].
    rewrite random_loc_S by done.
    rewrite Nat.mul_0_r, Nat.add_0_r in Hfree. by rewrite decide_False.
  - destruct (decide (cell_at (n e) (draws r) (pos r) ∈ occupied e))
      as [Hocc|Hfree0].
    + destruct (IH {| draws := draws r; pos := S (S (pos r)) |} Hn)
        as (f0 & c & r' & Hret).
      { cbn [draws pos].
        by replace (S (S (pos r)) + 2 * j)%nat with (pos r + 2 * S j)%nat
          by lia. }
      exists (S f0), c, r'. intros [|f] Hf; [lia|].
      rewrite random_loc_S, decide_True by done. apply Hret. lia.
    + exists 1%nat. eexists _, _. intros [|f] Hf; [lia|].
      rewrite random_loc_S by done. by rewrite decide_False.
Qed.

Lemma add_agent_total e h r :
  Cfg e → fair (n e) (draws r) →
  (∃ c, valid (n e) c ∧ c ∉ occupied e) →
  ∃ f0 a w', ∀ f, (f0 <= f)%nat → add_agent f ((e, h), r) = (Ret a, w').
Proof.
  intros [Hn Hmv] Hfair (c & Hc & Hfree).
  destruct (Hfair (pos r) c Hc) as [j Hj].
  destruct (random_loc_total e h j r Hn) as (f0 & c' & r' & Hret).
  { by rewrite Hj. }
  destruct (Agent_init c' (params e) ((e, h), r'))
    as [res [[e2 h2] r2]] eqn:E.
  pose proof (Agent_init_outcome _ _ _ _ _ _ _ E) as [_ Hres].
  cbn [fst snd] in Hres.
  destruct res as [a|ex|]; [|by destruct Hres|done].
  destruct Hres as (x & [= -> ->] & _).
  exists f0, a. eexists. intros f Hf.
  unfold add_agent. unfold bind at 1. rewrite get_env_eq.
  unfold bind at 1. rewrite (Hret f Hf).
  unfold bind at 1. rewrite E.
  unfold bind at 1. rewrite get_env_eq.
  unfold bind at 1. rewrite put_env_eq.
  unfold bind at 1. rewrite get_agent_eq, lookup_insert_eq.
  unfold bind at 1. rewrite get_env_eq.
  unfold bind at 1. rewrite put_env_eq. reflexivity.
Qed.

Lemma visit_total rp a x e h r :
  Inv e h → Strong e h → a ∈ agents e → h !! a = Some x →
  fair (n e) (draws r) →
  ∃ f0 w', ∀ f, (f0 <= f)%nat → visit f rp a ((e, h), r) = (Ret tt, w').
Proof.
  intros HI HS Ha Hx Hfair.
  destruct (visit_prefix rp a ((e, h), r)) as [res1 [[e1 h1] r1]] eqn:E1.
  pose proof (visit_prefix_outcome rp a x _ _ _ _ _ HI Ha Hx E1)
    as [Hd Hres1].
  cbn [fst snd] in *.
  destruct res1 as [b|ex|]; [|done..].
  destruct Hres1 as (e' & l & v & [= -> ->] & HI' & Hn & Hp & Hc & Hseq & Hz
                     & Hb & Hags & HS' & _).
  destruct (HS' HS) as (HS1 & Hl & HC).
  destruct b.
  - symmetry in Hb. apply andb_true_iff in Hb as [Hdead ->].
    rewrite Hdead in Hags. destruct Hags as [_ Hfree].
    destruct (add_agent_total e' (<[a := stepped x l v]> h) r1)
      as (f0 & a' & w' & Hret).
    + by apply (Cfg_ext e e').
    + by rewrite Hn, Hd.
    + exists l. by rewrite Hn.
    + exists f0, w'. intros f Hf. rewrite visit_factor, E1.
      unfold bind. by rewrite (Hret f Hf).
  - exists 0%nat. eexists. intros f _. by rewrite visit_factor, E1.
Qed.

Lemma agents_loop_total rp rest : ∀ e h r,
  Inv e h → Strong e h → NoDup rest → (∀ b, b ∈ rest → b ∈ agents e) →
  fair (n e) (draws r) →
  ∃ f0 w', ∀ f, (f0 <= f)%nat →
    agents_loop f rp rest ((e, h), r) = (Ret tt, w').
Proof.
  induction rest as [|a rest IH]; intros e h r HI HS Hnd Hsub Hfair.
  - exists 0%nat. eexists. intros f _. reflexivity.
  - apply NoDup_cons in Hnd as [Ha Hnd].
    assert (a ∈ agents e) as Hin by (apply Hsub; left).
    destruct (inv_alloc _ _ _ HI a Hin) as [x Hx].
    destruct (visit_total rp a x e h r HI HS Hin Hx Hfair)
      as (f1 & [[e1 h1] r1] & Hvisit).
    pose proof (visit_outcome f1 rp a x _ _ _ _ _ HI Hin Hx
                  (Hvisit f1 (le_n _))) as [Hd Hres].
    cbn [fst snd] in *.
    destruct Hres as (e1' & h1' & l & v & [= <- <-] & HI1 & Hev & _ & _
                      & Hframe & _).
    destruct (IH e1 h1 r1) as (f2 & w' & Hloop); try done.
    + by apply (ev_strong _ _ _ _ Hev).
    + intros b Hb. assert (b ≠ a) by (by intros ->).
      apply Hframe; [done| |apply Hsub; by right].
      apply (inv_alloc _ _ _ HI). apply Hsub. by right.
    + by rewrite (ev_n _ _ _ _ Hev), Hd.
    + exists (f1 `max` f2)%nat, w'. intros f Hf.
      cbn [agents_loop]. unfold bind.
      rewrite (Hvisit f) by lia. apply Hloop. lia.
Qed.

(** With a fair sequence of draws, [step] returns once the budget of
    [random_loc] is large enough. *)
Lemma step_total e h r :
  Inv e h → Strong e h → int64 (default 1 (grow_rate (params e))) →
  fair (n e) (draws r) →
  ∃ f0 v w', ∀ f, (f0 <= f)%nat → step f ((e, h), r) = (Ret v, w').
Proof.
  intros HI HS Hg Hfair.
  pose proof (permutation_Permutation (agents e) r) as HP.
  pose proof (shuffle_draws (agents e) r) as Hd0.
  unfold permutation in HP.
  destruct (shuffle (agents e) r) as [order r0] eqn:Esh.
  cbn [fst snd] in *.
  destruct (agents_loop_total (default false (replace (params e))) order
              e h r0) as (f0 & [[e1 h1] r1] & Hloop); try done.
  - rewrite HP. apply HI.
  - intros b. by rewrite HP.
  - by rewrite Hd0.
  - assert (params e1 = params e) as Hp.
    { pose proof (agents_loop_outcome _ _ _ _ _ _ _ _ HI
                    (proj2 (NoDup_Permutation_proper _ _ HP)
                       (inv_nodup _ _ _ HI))
                    (λ b Hb, proj1 (elem_of_Permutation_proper b _ _ HP) Hb)
                    (Hloop f0 (le_n _))) as [_ Hres].
      cbn [fst snd] in Hres.
      destruct Hres as (e1' & h1' & [= <- <-] & _ & Hev & _).
      apply Hev. }
    exists f0. eexists _, _. intros f Hf.
    unfold step. unfold bind at 1. rewrite get_env_eq.
    unfold bind at 1. unfold rand, permutation. cbn [fst snd].
    rewrite Esh. unfold bind at 1. rewrite (Hloop f Hf).
    unfold bind at 1. rewrite get_env_eq.
    unfold bind at 1. rewrite put_env_eq.
    unfold bind at 1. rewrite grow_eq. cbn [params set_agent_count_seq].
    rewrite Hp, decide_True by done.
    unfold bind at 1. rewrite get_env_eq. reflexivity.
Qed.

(** *** Whatever the starting box

    An agent placed outside the grid makes [step] raise; what follows shows
    that a call ends all the same, by a value or by an exception. *)






End Termination.

Module TerminationClaim.
Import Sugarscape SugarscapeSpec SugarscapeChoice SugarscapeInv VisionFacts.
Import SugarscapeVisit OpFacts InitFacts ReachFacts Termination Samples.
Import SugarscapeClaims.







End TerminationClaim.

(** ** The draws are read in sequence *)

Module Sequential.

Lemma agree_refl K r : agree K r r.
Proof. by split. Qed.

(** *** Functions of the generator *)

Lemma gseq_ret {A} (a : A) : gseq (λ r, (a, r)).
Proof. split; [done|]. intros K r1 r2 H _. by split. Qed.

Lemma gseq_next_raw : gseq next_raw.
Proof.
  split; [intros r; simpl; lia|].
  intros K r1 r2 [Hp Hd] HK. cbn in *. split.
  - rewrite <- Hp. symmetry. apply Hd. lia.
  - split; cbn; [by rewrite Hp|]. intros i Hi. apply Hd. lia.
Qed.

Lemma gseq_bind {A B} (f : RandomState → A * RandomState)
    (g : A → RandomState → B * RandomState) :
  gseq f → (∀ a, gseq (g a)) →
  gseq (λ r, let '(a, r') := f r in g a r').
Proof.
  intros [Hfm Hfl] Hg. split.
  - intros r. specialize (Hfm r). destruct (f r) as [a r'].
    pose proof (g_mono _ (Hg a) r'). cbn in *. lia.
  - intros K r1 r2 Hag HK.
    specialize (Hfl K r1 r2 Hag). specialize (Hfm r1).
    destruct (f r1) as [a r1'], (f r2) as [a2 r2']. cbn [fst snd] in *.
    pose proof (g_mono _ (Hg a) r1').
    destruct Hfl as [-> Hag']; [lia|].
    by apply (g_local _ (Hg a)).
Qed.

Lemma gseq_map {A B} (f : RandomState → A * RandomState) (h : A → B) :
  gseq f → gseq (λ r, let '(a, r') := f r in (h a, r')).
Proof.
  intros Hf. apply (gseq_bind f (λ a r', (h a, r')) Hf).
  intros a. apply gseq_ret.
Qed.

Lemma gseq_random_interval i : gseq (random_interval i).
Proof. exact (gseq_map next_raw (λ x, (x mod S i)%nat) gseq_next_raw). Qed.

Lemma gseq_randint2 low high : gseq (randint2 low high).
Proof.
  unfold randint2. destruct (decide _).
  - exact (gseq_map next_raw
             (λ x, Ret (low + Z.of_nat x mod (high - low))) gseq_next_raw).
  - apply gseq_ret.
Qed.

Lemma gseq_randint high : gseq (randint high).
Proof.
  unfold randint. destruct (decide _).
  - exact (gseq_map next_raw (λ x, Ret (Z.of_nat x mod high)) gseq_next_raw).
  - apply gseq_ret.
Qed.

Lemma gseq_random_sample : gseq random_sample.
Proof.
  exact (gseq_map next_raw (λ x, (Z.of_nat x mod 2 ^ 53) # (2 ^ 53))
           gseq_next_raw).
Qed.

Lemma gseq_uniform lo hi : gseq (uniform lo hi).
Proof.
  unfold uniform. destruct (_ && _).
  - exact (gseq_map random_sample (λ u, Ret (lo + (hi - lo) * u)%Q)
             gseq_random_sample).
  - apply gseq_ret.
Qed.

Lemma gseq_shuffle_loop {A} i : ∀ x : list A, gseq (shuffle_loop i x).
Proof.
  induction i as [|i IH]; intros x.
  - exact (gseq_ret x).
  - exact (gseq_bind (random_interval (S i))
             (λ j, shuffle_loop i (swap x (S i) j))
             (gseq_random_interval _) (λ j, IH _)).
Qed.

Lemma gseq_shuffle {A} (x : list A) : gseq (shuffle x).
Proof. apply gseq_shuffle_loop. Qed.

Lemma gseq_choices k : gseq (Schelling.choices k).
Proof.
  induction k as [|k IH].
  - exact (gseq_ret []).
  - exact (gseq_bind random_sample
             (λ u r1, let '(l, r2) := Schelling.choices k r1 in
                      (Schelling.choice u :: l, r2))
             gseq_random_sample
             (λ u, gseq_map (Schelling.choices k)
                     (λ l, Schelling.choice u :: l) IH)).
Qed.

Lemma gseq_Schelling_init n p0 : gseq (Schelling.init n p0).
Proof.
  unfold Schelling.init. destruct (decide _).
  - apply gseq_ret.
  - exact (gseq_map (Schelling.choices (Z.to_nat (n * n)))
             (λ l, Ret {| Schelling.p := p0;
                          Schelling.array := {| dim := n; data := l |} |})
             (gseq_choices _)).
Qed.

Lemma gseq_make_arrays ds : gseq (Sugarscape.make_arrays ds).
Proof.
  induction ds as [|d ds IH].
  - exact (gseq_ret []).
  - exact (gseq_bind (Sugarscape.make_array d)
             (λ a r1, let '(l, r2) := Sugarscape.make_arrays ds r1 in
                      (a :: l, r2))
             (gseq_shuffle _)
             (λ a, gseq_map (Sugarscape.make_arrays ds) (λ l, a :: l) IH)).
Qed.

Lemma gseq_make_visible_locs vision :
  gseq (Sugarscape.make_visible_locs vision).
Proof.
  refine (gseq_bind (Sugarscape.make_arrays (seqZ 1 vision))
            (λ arrays r',
               match arrays with
               | [] => (Raise ValueError, r')
               | _ => (Ret (concat arrays), r')
               end) (gseq_make_arrays _) _).
  intros [|a l]; apply gseq_ret.
Qed.

(** *** Computations on a state with the generator *)

Section Monad.
Context {S : Type}.
Implicit Types s : S.

Lemma seq_pure {A} (m : M (S * RandomState) A) (f : S → result A * S) :
  (∀ s r, m (s, r) = ((f s).1, ((f s).2, r))) → sequential m.
Proof.
  intros Hm. split.
  - intros s r. by rewrite Hm.
  - intros K s r1 r2 Hag _. by rewrite !Hm.
Qed.

Lemma seq_ret {A} (a : A) : sequential (ret (S := S * RandomState) a).
Proof. by apply (seq_pure _ (λ s, (Ret a, s))). Qed.

Lemma seq_raise {A} (e : exn) :
  sequential (raise (S := S * RandomState) (A := A) e).
Proof. by apply (seq_pure _ (λ s, (Raise e, s))). Qed.

Lemma seq_diverge {A} : sequential (diverge (S := S * RandomState) (A := A)).
Proof. by apply (seq_pure _ (λ s, (Diverge, s))). Qed.

Lemma seq_assert (c : bool) : sequential (assert (S := S * RandomState) c).
Proof. destruct c; [apply seq_ret|apply seq_raise]. Qed.

Lemma seq_or_raise {A} (e : exn) (o : option A) :
  sequential (or_raise (S := S * RandomState) e o).
Proof. destruct o; [apply seq_ret|apply seq_raise]. Qed.

Lemma seq_bind {A B} (m : M (S * RandomState) A)
    (k : A → M (S * RandomState) B) :
  sequential m → (∀ a, sequential (k a)) → sequential (bind m k).
Proof.
  intros [Hmm Hml] Hk. split.
  - intros s r. unfold bind. specialize (Hmm s r).
    destruct (m (s, r)) as [[a|e|] [s' r']]; cbn [fst snd] in *; [|done..].
    pose proof (s_mono _ (Hk a) s' r'). lia.
  - intros K s r1 r2 Hag. unfold bind.
    specialize (Hml K s r1 r2 Hag). specialize (Hmm s r1).
    destruct (m (s, r1)) as [res1 [s1 r1']], (m (s, r2)) as [res2 [s2 r2']].
    cbn [fst snd] in *.
    destruct res1 as [a|e|]; intros HK.
    + pose proof (s_mono _ (Hk a) s1 r1').
      destruct Hml as (-> & -> & Hag'); [lia|].
      by apply (s_local _ (Hk a)).
    + destruct Hml as (-> & -> & Hag'); done.
    + destruct Hml as (-> & -> & Hag'); done.
Qed.

(** Reading the state, when what follows does not look at the generator
    that was read. *)
Lemma seq_bind_get {B} (k : S * RandomState → M (S * RandomState) B) :
  (∀ s r r', k (s, r) = k (s, r')) → (∀ w, sequential (k w)) →
  sequential (bind get k).
Proof.
  intros Hsame Hk. split.
  - intros s r. unfold bind, get. apply (s_mono _ (Hk (s, r))).
  - intros K s r1 r2 Hag. unfold bind, get.
    rewrite (Hsame s r2 r1). apply (s_local _ (Hk (s, r1))), Hag.
Qed.

Lemma seq_rand {A} (f : RandomState → A * RandomState) :
  gseq f → sequential (rand (S := S) f).
Proof.
  intros [Hm Hl]. split.
  - intros s r. unfold rand. cbn [fst snd]. specialize (Hm r).
    by destruct (f r).
  - intros K s r1 r2 Hag. unfold rand. cbn [fst snd].
    specialize (Hl K r1 r2 Hag).
    destruct (f r1) as [a1 r1'], (f r2) as [a2 r2']. cbn [fst snd] in *.
    intros HK. destruct (Hl HK) as [-> ?]. done.
Qed.

Lemma seq_rand_result {A} (f : RandomState → result A * RandomState) :
  gseq f → sequential (rand_result (S := S) f).
Proof.
  intros [Hm Hl]. split.
  - intros s r. unfold rand_result. cbn [fst snd]. specialize (Hm r).
    by destruct (f r).
  - intros K s r1 r2 Hag. unfold rand_result. cbn [fst snd].
    specialize (Hl K r1 r2 Hag).
    destruct (f r1) as [a1 r1'], (f r2) as [a2 r2']. cbn [fst snd] in *.
    intros HK. destruct (Hl HK) as [-> ?]. done.
Qed.

Lemma seq_list_comp {A B} (f : A → M (S * RandomState) B) (l : list A) :
  (∀ x, sequential (f x)) → sequential (Sugarscape.list_comp f l).
Proof.
  intros Hf. induction l as [|x l IH]; cbn [Sugarscape.list_comp].
  - apply seq_ret.
  - apply seq_bind; [done|]. intros y.
    apply seq_bind; [done|]. intros ys. apply seq_ret.
Qed.

End Monad.

(** One step of the analysis of a computation. *)
Ltac seq_step :=
  first
    [ apply seq_ret | apply seq_raise | apply seq_diverge
    | apply seq_assert | apply seq_or_raise
    | apply seq_rand_result | apply seq_rand
    | apply gseq_randint | apply gseq_randint2 | apply gseq_uniform
    | apply gseq_shuffle | apply gseq_make_visible_locs
    | apply seq_list_comp; intros ?
    | apply seq_bind; [|intros ?]
    | match goal with
      | |- sequential (if ?c then _ else _) => destruct c
      | |- sequential (match ?x with _ => _ end) => destruct x
      end
    | assumption ].

(** *** Schelling's model *)

Lemma seq_get_cell l : sequential (Schelling.get_cell l).
Proof.
  unfold Schelling.get_cell. apply seq_bind_get; [done|].
  intros w. apply seq_or_raise.
Qed.

Lemma seq_set_cell l v : sequential (Schelling.set_cell l v).
Proof.
  apply (seq_pure _ (λ s,
    match setitem (Schelling.array s) l v with
    | Some a => (Ret tt, {| Schelling.p := Schelling.p s;
                            Schelling.array := a |})
    | None => (Raise IndexError, s)
    end)).
  intros s r. unfold Schelling.set_cell, bind, get, or_raise, ret, raise, put.
  cbn [fst snd]. by destruct (setitem _ _ _).
Qed.

Lemma seq_move_loop num_empty us : ∀ es,
  sequential (Schelling.move_loop num_empty us es).
Proof.
  induction us as [|u us IH]; intros es; cbn [Schelling.move_loop].
  - apply seq_ret.
  - apply seq_bind; [apply seq_rand_result, gseq_randint|]. intros i.
    apply seq_bind; [apply seq_or_raise|]. intros dest.
    apply seq_bind; [apply seq_get_cell|]. intros v.
    apply seq_bind; [apply seq_set_cell|]. intros _.
    apply seq_bind; [apply seq_set_cell|]. intros _.
    apply seq_bind; [apply seq_or_raise|]. intros es'.
    apply seq_bind_get; [done|]. intros w. cbv zeta.
    apply seq_bind; [apply seq_assert|]. intros _. apply IH.
Qed.

Lemma seq_Schelling_step : sequential Schelling.step.
Proof.
  unfold Schelling.step. apply seq_bind_get; [done|]. intros w. cbv zeta.
  destruct (Schelling.count_neighbors _) as [[[empty fr] fb] frac_same].
  apply seq_bind.
  - destruct (decide _); [apply seq_rand, gseq_shuffle|apply seq_ret].
  - intros us. apply seq_bind; [apply seq_move_loop|]. intros _.
    apply seq_ret.
Qed.

Lemma seq_steps k : sequential (Schelling.steps k).
Proof.
  induction k as [|k IH]; cbn [Schelling.steps].
  - apply seq_ret.
  - apply seq_bind; [apply seq_Schelling_step|]. intros x.
    apply seq_bind; [apply IH|]. intros xs. apply seq_ret.
Qed.

(** *** Sugarscape *)

Section Sugarscape.
Import Sugarscape.

Lemma seq_get_env : sequential get_env.
Proof. by apply (seq_pure _ (λ s, (Ret s.1, s))). Qed.

Lemma seq_put_env e : sequential (put_env e).
Proof. by apply (seq_pure _ (λ s, (Ret tt, (e, s.2)))). Qed.

Lemma seq_get_agent a : sequential (get_agent a).
Proof.
  apply (seq_pure _ (λ s, match s.2 !! a with
                          | Some x => (Ret x, s)
                          | None => (Raise ReferenceError, s)
                          end)).
  intros s r. unfold get_agent, bind, get, or_raise, ret, raise, heap.
  cbn [fst snd]. by destruct (s.2 !! a).
Qed.

Lemma seq_set_agent a x : sequential (set_agent a x).
Proof. by apply (seq_pure _ (λ s, (Ret tt, (s.1, <[a := x]> s.2)))). Qed.

Lemma seq_alloc x : sequential (alloc x).
Proof.
  by apply (seq_pure _ (λ s, (Ret (fresh (dom s.2)),
                              (s.1, <[fresh (dom s.2) := x]> s.2)))).
Qed.

Ltac seq_prim :=
  first [ apply seq_get_env | apply seq_put_env | apply seq_get_agent
        | apply seq_set_agent | apply seq_alloc | seq_step ].

Lemma seq_Agent_init l ps : sequential (Agent_init l ps).
Proof. unfold Agent_init. cbv zeta. repeat seq_prim. Qed.

Lemma seq_read_locs ags :
  sequential (list_comp (λ a, bind (get_agent a) (λ x, ret (loc_ x))) ags).
Proof. apply seq_list_comp. intros a. repeat seq_prim. Qed.

Lemma seq_make_agents : sequential make_agents.
Proof.
  unfold make_agents. apply seq_bind; [apply seq_get_env|]. intros e.
  cbv zeta.
  apply seq_bind; [apply seq_rand, gseq_shuffle|]. intros locs.
  apply seq_bind; [apply seq_assert|]. intros _.
  apply seq_bind.
  { apply seq_list_comp. intros i.
    apply seq_bind; [apply seq_or_raise|]. intros l. apply seq_Agent_init. }
  intros ags. apply seq_bind; [apply seq_read_locs|]. intros ls.
  apply seq_bind; [apply seq_get_env|]. intros e'. apply seq_put_env.
Qed.

Lemma seq_grow : sequential grow.
Proof.
  unfold grow. apply seq_bind; [apply seq_get_env|]. intros e. cbv zeta.
  destruct (decide _); [apply seq_put_env|apply seq_raise].
Qed.

Lemma seq_look_and_move center vision :
  sequential (look_and_move center vision).
Proof.
  unfold look_and_move.
  apply seq_bind; [apply seq_rand_result, gseq_make_visible_locs|].
  intros locs. apply seq_bind; [apply seq_get_env|]. intros e. cbv zeta.
  destruct (decide _); [apply seq_ret|].
  apply seq_bind.
  { apply seq_list_comp. intros c. apply seq_or_raise. }
  intros t. apply seq_bind; [apply seq_or_raise|]. intros i.
  apply seq_or_raise.
Qed.

Lemma seq_harvest l : sequential (harvest l).
Proof.
  unfold harvest. apply seq_bind; [apply seq_get_env|]. intros e.
  apply seq_bind; [apply seq_or_raise|]. intros v.
  apply seq_bind; [apply seq_or_raise|]. intros a.
  apply seq_bind; [apply seq_put_env|]. intros _. apply seq_ret.
Qed.

Lemma seq_Agent_step self : sequential (Agent_step self).
Proof.
  unfold Agent_step.
  apply seq_bind; [apply seq_get_agent|]. intros x.
  apply seq_bind; [apply seq_look_and_move|]. intros l.
  apply seq_bind; [apply seq_set_agent|]. intros _.
  apply seq_bind; [apply seq_get_agent|]. intros x1.
  apply seq_bind; [apply seq_harvest|]. intros v.
  apply seq_bind; [apply seq_set_agent|]. intros _.
  apply seq_bind; [apply seq_get_agent|]. intros x2.
  apply seq_set_agent.
Qed.

Lemma seq_random_loc fuel : sequential (random_loc fuel).
Proof.
  induction fuel as [|fuel IH]; cbn [random_loc].
  - apply seq_diverge.
  - apply seq_bind; [apply seq_get_env|]. intros e.
    apply seq_bind; [apply seq_rand_result, gseq_randint|]. intros i.
    apply seq_bind; [apply seq_rand_result, gseq_randint|]. intros j.
    destruct (decide _); [apply IH|apply seq_ret].
Qed.

Lemma seq_add_agent fuel : sequential (add_agent fuel).
Proof.
  unfold add_agent.
  apply seq_bind; [apply seq_get_env|]. intros e.
  apply seq_bind; [apply seq_random_loc|]. intros l.
  apply seq_bind; [apply seq_Agent_init|]. intros a.
  apply seq_bind; [apply seq_get_env|]. intros e1.
  apply seq_bind; [apply seq_put_env|]. intros _.
  apply seq_bind; [apply seq_get_agent|]. intros x.
  apply seq_bind; [apply seq_get_env|]. intros e2.
  apply seq_bind; [apply seq_put_env|]. intros _. apply seq_ret.
Qed.

Lemma seq_occupied_remove l : sequential (occupied_remove l).
Proof.
  unfold occupied_remove. apply seq_bind; [apply seq_get_env|]. intros e.
  destruct (decide _); [apply seq_put_env|apply seq_raise].
Qed.

Lemma seq_agents_remove a : sequential (agents_remove a).
Proof.
  unfold agents_remove. apply seq_bind; [apply seq_get_env|]. intros e.
  apply seq_bind; [apply seq_or_raise|]. intros l. apply seq_put_env.
Qed.

Lemma seq_visit fuel rp agent : sequential (visit fuel rp agent).
Proof.
  unfold visit.
  apply seq_bind; [apply seq_get_agent|]. intros x.
  apply seq_bind; [apply seq_occupied_remove|]. intros _.
  apply seq_bind; [apply seq_Agent_step|]. intros _.
  apply seq_bind; [apply seq_get_agent|]. intros x1.
  destruct (_ || _).
  - apply seq_bind; [apply seq_agents_remove|]. intros _.
    destruct rp; [|apply seq_ret].
    apply seq_bind; [apply seq_add_agent|]. intros _. apply seq_ret.
  - apply seq_bind; [apply seq_get_env|]. intros e. apply seq_put_env.
Qed.

Lemma seq_agents_loop fuel rp order : sequential (agents_loop fuel rp order).
Proof.
  induction order as [|a order IH]; cbn [agents_loop].
  - apply seq_ret.
  - apply seq_bind; [apply seq_visit|]. intros _. apply IH.
Qed.

Lemma seq_Sugarscape_step fuel : sequential (step fuel).
Proof.
  unfold step.
  apply seq_bind; [apply seq_get_env|]. intros e. cbv zeta.
  apply seq_bind; [apply seq_rand, gseq_shuffle|]. intros order.
  apply seq_bind; [apply seq_agents_loop|]. intros _.
  apply seq_bind; [apply seq_get_env|]. intros e1.
  apply seq_bind; [apply seq_put_env|]. intros _.
  apply seq_bind; [apply seq_grow|]. intros _.
  apply seq_bind; [apply seq_get_env|]. intros e2. apply seq_ret.
Qed.

Lemma seq_loop fuel N : sequential (loop fuel N).
Proof.
  induction N as [|N IH]; cbn [loop].
  - apply seq_ret.
  - apply seq_bind; [apply seq_Sugarscape_step|]. intros _. apply IH.
Qed.

End Sugarscape.

End Sequential.

Module Determinism.
Import Samples Sequential.

(** C8.  A run is a function of the parameters and of the draws it
    consumes, in the order in which the generator delivers them: two runs
    with the same parameters whose generators start at the same position
    and deliver the same draws up to the position the first run reaches
    produce the same result, leave the same state (the grid and the series
    of a Schelling run; the grid, the capacity, the agents, the occupancy
    index and the series of a Sugarscape run) and leave the generators at
    the same position, whatever the number of ticks and whatever the
    generators would deliver later.  [K] bounds the positions on which the
    generators agree. *)
Theorem same_draws_same_run (K : nat) (r1 r2 : RandomState) :
  agree K r1 r2 →
  (∀ n p k,
     (pos (SchellingSpec.run n p k r1).2.2 <= K)%nat →
     (SchellingSpec.run n p k r2).1 = (SchellingSpec.run n p k r1).1 ∧
     (SchellingSpec.run n p k r2).2.1 = (SchellingSpec.run n p k r1).2.1 ∧
     pos (SchellingSpec.run n p k r2).2.2
     = pos (SchellingSpec.run n p k r1).2.2) ∧
  (∀ n0 ps fuel N,
     (pos (SugarscapeInv.run n0 ps fuel N r1).2.2 <= K)%nat →
     (SugarscapeInv.run n0 ps fuel N r2).1
     = (SugarscapeInv.run n0 ps fuel N r1).1 ∧
     (SugarscapeInv.run n0 ps fuel N r2).2.1
     = (SugarscapeInv.run n0 ps fuel N r1).2.1 ∧
     pos (SugarscapeInv.run n0 ps fuel N r2).2.2
     = pos (SugarscapeInv.run n0 ps fuel N r1).2.2).
Proof.
  intros Hag. split.
  - intros n p k. unfold SchellingSpec.run.
    pose proof (g_local _ (gseq_Schelling_init n p) K r1 r2 Hag) as Hinit.
    pose proof (g_mono _ (gseq_Schelling_init n p) r1) as Hm.
    destruct (Schelling.init n p r1) as [res1 r1'],
             (Schelling.init n p r2) as [res2 r2']. cbn [fst snd] in *.
    destruct res1 as [s|e|].
    + cbn [fst snd]. intros HK.
      pose proof (s_mono _ (seq_steps k) s r1') as Hm'.
      destruct Hinit as [-> Hag']; [exact (Nat.le_trans _ _ _ Hm' HK)|].
      destruct (s_local _ (seq_steps k) K s r1' r2' Hag' HK)
        as (H1 & H2 & [Hp _]).
      split_and!; cbn [fst snd];
        [exact H1|f_equal; exact H2|symmetry; exact Hp].
    + cbn [fst snd]. intros HK. destruct (Hinit HK) as [-> [Hp _]].
      by rewrite Hp.
    + cbn [fst snd]. intros HK. destruct (Hinit HK) as [-> [Hp _]].
      by rewrite Hp.
  - intros n0 ps fuel N. unfold SugarscapeInv.run, Sugarscape.init.
    destruct (decide (n0 < 0)).
    { cbn [fst snd]. intros _. destruct Hag as [Hp _]. by rewrite Hp. }
    set (s0 := ({| Sugarscape.n := n0; Sugarscape.params := ps;
                   Sugarscape.agent_count_seq := [];
                   Sugarscape.capacity := Sugarscape.make_capacity n0;
                   Sugarscape.array := Sugarscape.make_capacity n0;
                   Sugarscape.agents := [];
                   Sugarscape.occupied := ∅ |},
                (∅ : gmap Sugarscape.ref Sugarscape.Agent))).
    pose proof (s_local _ seq_make_agents K s0 r1 r2 Hag) as Hinit.
    pose proof (s_mono _ seq_make_agents s0 r1) as Hm.
    destruct (Sugarscape.make_agents (s0, r1)) as [res1 [s1 r1']],
             (Sugarscape.make_agents (s0, r2)) as [res2 [s2 r2']].
    cbn [fst snd] in *.
    destruct res1 as [[]|e|].
    + intros HK.
      pose proof (s_mono _ (seq_loop fuel N) s1 r1') as Hm'.
      destruct Hinit as (-> & -> & Hag'); [exact (Nat.le_trans _ _ _ Hm' HK)|].
      destruct (s_local _ (seq_loop fuel N) K s1 r1' r2' Hag' HK)
        as (H1 & H2 & [Hp _]).
      split_and!; [exact H1|exact H2|symmetry; exact Hp].
    + cbn [fst snd]. intros HK. destruct (Hinit HK) as (-> & -> & [Hp _]).
      by rewrite Hp.
    + cbn [fst snd]. intros HK. destruct (Hinit HK) as (-> & -> & [Hp _]).
      by rewrite Hp.
Qed.

Lemma agree_rs0_cut : agree 200 rs0 rs0_cut.
Proof.
  split; [done|]. intros i [_ Hi]. cbn [draws rs0 rs0_cut].
  destruct (Nat.ltb_spec i 200); [done|lia].
Qed.

Lemma same_draws_same_run_witness :
  agree 200 rs0 rs0_cut ∧
  draws rs0 200 ≠ draws rs0_cut 200 ∧
  (SugarscapeInv.run 3 ps0 5 2 rs0_cut).1 = Ret tt ∧
  (SugarscapeInv.run 3 ps0 5 2 rs0_cut).2.1
  = (SugarscapeInv.run 3 ps0 5 2 rs0).2.1.
Proof.
  split; [exact agree_rs0_cut|]. split; [vm_compute; discriminate|].
  assert ((pos (SugarscapeInv.run 3 ps0 5 2 rs0).2.2 <= 200)%nat) as HK.
  { apply (bool_decide_unpack _). vm_compute. exact I. }
  assert ((SugarscapeInv.run 3 ps0 5 2 rs0).1 = Ret tt) as Hret
    by (vm_compute; reflexivity).
  destruct (proj2 (same_draws_same_run 200 rs0 rs0_cut agree_rs0_cut)
              3 ps0 5%nat 2%nat HK) as (H1 & H2 & _).
  split; [by rewrite H1|exact H2].
Defined.

End Determinism.

Module LookAndMoveWitness.
Import Sugarscape SugarscapeSpec SugarscapeChoice SugarscapeInv VisionFacts.
Import Samples LookAndMoveClaim.

Lemma look_and_move_choice_witness :
  n (env w0) = 3 ∧
  ∃ offs, visible_enumeration 2 offs ∧
          (look_and_move (1, 1) 2 w0).2.1 = w0.1.
Proof.
  split; [vm_compute; reflexivity|].
  destruct (look_and_move_choice w0 (1, 1) 2) as (_ & H).
  - vm_compute. reflexivity.
  - split; [vm_compute; discriminate|vm_compute; reflexivity].
  - vm_compute. reflexivity.
  - assert (1 <= 2) as Hv by lia.
    destruct (H Hv) as (offs & H1 & H2 & _).
    exists offs. split; done.
Defined.

(** On [w0] the agents stand at (1, 1), (2, 0) and (1, 2), and every cell
    but (0, 0) holds 1.  With vision 2 the agent at (1, 1) moves to (1, 0),
    the first free cell of the enumeration that the draws produce; the
    offset (0, -2) leads through the edge of the grid to (1, 2), which is
    taken. *)
Example look_and_move_moves :
  (look_and_move (1, 1) 2 w0).1 = Ret (1, 0) ∧
  torus_cell 3 (1, 1) (0, -2) = (1, 2) ∧ (1, 2) ∈ occupied (env w0).
Proof.
  split_and!; [vm_compute; reflexivity..|].
  apply (bool_decide_unpack _). vm_compute. exact I.
Qed.

(** The claim as stated fails for a vision below 1: no cell is visible, so
    every visible cell is occupied, and yet the call raises [ValueError]
    where the centre was to be returned. *)
Lemma look_and_move_choice_counterexample :
  ¬ (∀ (w : world) (center : loc) (vision : Z) (offs : list loc),
       0 < n (env w) → wf (array (env w)) →
       dim (array (env w)) = n (env w) →
       visible_enumeration vision offs →
       (∀ c, c ∈ torus_cell (n (env w)) center <$> offs →
             c ∈ occupied (env w)) →
       (look_and_move center vision w).1 = Ret center).
Proof.
  intros H.
  assert ((look_and_move (1, 1) 0 w0).1 = Ret (1, 1)) as Hret.
  { apply (H w0 (1, 1) 0 []).
    - vm_compute. reflexivity.
    - split; [vm_compute; discriminate|vm_compute; reflexivity].
    - vm_compute. reflexivity.
    - split; [done|constructor].
    - intros c Hc. by apply not_elem_of_nil in Hc. }
  assert ((look_and_move (1, 1) 0 w0).1 = Raise ValueError) as Hraise
    by (vm_compute; reflexivity).
  congruence.
Qed.

End LookAndMoveWitness.

(** ** Enumerations of cells *)

Module Enumerations.
Import Sugarscape.

Lemma seqZ_lt_sorted (m : Z) (len : nat) :
  StronglySorted Z.lt (seqZ m (Z.of_nat len)).
Proof.
  revert m. induction len as [|len IH]; intros m.
  - constructor.
  - rewrite Nat2Z.inj_succ, seqZ_cons by lia.
    replace (Z.pred (Z.succ (Z.of_nat len))) with (Z.of_nat len) by lia.
    constructor; [apply IH|].
    apply Forall_forall. intros x Hx. apply elem_of_seqZ in Hx. lia.
Qed.

Lemma indices_row_major (k : nat) (m : Z) :
  StronglySorted row_major (indices (Z.of_nat k) m).
Proof.
  induction k as [|k IH]; [constructor|].
  rewrite indices_S. apply StronglySorted_app_2; [|done|].
  - intros l1 l2 Hl1 Hl2. apply elem_of_indices in Hl1.
    apply list_elem_of_fmap in Hl2 as (j & -> & _). left. simpl. lia.
  - destruct (decide (0 <= m)) as [Hm|Hm].
    + rewrite <- (Z2Nat.id m) by done.
      apply (StronglySorted_fmap _ Z.lt row_major);
        [|apply seqZ_lt_sorted].
      intros j1 j2 Hj. right. simpl. done.
    + rewrite seqZ_nil by lia. constructor.
Qed.

Lemma StronglySorted_filter {A} (R : relation A) (P : A → Prop)
    `{∀ x, Decision (P x)} (l : list A) :
  StronglySorted R l → StronglySorted R (filter P l).
Proof.
  induction 1 as [|x l Hl IH Hx]; [constructor|].
  rewrite filter_cons. destruct (decide (P x)); [|done].
  constructor; [done|]. apply Forall_forall. intros y Hy.
  apply list_elem_of_filter in Hy as [_ Hy].
  by eapply Forall_forall in Hx.
Qed.

(** X1.  [locs_where(condition)] lists the cells where the condition is
    true: each once, no other, in row-major order (the order of
    [np.nonzero]), and as many as [np.sum(condition)] counts. *)
Theorem locs_where_enumerates (c : ndarray bool) :
  wf c →
  NoDup (locs_where c) ∧
  (∀ l, l ∈ locs_where c ↔ valid (dim c) l ∧ getitem c l = Some true) ∧
  StronglySorted row_major (locs_where c) ∧
  Z.of_nat (length (locs_where c)) = np_sum c.
Proof.
  intros Hwf. split_and!.
  - apply NoDup_locs_where.
  - intros l. apply elem_of_locs_where.
  - unfold locs_where. apply StronglySorted_filter.
    destruct Hwf as [H0 _]. rewrite <- (Z2Nat.id (dim c)) at 1 by done.
    apply indices_row_major.
  - by apply length_locs_where.
Qed.

Lemma locs_where_enumerates_witness :
  locs_where {| dim := 2; data := [true; false; false; true] |}
  = [(0, 0); (1, 1)] ∧
  Z.of_nat (length
    (locs_where {| dim := 2; data := [true; false; false; true] |}))
  = np_sum {| dim := 2; data := [true; false; false; true] |}.
Proof.
  split; [reflexivity|].
  apply (locs_where_enumerates
           {| dim := 2; data := [true; false; false; true] |}).
  split; [simpl; lia|reflexivity].
Defined.

Lemma length_indices_gen (n m : Z) :
  length (indices n m) = (Z.to_nat n * Z.to_nat m)%nat.
Proof.
  destruct (decide (0 <= n)) as [Hn|Hn].
  - destruct (decide (0 <= m)) as [Hm|Hm].
    + rewrite <- (Z2Nat.id n) at 1 by done.
      by rewrite length_indices_nat.
    + replace (Z.to_nat m) with 0%nat by lia. rewrite Nat.mul_0_r.
      apply length_zero_iff_nil, elem_of_nil_inv. intros l Hl.
      apply elem_of_indices in Hl. lia.
  - replace (Z.to_nat n) with 0%nat by lia.
    unfold indices. by rewrite (seqZ_nil 0 n) by lia.
Qed.

(** X2.  [make_locs(n, m)] lists the cells of an [n] by [m] grid row by
    row: [n * m] distinct pairs, the pair [(i, j)] at position [i * m + j];
    the list is empty when [n] or [m] is not positive. *)
Theorem make_locs_row_major (n m : Z) :
  length (make_locs n m) = (Z.to_nat n * Z.to_nat m)%nat ∧
  NoDup (make_locs n m) ∧
  (∀ l, l ∈ make_locs n m ↔ 0 <= l.1 < n ∧ 0 <= l.2 < m) ∧
  (∀ i j, 0 <= i < n → 0 <= j < m →
          make_locs n m !! Z.to_nat (i * m + j) = Some (i, j)) ∧
  (n <= 0 ∨ m <= 0 → make_locs n m = []).
Proof.
  unfold make_locs. split_and!.
  - apply length_indices_gen.
  - apply NoDup_indices.
  - intros l. apply elem_of_indices.
  - intros i j Hi Hj. rewrite <- (Z2Nat.id n) by lia.
    apply lookup_indices_nat; lia.
  - intros Hnm. apply elem_of_nil_inv. intros l Hl.
    apply elem_of_indices in Hl. lia.
Qed.

End Enumerations.

(** ** Schelling: construction and runs *)

Module SchellingRuns.
Import Schelling SchellingSpec SchellingFacts SurveyFacts.

Lemma choice_range (u : Q) : choice u = 0 ∨ choice u = 1 ∨ choice u = 2.
Proof. unfold choice. repeat destruct (Qlt_le_dec _ _); tauto. Qed.

Lemma choices_spec (k : nat) : ∀ r,
  length (choices k r).1 = k ∧
  (∀ v, v ∈ (choices k r).1 → v = 0 ∨ v = 1 ∨ v = 2) ∧
  draws (choices k r).2 = draws r ∧
  pos (choices k r).2 = (pos r + k)%nat.
Proof.
  induction k as [|k IH]; intros r.
  - cbn. split_and!; [done| |done|lia]. intros v Hv.
    by apply not_elem_of_nil in Hv.
  - cbn [choices]. unfold random_sample, next_raw.
    set (r1 := {| draws := draws r; pos := S (pos r) |}).
    destruct (IH r1) as (Hlen & Hval & Hd & Hp).
    destruct (choices k r1) as [l r2]. cbn [fst snd] in *.
    split_and!.
    + cbn [length]. by rewrite Hlen.
    + intros v [->|Hv]%elem_of_cons; [apply choice_range|by apply Hval].
    + done.
    + rewrite Hp. cbn. lia.
Qed.

(** X3.  [Schelling(n, p)] builds an [n] by [n] grid whose cells are 0, 1 or
    2 and keeps the threshold; it draws one sample per cell.  A negative
    [n] is a [ValueError]. *)
Theorem init_builds_grid (n : Z) (p0 : Q) (r : RandomState) :
  (n < 0 → init n p0 r = (Raise ValueError, r)) ∧
  (0 <= n →
   ∃ s r', init n p0 r = (Ret s, r') ∧
     p s = p0 ∧ dim (array s) = n ∧ wf (array s) ∧ cells_ok (array s) ∧
     draws r' = draws r ∧ pos r' = (pos r + Z.to_nat (n * n))%nat).
Proof.
  unfold init. split; intros Hn.
  - by rewrite decide_True.
  - rewrite decide_False by lia.
    destruct (choices_spec (Z.to_nat (n * n)) r) as (Hlen & Hval & Hd & Hp).
    destruct (choices (Z.to_nat (n * n)) r) as [l r']. cbn [fst snd] in *.
    eexists _, r'. split; [reflexivity|]. cbn. split_and!; try done.
Qed.

(** The grid after [k] calls of [step], whatever their outcome. *)
Lemma steps_rearrange (k : nat) : ∀ s r res w',
  wf (array s) → steps k (s, r) = (res, w') →
  p w'.1 = p s ∧ wf (array w'.1) ∧ dim (array w'.1) = dim (array s) ∧
  data (array w'.1) ≡ₚ data (array s).
Proof.
  induction k as [|k IH]; intros s r res w' Hwf.
  { intros [= <- <-]. cbn. split_and!; done. }
  cbn [steps]. unfold bind at 1.
  destruct (step_spec s r Hwf)
    as (res1 & a' & r' & -> & Hwf' & Hdim & Hperm & _).
  destruct res1 as [x|ex|].
  - unfold bind at 1.
    destruct (steps k ({| p := p s; array := a' |}, r')) as [res2 w2] eqn:E.
    apply IH in E as (Hp & Hwf2 & Hdim2 & Hperm2); [|done].
    cbn [p array] in *.
    intros Heq. assert (w' = w2) as ->.
    { destruct res2; by injection Heq. }
    split_and!; [done..|congruence|by rewrite Hperm2].
  - intros [= <- <-]. cbn. split_and!; done.
  - intros [= <- <-]. cbn. split_and!; done.
Qed.

(** X4.  A grid built by the constructor stays an [n] by [n] grid of cells
    0, 1 and 2 through any number of calls of [step], and it stays a
    rearrangement of the grid that was built: no agent appears, disappears
    or changes its type, also when a call raises. *)
Theorem constructed_grid_is_rearranged (n : Z) (p0 : Q) (r r1 : RandomState)
    (s : t) (k : nat) :
  init n p0 r = (Ret s, r1) →
  let s' := (steps k (s, r1)).2.1 in
  p s' = p0 ∧ dim (array s') = n ∧ wf (array s') ∧ cells_ok (array s') ∧
  data (array s') ≡ₚ data (array s).
Proof.
  intros Hinit. cbv zeta. unfold init in Hinit.
  destruct (decide (n < 0)) as [Hn|Hn]; [done|].
  destruct (choices_spec (Z.to_nat (n * n)) r) as (Hlen & Hval & _).
  destruct (choices (Z.to_nat (n * n)) r) as [l r0]. cbn [fst snd] in *.
  injection Hinit as <- <-.
  set (s0 := {| p := p0; array := {| dim := n; data := l |} |}).
  assert (wf (array s0)) as Hwf by (split; cbn; [lia|done]).
  destruct (steps k (s0, r0)) as [res w'] eqn:E. cbn [snd].
  destruct (steps_rearrange k s0 r0 res w' Hwf E)
    as (Hp' & Hwf' & Hdim' & Hperm).
  split_and!; try done.
  intros v Hv. apply Hval. rewrite Hperm in Hv. exact Hv.
Qed.

Lemma constructed_grid_is_rearranged_witness :
  ∃ s r1, init 2 (3 # 10) rs0 = (Ret s, r1) ∧
          data (array (steps 2 (s, r1)).2.1) ≡ₚ data (array s).
Proof.
  eexists _, _. split; [reflexivity|].
  eapply (constructed_grid_is_rearranged 2 (3 # 10) rs0 _ _ 2).
  reflexivity.
Defined.

(** *** A tick without unhappy agent *)

Lemma no_unhappy_locs (s : t) :
  (∀ l, ¬ unhappy_cell s l) → locs_where (unhappy_of s) = [].
Proof.
  intros H. apply elem_of_nil_inv. intros l Hl.
  by apply elem_of_unhappy_locs, H in Hl.
Qed.

Lemma step_settled s r :
  (∀ l, ¬ unhappy_cell s l) → step (s, r) = (Ret (segregation s), (s, r)).
Proof.
  intros H. rewrite step_eq. cbv zeta. rewrite (no_unhappy_locs s H).
  by destruct s.
Qed.

(** X5.  When no agent is unhappy, [step] returns the segregation and
    changes nothing, neither the grid nor the state of the generator (the
    shuffle is skipped): the grid is a fixed point, and every later call
    returns the same value. *)
Theorem step_fixed_point (s : t) (r : RandomState) (k : nat) :
  (∀ l, ¬ unhappy_cell s l) →
  step (s, r) = (Ret (segregation s), (s, r)) ∧
  steps k (s, r) = (Ret (replicate k (segregation s)), (s, r)).
Proof.
  intros H. split; [by apply step_settled|].
  induction k as [|k IH]; [done|].
  cbn [steps replicate]. unfold bind at 1. rewrite step_settled by done.
  unfold bind at 1. by rewrite IH.
Qed.

Lemma step_fixed_point_witness :
  (∀ l, ¬ unhappy_cell grid_red l) ∧
  steps 3 (grid_red, rs0)
  = (Ret (replicate 3 (segregation grid_red)), (grid_red, rs0)).
Proof.
  assert (∀ l, ¬ unhappy_cell grid_red l) as H.
  { intros l Hl%elem_of_unhappy_locs. by apply not_elem_of_nil in Hl. }
  split; [exact H|].
  apply (step_fixed_point grid_red rs0 3 H).
Defined.

(** *** Who moves *)

Lemma getitem_setitem_ne {A} (a a1 : ndarray A) (l l' : loc) (v : A) :
  valid (dim a) l → valid (dim a) l' → l ≠ l' →
  setitem a l' v = Some a1 → getitem a1 l = getitem a l.
Proof.
  intros Hl Hl' Hne. unfold setitem.
  rewrite (flat_index_valid a l') by done. cbn.
  destruct (data a !! _); [|done]. intros [= <-].
  rewrite !getitem_valid by done. cbn.
  rewrite list_lookup_insert_ne; [done|].
  intros Heq. apply Hne. symmetry. by eapply flat_index_inj.
Qed.

Lemma setitem_dim {A} (a a1 : ndarray A) (l : loc) (v : A) :
  setitem a l v = Some a1 → dim a1 = dim a.
Proof.
  unfold setitem. destruct (flat_index a l); [|done]. cbn.
  destruct (data a !! _); [|done]. by intros [= <-].
Qed.

(** The loop of moves writes only to the pending sources and to the cells
    of [empty_locs]. *)
Lemma move_loop_frame ne us : ∀ es a p0 r l,
  loop_inv a us es ne →
  valid (dim a) l → l ∉ us → l ∉ es →
  getitem (array (move_loop ne us es ({| p := p0; array := a |}, r)).2.1) l
  = getitem a l.
Proof.
  induction us as [|u us IH]; intros es a p0 r l Hinv Hl Hus Hes; [done|].
  apply not_elem_of_cons in Hus as [Hlu Hus].
  destruct (decide (0 < ne)) as [Hne|Hne].
  - destruct (randint_spec ne r Hne) as (i & Hrand & Hi).
    destruct (move_once a u us es ne i Hinv Hi)
      as (dest & v & a1 & a2 & Hd & Hg & Hs1 & Hs2 & Hls & Hdim & Hperm
          & Hinv2).
    assert (dest ∈ es) as Hdest.
    { rewrite list_getitem_valid in Hd
        by (rewrite (li_len _ _ _ _ Hinv); done).
      by eapply list_elem_of_lookup_2. }
    destruct (li_es _ _ _ _ Hinv dest Hdest) as [Hvd _].
    destruct (li_us _ _ _ _ Hinv u) as [Hvu _]; [left|].
    assert (getitem a2 l = getitem a l) as Hframe.
    { rewrite (getitem_setitem_ne a1 a2 l u 0); try done.
      - apply (getitem_setitem_ne a a1 l dest v); try done.
        by intros ->.
      - by rewrite (setitem_dim _ _ _ _ Hs1).
      - by rewrite (setitem_dim _ _ _ _ Hs1). }
    rewrite <- Hframe.
    rewrite <- (IH (<[Z.to_nat i := u]> es) a2 p0 (next_raw r).2 l);
      try done.
    + f_equal. f_equal. f_equal.
      cbn [move_loop]. unfold bind at 1.
      unfold rand_result. simpl. rewrite Hrand.
      unfold bind at 1. rewrite Hd. simpl.
      unfold bind at 1. erewrite get_cell_eq by done.
      unfold bind at 1. erewrite set_cell_eq by done.
      unfold bind at 1. erewrite set_cell_eq by done.
      unfold bind at 1. rewrite Hls. simpl.
      unfold bind at 1. simpl.
      unfold bind at 1. unfold assert.
      rewrite bool_decide_true; [done|].
      symmetry. apply Hinv2.
    + by rewrite Hdim.
    + intros [j Hj]%list_elem_of_lookup.
      destruct (decide (j = Z.to_nat i)) as [->|Hji].
      * rewrite list_lookup_insert_eq in Hj.
        -- injection Hj as Hj. by apply Hlu.
        -- pose proof (li_len _ _ _ _ Hinv). lia.
      * rewrite list_lookup_insert_ne in Hj by done.
        apply Hes. by eapply list_elem_of_lookup_2.
  - cbn [move_loop]. unfold bind at 1. unfold rand_result. simpl.
    by rewrite randint_empty_range by lia.
Qed.

(** X6.  [step] moves unhappy agents only: an occupied cell that is not
    unhappy when the call starts holds the same agent when the call ends,
    by a value or by an exception. *)
Theorem step_moves_only_unhappy (s : t) (r : RandomState) (l : loc) (v : Z) :
  wf (array s) → valid (dim (array s)) l →
  getitem (array s) l = Some v → v ≠ 0 → ¬ unhappy_cell s l →
  getitem (array (step (s, r)).2.1) l = Some v.
Proof.
  intros Hwf Hl Hv Hv0 Hhappy. rewrite <- Hv. rewrite step_eq. cbv zeta.
  set (us0 := locs_where (unhappy_of s)).
  assert (∃ us r1,
    (if decide (length us0 ≠ 0%nat)
     then rand (shuffle us0) else ret us0) (s, r) = (Ret us, (s, r1)) ∧
    us ≡ₚ us0) as (us & r1 & Hsh & Hperm).
  { destruct (decide (length us0 ≠ 0%nat)).
    - unfold rand. simpl.
      pose proof (shuffle_Permutation us0 r) as HP.
      destruct (shuffle us0 r) as [us r1]. by exists us, r1.
    - by exists us0, r. }
  unfold bind at 1. rewrite Hsh.
  destruct s as [p0 a]. cbn [array p] in *.
  pose proof (move_loop_frame (np_sum (empty_of a)) us
                (locs_where (empty_of a)) a p0 r1 l) as Hframe.
  unfold bind at 1.
  destruct (move_loop _ us _ _) as [res w'] eqn:E. cbn [fst snd] in Hframe.
  assert (getitem (array w'.1) l = getitem a l) as <-.
  { apply Hframe; try done.
    - by apply (loop_inv_initial {| p := p0; array := a |}).
    - rewrite Hperm. intros Hin. by apply elem_of_unhappy_locs in Hin.
    - intros [_ Hin]%elem_of_locs_where.
      rewrite getitem_empty_of, Hv in Hin by done. cbn in Hin.
      injection Hin as Hin. apply bool_decide_eq_true in Hin. done. }
  by destruct res as [[]|ex|].
Qed.

Lemma step_moves_only_unhappy_witness :
  getitem (array grid3) (0, 0) = Some 1 ∧
  getitem (array (step (grid3, rs0)).2.1) (0, 0) = Some 1.
Proof.
  split; [reflexivity|].
  apply (step_moves_only_unhappy grid3 rs0 (0, 0) 1).
  - split; [simpl; lia|reflexivity].
  - split; simpl; lia.
  - reflexivity.
  - lia.
  - intros H%elem_of_unhappy_locs. revert H.
    apply (bool_decide_unpack _). vm_compute. exact I.
Defined.

End SchellingRuns.

(** ** Schelling: more on the survey *)

Module SchellingSurvey.
Import Schelling SchellingSpec SchellingFacts SurveyFacts SchellingRuns.

Lemma getitem_fractions (a : ndarray Z) l nr nb :
  getitem (correlate2d (arr_map (λ v, bool_decide (v = 1)) a) kernel) l
  = Some nr →
  getitem (correlate2d (arr_map (λ v, bool_decide (v = 2)) a) kernel) l
  = Some nb →
  getitem (count_neighbors a).1.1.2 l
  = Some (if bool_decide (nr + nb = 0) then Fl 0
          else true_divide nr (nr + nb)) ∧
  getitem (count_neighbors a).1.2 l
  = Some (if bool_decide (nr + nb = 0) then Fl 0
          else true_divide nb (nr + nb)).
Proof.
  intros Hr Hb. unfold count_neighbors. cbn [fst snd].
  split;
    repeat (rewrite ?getitem_arr_zip, ?getitem_arr_map by done;
            rewrite ?Hr, ?Hb; cbn [mbind option_bind fmap option_fmap
                                    option_map fst snd]);
    done.
Qed.

Lemma Q_fractions (x y : Z) :
  0 <= x → 0 <= y → x + y ≠ 0 →
  (inject_Z x / inject_Z (x + y) + inject_Z y / inject_Z (x + y) == 1)%Q.
Proof.
  intros Hx Hy Hxy. rewrite inject_Z_plus. field.
  rewrite <- inject_Z_plus. replace 0%Q with (inject_Z 0) by done.
  rewrite inject_Z_injective. done.
Qed.

(** X7.  The arrays [frac_red] and [frac_blue] of the survey hold no NaN:
    over every cell, occupied or not, they are the shares of red and of
    blue agents among the occupied neighbours, two fractions that add up to
    1; over a cell without occupied neighbour both are 0. *)
Theorem count_neighbors_fractions (a : ndarray Z) (l : loc) :
  wf a → valid (dim a) l →
  let nr := count_cells a (λ v, bool_decide (v = 1)) (neighbors (dim a) l) in
  let nb := count_cells a (λ v, bool_decide (v = 2)) (neighbors (dim a) l) in
  let '(_, frac_red, frac_blue, _) := count_neighbors a in
  ∃ qr qb,
    getitem frac_red l = Some (Fl qr) ∧ getitem frac_blue l = Some (Fl qb) ∧
    (0 <= qr <= 1)%Q ∧ (0 <= qb <= 1)%Q ∧
    (nr + nb = 0 → qr = 0%Q ∧ qb = 0%Q) ∧
    (nr + nb ≠ 0 →
     qr = (inject_Z nr / inject_Z (nr + nb))%Q ∧
     qb = (inject_Z nb / inject_Z (nr + nb))%Q ∧
     (qr + qb == 1)%Q).
Proof.
  intros Hwf Hv nr nb.
  destruct (count_neighbors a) as [[[empty fr] fb] fs] eqn:E.
  destruct (getitem_fractions a l nr nb) as [Hr Hb].
  { rewrite correlate2d_getitem by (try apply wf_arr_map; done).
    f_equal. apply sum_mask_count. }
  { rewrite correlate2d_getitem by (try apply wf_arr_map; done).
    f_equal. apply sum_mask_count. }
  rewrite E in Hr, Hb. cbn [fst snd] in Hr, Hb.
  pose proof (count_cells_nonneg a (λ v, bool_decide (v = 1))
                (neighbors (dim a) l)) as Hnr. fold nr in Hnr.
  pose proof (count_cells_nonneg a (λ v, bool_decide (v = 2))
                (neighbors (dim a) l)) as Hnb. fold nb in Hnb.
  case_bool_decide as Hz.
  - exists 0%Q, 0%Q. do 2 (split; [done|]).
    do 2 (split; [done|]). split; done.
  - destruct (true_divide_unit nr nb) as (qr & Hqr & Hqr1); [done..|].
    destruct (true_divide_unit nb nr) as (qb & Hqb & Hqb1); [done..|lia|].
    replace (nb + nr) with (nr + nb) in Hqb by lia.
    exists qr, qb. rewrite Hr, Hb, Hqr, Hqb.
    do 4 (split; [done|]). split; [intros ?; lia|].
    intros _. unfold true_divide in Hqr, Hqb.
    rewrite decide_False in Hqr, Hqb by done.
    injection Hqr as <-. injection Hqb as <-. split_and!; try done.
    by apply Q_fractions.
Qed.

Lemma count_neighbors_fractions_witness :
  ∃ qr qb,
    getitem (count_neighbors (array grid3)).1.1.2 (0, 0) = Some (Fl qr) ∧
    getitem (count_neighbors (array grid3)).1.2 (0, 0) = Some (Fl qb) ∧
    (qr + qb == 1)%Q.
Proof.
  pose proof (count_neighbors_fractions (array grid3) (0, 0)) as H.
  cbv zeta in H.
  destruct (count_neighbors (array grid3)) as [[[empty fr] fb] fs].
  destruct H as (qr & qb & Hr & Hb & _ & _ & _ & Hsum).
  - split; [simpl; lia|reflexivity].
  - split; simpl; lia.
  - exists qr, qb. split_and!; [done..|].
    apply Hsum. vm_compute. discriminate.
Defined.

Lemma finite_values_all_nan (l : list npfloat) :
  (∀ x, x ∈ l → x = NaN) → finite_values l = [].
Proof.
  induction l as [|x l IH]; intros H; [done|].
  unfold finite_values. cbn [omap list_omap].
  rewrite (H x) by left. apply IH. intros y Hy. apply H. by right.
Qed.

(** X8.  [segregation] is NaN exactly when no cell of the grid is occupied
    (on the empty grid, and on a grid without agents); [step] then returns
    NaN and changes nothing. *)
Theorem segregation_nan_iff (s : t) (r : RandomState) :
  wf (array s) →
  (segregation s = NaN ↔ ∀ l, ¬ occupied_cell (array s) l) ∧
  ((∀ l, ¬ occupied_cell (array s) l) → step (s, r) = (Ret NaN, (s, r))).
Proof.
  intros Hwf.
  assert ((∀ l, ¬ occupied_cell (array s) l) → segregation s = NaN) as Hnan.
  { intros Hno. unfold segregation, nanmean.
    rewrite finite_values_all_nan; [done|]. intros x Hx.
    apply elem_of_data_getitem in Hx as (l & Hl & Hg);
      [|by apply wf_frac_same_of].
    rewrite dim_frac_same_of in Hl.
    destruct (getitem_is_Some (array s) l Hwf Hl) as [c Hc].
    destruct (frac_same_range (array s) l c Hwf Hl Hc) as [Hz _].
    destruct (decide (c = 0)) as [->|Hc0].
    - rewrite Hz in Hg by done. by injection Hg.
    - exfalso. apply (Hno l). split; [done|]. by exists c. }
  split; [split; [|done]|].
  - intros Hseg l (Hl & c & Hc & Hc0).
    destruct (nanmean_unit (frac_same_of (array s))) as (q & Hq & _).
    + by apply frac_same_entries.
    + destruct (frac_same_range (array s) l c Hwf Hl Hc) as [_ Hq].
      destruct (Hq Hc0) as (q & Hg & _).
      eapply elem_of_finite_values, getitem_elem_of_data, Hg.
    + unfold segregation in Hseg. congruence.
  - intros Hno. rewrite <- (Hnan Hno). apply step_settled.
    intros l Hl. apply (Hno l). split; [apply Hl|].
    by apply unhappy_occupied.
Qed.

Lemma segregation_nan_iff_witness :
  (∀ l, ¬ occupied_cell (array grid_void) l) ∧
  step (grid_void, rs0) = (Ret NaN, (grid_void, rs0)).
Proof.
  assert (∀ l, ¬ occupied_cell (array grid_void) l) as H.
  { intros l (_ & v & Hg & Hv). apply Hv.
    apply getitem_elem_of_data in Hg. cbn in Hg.
    repeat (apply elem_of_cons in Hg as [->|Hg]; [reflexivity|]).
    by apply not_elem_of_nil in Hg. }
  split; [exact H|].
  apply (segregation_nan_iff grid_void rs0); [|exact H].
  split; [simpl; lia|reflexivity].
Defined.

End SchellingSurvey.

(** ** Sugarscape: the helpers *)

Module SugarscapeParts.
Import Sugarscape SugarscapeSpec SugarscapeChoice SugarscapeInv VisionFacts.
Import OpFacts.

(** *** The visible offsets *)

Lemma shuffle_loop_pos {A} i (x : list A) r :
  pos (shuffle_loop i x r).2 = (pos r + i)%nat.
Proof.
  revert x r. induction i as [|i IH]; intros x r; [cbn; lia|].
  cbn [shuffle_loop]. unfold random_interval, next_raw.
  rewrite IH. cbn. lia.
Qed.

Lemma make_arrays_shape ds : ∀ r,
  pos (make_arrays ds r).2 = (pos r + 3 * length ds)%nat ∧
  length (concat (make_arrays ds r).1) = (4 * length ds)%nat.
Proof.
  induction ds as [|d ds IH]; intros r; [cbn; lia|].
  cbn [make_arrays].
  pose proof (shuffle_loop_pos 3 (ring d) r) as Hp.
  pose proof (shuffle_Permutation (ring d) r) as Hperm.
  unfold make_array. fold (ring d).
  change (shuffle (ring d) r) with (shuffle_loop 3 (ring d) r) in *.
  destruct (shuffle_loop 3 (ring d) r) as [a r1]. cbn [fst snd] in *.
  destruct (IH r1) as [Hp1 Hl1].
  destruct (make_arrays ds r1) as [l r2]. cbn [fst snd concat length] in *.
  split; [lia|].
  rewrite length_app, Hl1, Hperm. cbn. lia.
Qed.

Lemma elem_of_rings (vision : Z) (o : loc) :
  o ∈ (seqZ 1 vision ≫= ring) ↔
  (o.1 = 0 ∨ o.2 = 0) ∧ 1 <= distance o <= vision.
Proof.
  rewrite list_elem_of_bind. unfold distance. split.
  - intros (d & Ho & Hd). apply elem_of_seqZ in Hd. unfold ring in Ho.
    repeat (apply elem_of_cons in Ho as [->|Ho]; [simpl; lia|]).
    by apply not_elem_of_nil in Ho.
  - destruct o as [x y]. cbn [fst snd]. intros [Hax Hd].
    exists (Z.abs x + Z.abs y). rewrite elem_of_seqZ. split; [|lia].
    unfold ring. destruct Hax as [-> | ->]; cbn [Z.abs].
    + rewrite Z.add_0_l. destruct (decide (0 <= y)).
      * rewrite Z.abs_eq by done. do 3 right. left.
      * rewrite Z.abs_neq by lia.
        replace (0, y) with (0, - - y) by (f_equal; lia). do 2 right. left.
    + rewrite Z.add_0_r. destruct (decide (0 <= x)).
      * rewrite Z.abs_eq by done. right. left.
      * rewrite Z.abs_neq by lia.
        replace (x, 0) with (- - x, 0) by (f_equal; lia). left.
Qed.

Lemma NoDup_rings (vision : Z) : NoDup (seqZ 1 vision ≫= ring).
Proof.
  apply NoDup_bind.
  - intros d1 d2 o Hd1 Hd2 Ho1 Ho2.
    apply elem_of_seqZ in Hd1. apply elem_of_seqZ in Hd2.
    assert (distance o = d1) as <-.
    { unfold ring in Ho1.
      repeat (apply elem_of_cons in Ho1 as [->|Ho1];
              [unfold distance; simpl; lia|]).
      by apply not_elem_of_nil in Ho1. }
    unfold ring in Ho2.
    repeat (apply elem_of_cons in Ho2 as [->|Ho2];
            [unfold distance; simpl; lia|]).
    by apply not_elem_of_nil in Ho2.
  - intros d Hd. apply elem_of_seqZ in Hd. unfold ring.
    repeat (apply NoDup_cons; split;
            [rewrite ?elem_of_cons, elem_of_nil;
             intros H; repeat destruct H as [H|H];
             try (injection H; lia); done|]).
    apply NoDup_nil_2.
  - apply NoDup_seqZ.
Qed.

(** X9.  [make_visible_locs(vision)] with [vision] below 1 raises
    [ValueError] ([np.vstack] of no array) and draws nothing.  Otherwise it
    returns [4 * vision] distinct offsets: exactly the offsets along one
    axis at distances 1 to [vision]; each ring costs the three draws of a
    shuffle. *)
Theorem make_visible_locs_shape (vision : Z) (r : RandomState) :
  (vision < 1 → make_visible_locs vision r = (Raise ValueError, r)) ∧
  (1 <= vision →
   ∃ offs r', make_visible_locs vision r = (Ret offs, r') ∧
     length offs = Z.to_nat (4 * vision) ∧ NoDup offs ∧
     (∀ o, o ∈ offs ↔ (o.1 = 0 ∨ o.2 = 0) ∧ 1 <= distance o <= vision) ∧
     draws r' = draws r ∧ pos r' = (pos r + 3 * Z.to_nat vision)%nat).
Proof.
  split; intros Hv.
  - unfold make_visible_locs. by rewrite seqZ_nil by lia.
  - destruct (make_visible_locs_spec vision r Hv) as (offs & Ho & Hperm & _).
    pose proof (make_visible_locs_draws vision r) as Hd.
    unfold make_visible_locs in *.
    destruct (make_arrays_shape (seqZ 1 vision) r) as [Hp Hl].
    destruct (make_arrays (seqZ 1 vision) r) as [arrays r'].
    cbn [fst snd] in *. rewrite length_seqZ in Hp, Hl.
    destruct arrays as [|a arrays]; [done|]. cbn [fst snd] in *.
    injection Ho as <-.
    eexists _, r'. split; [reflexivity|]. split_and!.
    + rewrite Hl. lia.
    + rewrite Hperm. apply NoDup_rings.
    + intros o. rewrite Hperm. apply elem_of_rings.
    + done.
    + done.
Qed.

(** *** The capacity *)

Lemma getitem_make_capacity (n0 : Z) (l : loc) :
  valid n0 l →
  getitem (make_capacity n0) l
  = Some (digitize_sq
            (Z.min ((l.1 - 15) * (l.1 - 15) + (l.2 - 15) * (l.2 - 15))
                   ((l.1 - 35) * (l.1 - 35) + (l.2 - 35) * (l.2 - 35)))
            [21; 16; 11; 6]).
Proof.
  intros Hv. rewrite getitem_valid by done.
  cbn [make_capacity arr_map arr_zip distances_from_sq data dim].
  rewrite list_lookup_fmap, lookup_zip_with, !list_lookup_fmap.
  rewrite lookup_indices by apply Hv. done.
Qed.

Lemma digitize_sq_levels (d2 : Z) :
  let c := digitize_sq d2 [21; 16; 11; 6] in
  0 <= c <= 4 ∧
  (c = 4 ↔ d2 < 36) ∧ (c = 3 ↔ 36 <= d2 < 121) ∧
  (c = 2 ↔ 121 <= d2 < 256) ∧ (c = 1 ↔ 256 <= d2 < 441) ∧
  (c = 0 ↔ 441 <= d2).
Proof.
  unfold digitize_sq. rewrite !filter_cons, filter_nil.
  repeat case_decide; cbn [length]; lia.
Qed.

(** X10.  The capacity of a cell is read off its distance to the nearer of
    the two peaks (15, 15) and (35, 35): 4 below distance 6, then 3, 2 and
    1 below 11, 16 and 21, and 0 from 21 on.  It lies between 0 and 4 and
    is symmetric in the two coordinates. *)
Theorem make_capacity_levels (n0 : Z) (l : loc) :
  valid n0 l →
  let d2 := Z.min ((l.1 - 15) * (l.1 - 15) + (l.2 - 15) * (l.2 - 15))
                  ((l.1 - 35) * (l.1 - 35) + (l.2 - 35) * (l.2 - 35)) in
  ∃ c, getitem (make_capacity n0) l = Some c ∧
       getitem (make_capacity n0) (l.2, l.1) = Some c ∧
       0 <= c <= 4 ∧
       (c = 4 ↔ d2 < 6 * 6) ∧ (c = 3 ↔ 6 * 6 <= d2 < 11 * 11) ∧
       (c = 2 ↔ 11 * 11 <= d2 < 16 * 16) ∧
       (c = 1 ↔ 16 * 16 <= d2 < 21 * 21) ∧ (c = 0 ↔ 21 * 21 <= d2).
Proof.
  intros Hv d2. eexists. split; [by apply getitem_make_capacity|].
  split.
  - rewrite getitem_make_capacity by (destruct Hv; split; done).
    cbn [fst snd]. do 2 f_equal. lia.
  - apply digitize_sq_levels.
Qed.

Lemma make_capacity_levels_witness :
  getitem (make_capacity 50) (15, 15) = Some 4 ∧
  ∃ c, getitem (make_capacity 50) (12, 19) = Some c ∧
       getitem (make_capacity 50) (19, 12) = Some c ∧ 0 <= c <= 4.
Proof.
  split; [vm_compute; reflexivity|].
  destruct (make_capacity_levels 50 (12, 19)) as (c & H1 & H2 & H3 & _).
  - split; simpl; lia.
  - by exists c.
Defined.

(** *** New agents *)

Lemma bind_Ret {S A B} (m : M S A) (k : A → M S B) (w w1 : S) (a : A) :
  m w = (Ret a, w1) → bind m k w = k a w1.
Proof. unfold bind. by intros ->. Qed.

Lemma random_sample_unit (r : RandomState) :
  (0 <= (random_sample r).1 < 1)%Q ∧
  (random_sample r).2 = {| draws := draws r; pos := S (pos r) |}.
Proof.
  unfold random_sample, next_raw. cbn [fst snd]. split; [|done].
  pose proof (Z.mod_pos_bound (Z.of_nat (draws r (pos r))) (2 ^ 53)) as H.
  unfold Qle, Qlt. cbn [Qnum Qden]. lia.
Qed.

Lemma uniform_range (lo hi : Q) (r : RandomState) :
  range_ok lo hi →
  ∃ x, uniform lo hi r = (Ret x, {| draws := draws r; pos := S (pos r) |}) ∧
       ((lo <= hi)%Q → (lo <= x <= hi)%Q).
Proof.
  unfold range_ok, uniform. intros ->.
  destruct (random_sample_unit r) as [[H0 H1] Hr].
  destruct (random_sample r) as [u r']. cbn [fst snd] in *. subst r'.
  eexists. split; [reflexivity|]. intros Hle. split; nra.
Qed.

Lemma uniform_overflow (lo hi : Q) (r : RandomState) :
  ¬ range_ok lo hi → uniform lo hi r = (Raise OverflowError, r).
Proof.
  unfold range_ok, uniform.
  by destruct (is_finite lo && is_finite hi && is_finite (hi - lo)).
Qed.

Lemma range_ok_dec (lo hi : Q) : {range_ok lo hi} + {¬ range_ok lo hi}.
Proof. unfold range_ok. apply bool_eq_dec. Qed.

Lemma rand_result_eq {S A} (f : RandomState → result A * RandomState)
    (s : S) (r r' : RandomState) (res : result A) :
  f r = (res, r') → rand_result f (s, r) = (res, (s, r')).
Proof. unfold rand_result. cbn [fst snd]. by intros ->. Qed.

(** What the constructor of an agent does. *)
Lemma Agent_init_cases (l : loc) (ps : Params) (e : t)
    (h : gmap ref Agent) (r : RandomState) :
  let mv := default 6 (max_vision ps) in
  let mm := default 4%Q (max_metabolism ps) in
  let minl := default 10000%Q (min_lifespan ps) in
  let maxl := default 10000%Q (max_lifespan ps) in
  let mins := default 5%Q (min_sugar ps) in
  let maxs := default 25%Q (max_sugar ps) in
  (mv < 1 ∨ 2 ^ 63 <= mv →
   Agent_init l ps ((e, h), r) = (Raise ValueError, ((e, h), r))) ∧
  (1 <= mv < 2 ^ 63 →
   ¬ (range_ok 1 mm ∧ range_ok minl maxl ∧ range_ok mins maxs) →
   ∃ r', Agent_init l ps ((e, h), r) = (Raise OverflowError, ((e, h), r')) ∧
         draws r' = draws r) ∧
  (1 <= mv < 2 ^ 63 →
   range_ok 1 mm → range_ok minl maxl → range_ok mins maxs →
   ∃ a x r',
     Agent_init l ps ((e, h), r) = (Ret a, ((e, <[a := x]> h), r')) ∧
     h !! a = None ∧ loc_ x = l ∧ age x = 0 ∧ 1 <= vision x <= mv ∧
     ((1 <= mm)%Q → (1 <= metabolism x <= mm)%Q) ∧
     ((minl <= maxl)%Q → (minl <= lifespan x <= maxl)%Q) ∧
     ((mins <= maxs)%Q → (mins <= sugar x <= maxs)%Q) ∧
     draws r' = draws r ∧ pos r' = (pos r + 4)%nat ∧
     ((0 <= mins <= maxs)%Q → (0 <= minl <= maxl)%Q → dead x = false)).
Proof.
  intros mv mm minl maxl mins maxs. unfold Agent_init.
  fold mv mm minl maxl mins maxs.
  set (r1 := {| draws := draws r; pos := S (pos r) |}).
  set (r2 := {| draws := draws r; pos := S (S (pos r)) |}).
  set (r3 := {| draws := draws r; pos := S (S (S (pos r))) |}).
  set (r4 := {| draws := draws r; pos := S (S (S (S (pos r)))) |}).
  set (v := 1 + Z.of_nat (draws r (pos r)) mod (mv + 1 - 1)).
  assert (1 <= mv < 2 ^ 63 →
          rand_result (S := t * gmap ref Agent) (randint2 1 (mv + 1))
            ((e, h), r) = (Ret v, ((e, h), r1))) as E0.
  { intros Hmv. apply rand_result_eq. unfold randint2.
    rewrite decide_True by lia. done. }
  split_and!.
  - intros Hmv. unfold bind at 1. unfold rand_result, randint2.
    cbn [fst snd]. rewrite decide_False by lia. done.
  - intros Hmv Hbad. rewrite (bind_Ret _ _ _ _ _ (E0 Hmv)).
    destruct (range_ok_dec 1 mm) as [H1|H1].
    2:{ exists r1. split; [|done]. unfold bind at 1.
        by rewrite (rand_result_eq _ _ _ _ _ (uniform_overflow _ _ r1 H1)). }
    destruct (uniform_range 1 mm r1 H1) as (m & Em & _).
    rewrite (bind_Ret _ _ _ _ _ (rand_result_eq _ _ _ _ _ Em)).
    destruct (range_ok_dec minl maxl) as [H2|H2].
    2:{ exists r2. split; [|done]. unfold bind at 1.
        by rewrite (rand_result_eq _ _ _ _ _ (uniform_overflow _ _ _ H2)). }
    destruct (uniform_range minl maxl r2 H2) as (ls & Els & _).
    rewrite (bind_Ret _ _ _ _ _ (rand_result_eq _ _ _ _ _ Els)).
    destruct (range_ok_dec mins maxs) as [H3|H3]; [tauto|].
    exists r3. split; [|done]. unfold bind at 1.
    by rewrite (rand_result_eq _ _ _ _ _ (uniform_overflow _ _ _ H3)).
  - intros Hmv H1 H2 H3.
    assert (1 <= v <= mv) as Hv.
    { pose proof (Z.mod_pos_bound (Z.of_nat (draws r (pos r)))
                    (mv + 1 - 1)). lia. }
    rewrite (bind_Ret _ _ _ _ _ (E0 Hmv)).
    destruct (uniform_range 1 mm r1 H1) as (m & Em & Hm).
    rewrite (bind_Ret _ _ _ _ _ (rand_result_eq _ _ _ _ _ Em)).
    destruct (uniform_range minl maxl r2 H2) as (ls & Els & Hls).
    rewrite (bind_Ret _ _ _ _ _ (rand_result_eq _ _ _ _ _ Els)).
    destruct (uniform_range mins maxs r3 H3) as (s & Es & Hsg).
    rewrite (bind_Ret _ _ _ _ _ (rand_result_eq _ _ _ _ _ Es)).
    unfold alloc, bind, get, put, ret, env, heap. cbn [fst snd].
    eexists _, _, r4. split; [reflexivity|]. cbn [loc_ age vision
      metabolism lifespan sugar].
    split_and!; try done.
    + apply not_elem_of_dom, is_fresh.
    + apply Hv.
    + apply Hv.
    + cbn. lia.
    + intros [Hs0 Hs1'] [Hl0 Hl1].
      unfold dead, is_starving, is_old.
      cbn [loc_ age vision metabolism lifespan sugar].
      destruct (Hsg Hs1') as [Hsa _]. destruct (Hls Hl1) as [Hla _].
      destruct (Qlt_le_dec s 0) as [Hlt|_]; [exfalso; nra|].
      destruct (Qlt_le_dec ls (inject_Z 0)) as [Hlt|_]; [|done].
      exfalso. change (inject_Z 0) with 0%Q in Hlt. nra.
Qed.

(** X11.  [Agent(loc, params)] with [max_vision] below 1, or so large that
    [max_vision + 1] exceeds the range of int64, raises [ValueError] and
    creates nothing.  With a vision range that is accepted, bounds of a
    uniform draw that float64 does not hold, or whose difference it does
    not hold, raise [OverflowError], again with no object created.
    Otherwise it creates one new object at [loc], of age 0, with a vision
    in [1, max_vision] and with metabolism, lifespan and sugar inside their
    configured intervals, for four draws; with the default parameters the
    agent is neither starving nor old. *)
Theorem Agent_init_traits (l : loc) (ps : Params) (e : t)
    (h : gmap ref Agent) (r : RandomState) :
  let mv := default 6 (max_vision ps) in
  let mm := default 4%Q (max_metabolism ps) in
  let minl := default 10000%Q (min_lifespan ps) in
  let maxl := default 10000%Q (max_lifespan ps) in
  let mins := default 5%Q (min_sugar ps) in
  let maxs := default 25%Q (max_sugar ps) in
  (mv < 1 ∨ 2 ^ 63 <= mv →
   Agent_init l ps ((e, h), r) = (Raise ValueError, ((e, h), r))) ∧
  (1 <= mv < 2 ^ 63 →
   ¬ (range_ok 1 mm ∧ range_ok minl maxl ∧ range_ok mins maxs) →
   ∃ r', Agent_init l ps ((e, h), r) = (Raise OverflowError, ((e, h), r')) ∧
         draws r' = draws r) ∧
  (1 <= mv < 2 ^ 63 →
   range_ok 1 mm → range_ok minl maxl → range_ok mins maxs →
   ∃ a x r',
     Agent_init l ps ((e, h), r) = (Ret a, ((e, <[a := x]> h), r')) ∧
     h !! a = None ∧ loc_ x = l ∧ age x = 0 ∧ 1 <= vision x <= mv ∧
     ((1 <= mm)%Q → (1 <= metabolism x <= mm)%Q) ∧
     ((minl <= maxl)%Q → (minl <= lifespan x <= maxl)%Q) ∧
     ((mins <= maxs)%Q → (mins <= sugar x <= maxs)%Q) ∧
     draws r' = draws r ∧ pos r' = (pos r + 4)%nat ∧
     ((0 <= mins <= maxs)%Q → (0 <= minl <= maxl)%Q → dead x = false)).
Proof. apply Agent_init_cases. Qed.

End SugarscapeParts.

(** ** Sugarscape: sugar *)

Module SugarFacts.
Import Sugarscape SugarscapeSpec SugarscapeChoice SugarscapeInv VisionFacts.
Import OpFacts SugarscapeParts Samples.

Lemma sumZ_insert (l : list Z) : ∀ k v w,
  l !! k = Some v → sumZ (<[k := w]> l) = sumZ l - v + w.
Proof.
  induction l as [|x l IH]; intros [|k] v w Hk; try done.
  - injection Hk as ->. cbn. lia.
  - cbn in Hk. cbn [sumZ foldr]. fold (sumZ l).
    change (<[S k := w]> (x :: l)) with (x :: <[k := w]> l).
    cbn [sumZ foldr]. fold (sumZ (<[k := w]> l)).
    rewrite (IH k v w Hk). lia.
Qed.

Lemma getitem_setitem {A} (a : ndarray A) (l : loc) (v w : A) :
  getitem a l = Some v →
  ∃ k, flat_index a l = Some k ∧ data a !! k = Some v ∧
       setitem a l w = Some {| dim := dim a; data := <[k := w]> (data a) |}.
Proof.
  unfold getitem, setitem. destruct (flat_index a l) as [k|]; [|done].
  cbn. intros Hk. exists k. by rewrite Hk.
Qed.

(** X12.  [harvest(loc)] returns the level of the cell and sets it to 0:
    the total over the grid falls by what is returned, and no other cell
    changes.  A second call at once returns 0 and changes nothing.  A
    location outside the array raises [IndexError] and changes nothing. *)
Theorem harvest_takes_all (l : loc) (e : t) (h : gmap ref Agent)
    (r : RandomState) :
  (∀ v, getitem (array e) l = Some v →
     ∃ a', harvest l ((e, h), r) = (Ret v, ((set_array e a', h), r)) ∧
       dim a' = dim (array e) ∧
       getitem a' l = Some 0 ∧
       (∀ l', flat_index (array e) l' ≠ flat_index (array e) l →
              getitem a' l' = getitem (array e) l') ∧
       sumZ (data a') = sumZ (data (array e)) - v ∧
       harvest l ((set_array e a', h), r)
       = (Ret 0, ((set_array e a', h), r))) ∧
  (getitem (array e) l = None →
   harvest l ((e, h), r) = (Raise IndexError, ((e, h), r))).
Proof.
  split.
  - intros v Hv.
    destruct (getitem_setitem (array e) l v 0 Hv) as (k & Hk & Hd & Hs).
    set (a' := {| dim := dim (array e); data := <[k := 0]> (data (array e)) |}).
    assert (getitem a' l = Some 0) as Hz.
    { unfold getitem, flat_index in *. cbn [dim data a'].
      destruct (py_index (dim (array e)) l.1) as [i|]; [|done].
      destruct (py_index (dim (array e)) l.2) as [j|]; [|done].
      cbn in *. injection Hk as <-.
      apply list_lookup_insert_eq. by eapply lookup_lt_Some. }
    exists a'. split_and!.
    + by rewrite harvest_eq, Hv, Hs.
    + done.
    + done.
    + intros l' Hne. unfold getitem. change (flat_index a' l') with
        (flat_index (array e) l').
      destruct (flat_index (array e) l') as [k'|]; [|done]. cbn.
      rewrite list_lookup_insert_ne; [done|]. intros ->. by rewrite Hk in Hne.
    + cbn [data a']. rewrite (sumZ_insert _ k v 0) by done. lia.
    + rewrite harvest_eq. cbn [array set_array]. rewrite Hz.
      destruct (getitem_setitem a' l 0 0 Hz) as (k2 & Hk2 & _ & ->).
      change (flat_index a' l) with (flat_index (array e) l) in Hk2.
      assert (k2 = k) as -> by congruence.
      cbn [dim data a']. rewrite list_insert_insert_eq. done.
  - intros Hnone. by rewrite harvest_eq, Hnone.
Qed.

(** *** Growing back *)

Lemma grow_returns (e : t) (h : gmap ref Agent) (r : RandomState) :
  int64 (default 1 (grow_rate (params e))) →
  grow ((e, h), r)
  = (Ret tt,
     ((set_array e
         (arr_zip Z.min
            (arr_map (λ v, wrap64 (v + default 1 (grow_rate (params e))))
                     (array e))
            (capacity e)), h), r)).
Proof. intros H. by rewrite grow_eq, decide_True. Qed.

Lemma grow_iter_env (k : nat) (e : t) (h : gmap ref Agent) (r : RandomState) :
  int64 (default 1 (grow_rate (params e))) →
  ∃ a, Nat.iter k (λ w, (grow w).2) ((e, h), r) = ((set_array e a, h), r) ∧
       dim a = dim (array e).
Proof.
  intros Hg. induction k as [|k (a & IH & Hd)].
  - exists (array e). unfold Nat.iter. cbn [nat_rect]. by destruct e.
  - rewrite Nat.iter_succ, IH, grow_returns by done. cbn [snd]. eexists.
    split; [reflexivity|]. done.
Qed.

(** X13.  [grow] adds the growth rate to every cell, as int64 values are
    added, and caps the sum by the capacity.  A rate outside int64 raises
    [OverflowError] and changes nothing.  For a rate within int64, as long
    as no sum leaves the range of int64 (a rate that is not negative fits
    above the capacity, a negative one has not yet driven the cell below
    the least int64), after [k] calls a cell that held [v], at most its
    capacity [c], holds [min(v + k * grow_rate, c)].  The agents, the
    occupancy index and the generator are not touched. *)
Theorem grow_regrows (k : nat) (e : t) (h : gmap ref Agent)
    (r : RandomState) (l : loc) (v c : Z) :
  dim (array e) = dim (capacity e) →
  getitem (array e) l = Some v → getitem (capacity e) l = Some c →
  v <= c → int64 v → int64 c →
  let g := default 1 (grow_rate (params e)) in
  (¬ int64 g → grow ((e, h), r) = (Raise OverflowError, ((e, h), r))) ∧
  (int64 g → (0 <= g → c + g < 2 ^ 63) →
   (g < 0 → - 2 ^ 63 <= v + Z.of_nat k * g) →
   let w' := Nat.iter k (λ w, (grow w).2) ((e, h), r) in
   getitem (array (env w')) l = Some (Z.min (v + Z.of_nat k * g) c) ∧
   set_array (env w') (array e) = e ∧ heap w' = h ∧ w'.2 = r).
Proof.
  intros Hdim Hv Hc Hvc Hv64 Hc64 g. split.
  { intros Hg. by rewrite grow_eq, decide_False. }
  intros Hg Hup Hdown. cbv zeta.
  assert (∀ j, (j <= k)%nat →
            let w' := Nat.iter j (λ w, (grow w).2) ((e, h), r) in
            getitem (array (env w')) l = Some (Z.min (v + Z.of_nat j * g) c) ∧
            set_array (env w') (array e) = e ∧ heap w' = h ∧ w'.2 = r)
    as H; [|by apply (H k)].
  induction j as [|j IH]; intros Hj; cbv zeta.
  - unfold env, heap, Nat.iter. cbn [nat_rect fst snd].
    split_and!; try done.
    + rewrite Hv. f_equal. lia.
    + by destruct e.
  - rewrite Nat.iter_succ.
    destruct (grow_iter_env j e h r Hg) as (a & Heq & Hda).
    specialize (IH ltac:(lia)). cbv zeta in IH.
    rewrite Heq in IH |- *. unfold env, heap in *.
    cbn [fst snd array set_array] in IH.
    destruct IH as (Hgj & _).
    rewrite grow_returns by done.
    cbn [fst snd array set_array params capacity].
    split_and!; try done.
    + rewrite getitem_arr_zip by (cbn; congruence).
      rewrite getitem_arr_map, Hgj, Hc. cbn. fold g. f_equal.
      unfold int64 in *.
      rewrite wrap64_id; [nia|]. unfold int64. nia.
    + by destruct e.
Qed.

Lemma grow_regrows_witness :
  let e := env w_harvested in
  let h := heap w_harvested in
  let r := w_harvested.2 in
  getitem (array e) (1, 1) = Some 0 ∧
  getitem (array (env (Nat.iter 3 (λ w, (grow w).2) ((e, h), r)))) (1, 1)
  = Some (Z.min (0 + Z.of_nat 3 * default 1 (grow_rate (params e))) 1).
Proof.
  intros e h r.
  assert (dim (array e) = dim (capacity e)) as H1
    by (vm_compute; reflexivity).
  assert (getitem (array e) (1, 1) = Some 0) as H2
    by (vm_compute; reflexivity).
  assert (getitem (capacity e) (1, 1) = Some 1) as H3
    by (vm_compute; reflexivity).
  assert (0 <= 1) as H4 by lia.
  assert (int64 0) as H5 by (unfold int64; lia).
  assert (int64 1) as H6 by (unfold int64; lia).
  assert (default 1 (grow_rate (params e)) = 1) as H7
    by (vm_compute; reflexivity).
  split; [exact H2|].
  refine (proj1 (proj2 (grow_regrows 3 e h r (1, 1) 0 1 H1 H2 H3 H4 H5 H6)
                   _ _ _)).
  - rewrite H7. unfold int64. lia.
  - rewrite H7. lia.
  - rewrite H7. lia.
Defined.

End SugarFacts.

(** ** Sugarscape: agents come and go *)

Module AgentFacts.
Import Sugarscape SugarscapeSpec SugarscapeChoice SugarscapeInv VisionFacts.
Import OpFacts InitFacts ReachFacts SugarscapeParts SugarFacts Samples.
Import SugarscapeClaims Enumerations.

(** X14.  A call of [Agent.step] that returns has moved the agent to its
    own cell or to a cell that no agent occupies, taken what that cell
    held, which leaves the cell at 0 and the total of the grid lower by
    that amount, and added one to the age.  Vision, metabolism and
    lifespan of the agent, the other agents, the population, the occupancy
    index and the capacity are not touched. *)
Theorem Agent_step_effect (a : ref) (x : Agent) (e : t)
    (h : gmap ref Agent) (r : RandomState) (w' : world) :
  h !! a = Some x → Agent_step a ((e, h), r) = (Ret tt, w') →
  ∃ l v y,
    heap w' !! a = Some y ∧
    (∀ b, b ≠ a → heap w' !! b = h !! b) ∧
    (l = loc_ x ∨ l ∉ occupied e) ∧
    loc_ y = l ∧ age y = age x + 1 ∧ vision y = vision x ∧
    metabolism y = metabolism x ∧ lifespan y = lifespan x ∧
    getitem (array e) l = Some v ∧
    getitem (array (env w')) l = Some 0 ∧
    sumZ (data (array (env w'))) = sumZ (data (array e)) - v ∧
    set_array (env w') (array e) = e.
Proof.
  intros Hx Hstep.
  apply (Agent_step_outcome a x) in Hstep as [_ Hres]; [|done].
  destruct Hres as (l & v & a' & Hw & Hl & _ & Hg & Hs).
  destruct w' as [[e' h'] r']. unfold env, heap. cbn [fst snd] in *.
  injection Hw as -> ->.
  destruct (getitem_setitem (array e) l v 0 Hg) as (k & Hk & Hd & Hs').
  rewrite Hs' in Hs. injection Hs as <-.
  exists l, v, (stepped x l v). cbn [array set_array data dim].
  split_and!; try done.
  - by rewrite lookup_insert_eq.
  - intros b Hb. by rewrite lookup_insert_ne.
  - unfold getitem, flat_index in *. cbn [dim data].
    destruct (py_index (dim (array e)) l.1) as [i|]; [|done].
    destruct (py_index (dim (array e)) l.2) as [j|]; [|done].
    cbn in *. injection Hk as <-.
    apply list_lookup_insert_eq. by eapply lookup_lt_Some.
  - rewrite (sumZ_insert _ k v 0) by done. lia.
  - by destruct e.
Qed.

Lemma Agent_step_effect_witness :
  let e := env w0 in
  let h := heap w0 in
  let r := w0.2 in
  ∃ x w', h !! 0%nat = Some x ∧ Agent_step 0%nat ((e, h), r) = (Ret tt, w') ∧
    ∃ l v, getitem (array e) l = Some v ∧
           getitem (array (env w')) l = Some 0.
Proof.
  intros e h r.
  assert (∃ x, h !! 0%nat = Some x) as [x Hx].
  { vm_compute. eexists. reflexivity. }
  assert (Agent_step 0%nat ((e, h), r)
          = (Ret tt, (Agent_step 0%nat ((e, h), r)).2)) as E.
  { apply (result_eta (Agent_step 0%nat ((e, h), r)) tt).
    vm_compute. reflexivity. }
  exists x, (Agent_step 0%nat ((e, h), r)).2.
  split; [exact Hx|]. split; [exact E|].
  destruct (Agent_step_effect 0%nat x e h r _ Hx E)
    as (l & v & y & _ & _ & _ & _ & _ & _ & _ & _ & H1 & H2 & _).
  exists l, v. split; [exact H1|exact H2].
Defined.

(** X15.  [add_agent], when it returns, has appended one new object to the
    population, at a cell of the grid that was free, and added that cell to
    the occupancy index: both grow by one, and the index still matches the
    population.  The other agents and the sugar are not touched.  When it
    raises ([n] below 1, or trait parameters that [Agent] rejects: a
    [max_vision] outside [1, 2 ^ 63) or a uniform range that float64 does
    not hold) or does not return, nothing but the generator has changed. *)
Theorem add_agent_appends (fuel : nat) (e : t) (h : gmap ref Agent)
    (r : RandomState) (res : result ref) (w' : world) :
  Inv e h → add_agent fuel ((e, h), r) = (res, w') →
  match res with
  | Ret a =>
      ∃ x, heap w' = <[a := x]> h ∧ h !! a = None ∧ (a ∉ agents e) ∧
           agents (env w') = agents e ++ [a] ∧
           occupied (env w') = {[loc_ x]} ∪ occupied e ∧
           (loc_ x ∉ occupied e) ∧ valid (n e) (loc_ x) ∧
           size (occupied (env w')) = S (size (occupied e)) ∧
           array (env w') = array e ∧
           (∀ b, b ∈ agents e → heap w' !! b = h !! b) ∧
           Inv (env w') (heap w')
  | Raise _ => (n e <= 0 ∨ ¬ traits_ok (params e)) ∧ w'.1 = (e, h)
  | Diverge => w'.1 = (e, h)
  end.
Proof.
  intros HI Hadd. apply add_agent_outcome in Hadd as [_ Hres].
  destruct res as [a|ex|]; [| |done].
  - destruct Hres as (x & Hw & Hnew & Hfree & Hv & _ & _).
    destruct w' as [[e' h'] r']. unfold env, heap. cbn [fst snd] in *.
    injection Hw as -> ->.
    assert (a ∉ agents e) as Hnotin.
    { intros Hin. destruct (inv_alloc _ _ _ HI a Hin). congruence. }
    exists x. cbn [agents occupied array set_agents set_occupied].
    split_and!; try done.
    + rewrite size_union by (by apply disjoint_singleton_l).
      by rewrite size_singleton.
    + intros b Hb. rewrite lookup_insert_ne; [done|]. by intros ->.
    + by apply bijection_add.
  - destruct Hres as [HC Hw]. split; [|done].
    unfold Cfg in HC. destruct (decide (0 < n e)); [|left; lia].
    right. intros ?. by apply HC.
Qed.

Lemma add_agent_appends_witness :
  let e := env w0 in
  let h := heap w0 in
  let r := w0.2 in
  ∃ a w', add_agent 9 ((e, h), r) = (Ret a, w') ∧
          agents (env w') = agents e ++ [a] ∧
          size (occupied (env w')) = S (size (occupied e)).
Proof.
  intros e h r.
  assert (Inv e h) as HI by apply (reachable_facts 3 ps0 w0 reachable_w0).
  assert (∃ a, (add_agent 9 ((e, h), r)).1 = Ret a) as [a Ha].
  { vm_compute. eexists. reflexivity. }
  pose proof (result_eta (add_agent 9 ((e, h), r)) a Ha) as E.
  exists a, (add_agent 9 ((e, h), r)).2. split; [exact E|].
  destruct (add_agent_appends 9 e h r (Ret a) _ HI E)
    as (x & _ & _ & _ & H1 & _ & _ & _ & H2 & _).
  split; [exact H1|exact H2].
Defined.

(** *** The constructor *)

Lemma create_returns (locs : list loc) (ps : Params) e (idx : list Z) :
  traits_ok ps →
  (∀ i, i ∈ idx → 0 <= i < Z.of_nat (length locs)) →
  ∀ h r, ∃ ags w',
    list_comp (λ i, bind (or_raise IndexError (list_getitem locs i))
                         (λ l, Agent_init l ps)) idx ((e, h), r)
    = (Ret ags, w').
Proof.
  induction idx as [|i idx IH]; intros Hmv Hvalid h r.
  - by eexists _, _.
  - cbn [list_comp]. unfold bind at 1. unfold bind at 1.
    assert (0 <= i < Z.of_nat (length locs)) as Hi by (apply Hvalid; left).
    rewrite list_getitem_valid by done.
    destruct (lookup_lt_is_Some_2 locs (Z.to_nat i)) as [l Hl]; [lia|].
    rewrite Hl. cbn [or_raise ret].
    destruct (Agent_init_cases l ps e h r) as (_ & _ & Hret).
    destruct Hmv as (Hmv & H1 & H2 & H3).
    destruct (Hret Hmv H1 H2 H3) as (a & x & r' & -> & _).
    assert (traits_ok ps) as Hok by done.
    unfold bind at 1.
    destruct (IH Hok (λ j Hj, Hvalid j (list_elem_of_further _ _ _ Hj))
                 (<[a := x]> h) r') as (ags & w' & ->).
    by eexists _, _.
Qed.

Lemma init_cases (n0 : Z) (ps : Params) (r : RandomState) :
  0 <= n0 →
  let box := default (n0, n0) (starting_box ps) in
  let k := default 400 (num_agents ps) in
  let area := Z.of_nat (Z.to_nat box.1 * Z.to_nat box.2) in
  let mv := default 6 (max_vision ps) in
  let locs := (shuffle (make_locs box.1 box.2) r).1 in
  (area < k → (init n0 ps r).1 = Raise AssertionError) ∧
  (0 < k <= area → mv < 1 ∨ 2 ^ 63 <= mv →
   (init n0 ps r).1 = Raise ValueError) ∧
  (0 < k <= area → 1 <= mv < 2 ^ 63 → ¬ traits_ok ps →
   (init n0 ps r).1 = Raise OverflowError) ∧
  (k <= area → k <= 0 ∨ traits_ok ps →
   ∃ w', init n0 ps r = (Ret tt, w') ∧
     Forall2 (λ i a, ∃ x, heap w' !! a = Some x ∧
                          locs !! Z.to_nat i = Some (loc_ x))
             (seqZ 0 k) (agents (env w'))).
Proof.
  intros Hn0 box k area mv locs.
  destruct (init n0 ps r) as [res wf] eqn:E. cbn [fst].
  unfold init in E. rewrite decide_False in E by lia.
  unfold make_agents in E. unfold bind at 1 in E. rewrite get_env_eq in E.
  cbn [array params] in E.
  change (dim (make_capacity n0)) with n0 in E. fold box in E.
  unfold bind at 1 in E. unfold rand in E. cbn [fst snd] in E.
  pose proof (shuffle_Permutation (make_locs box.1 box.2) r) as HP.
  fold locs in HP. subst locs.
  destruct (shuffle (make_locs box.1 box.2) r) as [locs r0].
  cbn [fst snd] in *.
  assert (Z.of_nat (length locs) = area) as Hlen.
  { rewrite HP. unfold make_locs. by rewrite length_indices_gen. }
  unfold bind at 1 in E. unfold assert in E. fold k in E.
  case_bool_decide as Hnum.
  2:{ injection E as <- <-. split_and!; [done|lia..]. }
  cbn [ret] in E. unfold bind at 1 in E.
  split_and!; [lia| | |].
  - intros Hk Hmv.
    rewrite seqZ_cons in E by lia. cbn [list_comp] in E.
    unfold bind at 1 in E. unfold bind at 1 in E.
    rewrite list_getitem_valid in E by lia.
    destruct (lookup_lt_is_Some_2 locs (Z.to_nat 0)) as [l Hl]; [lia|].
    rewrite Hl in E. cbn [or_raise ret] in E.
    destruct (Agent_init_cases l ps
                {| n := n0; params := ps; agent_count_seq := [];
                   capacity := make_capacity n0; array := make_capacity n0;
                   agents := []; occupied := ∅ |} ∅ r0) as [Hraise _].
    rewrite (Hraise Hmv) in E. by injection E as <- _.
  - intros Hk Hmv Hbad.
    rewrite seqZ_cons in E by lia. cbn [list_comp] in E.
    unfold bind at 1 in E. unfold bind at 1 in E.
    rewrite list_getitem_valid in E by lia.
    destruct (lookup_lt_is_Some_2 locs (Z.to_nat 0)) as [l Hl]; [lia|].
    rewrite Hl in E. cbn [or_raise ret] in E.
    destruct (Agent_init_cases l ps
                {| n := n0; params := ps; agent_count_seq := [];
                   capacity := make_capacity n0; array := make_capacity n0;
                   agents := []; occupied := ∅ |} ∅ r0) as (_ & Hraise & _).
    destruct (Hraise Hmv) as (r' & Hr & _).
    { intros (? & ? & ?). by apply Hbad. }
    rewrite Hr in E. by injection E as <- _.
  - intros _ Hok.
    match type of E with context [list_comp ?F ?l ?w] =>
      destruct (list_comp F l w) as [res1 [[e1 h1] r1]] eqn:E1 end.
    assert (∃ ags, res1 = Ret ags) as [ags ->].
    { destruct Hok as [Hk|Hmv].
      - rewrite seqZ_nil in E1 by done. injection E1 as <- _. by eexists.
      - edestruct (create_returns locs ps) as (ags & w' & Hret);
          [exact Hmv| |rewrite Hret in E1; injection E1 as <- _; by eexists].
        intros i Hi. apply elem_of_seqZ in Hi. lia. }
    pose proof E1 as E1'. apply create_outcome in E1'.
    2:{ intros i Hi. apply elem_of_seqZ in Hi. lia. }
    destruct E1' as (h' & [= -> ->] & HF & Hnd & _ & _).
    destruct (created_locs _ _ _ _ _ HF) as (ls & H1 & H2).
    unfold bind at 1 in E. rewrite (read_locs_outcome _ _ _ ags ls H1) in E.
    unfold bind at 1 in E. rewrite get_env_eq in E. rewrite put_env_eq in E.
    injection E as <- <-.
    eexists. split; [reflexivity|]. unfold env, heap. cbn [fst snd agents
      set_agents set_occupied].
    eapply Forall2_impl; [exact HF|].
    intros i a (x & Hx & _ & Hl & _). by exists x.
Qed.

(** X16.  [Sugarscape(n, **params)] places [num_agents] agents on the first
    cells of the shuffled starting box: as many agents as asked for, each
    inside the box, no two on one cell, on a grid at capacity with an empty
    time series.  More agents than the box has cells is an
    [AssertionError]; a negative [n] is a [ValueError]; with an agent to
    create, a [max_vision] outside [1, 2 ^ 63) is a [ValueError] and a
    uniform range that float64 does not hold an [OverflowError]. *)
Theorem init_population (n0 : Z) (ps : Params) (r : RandomState) :
  let box := default (n0, n0) (starting_box ps) in
  let k := default 400 (num_agents ps) in
  let area := Z.of_nat (Z.to_nat box.1 * Z.to_nat box.2) in
  let mv := default 6 (max_vision ps) in
  (n0 < 0 → (init n0 ps r).1 = Raise ValueError) ∧
  (0 <= n0 → area < k → (init n0 ps r).1 = Raise AssertionError) ∧
  (0 <= n0 → 0 < k <= area → mv < 1 ∨ 2 ^ 63 <= mv →
   (init n0 ps r).1 = Raise ValueError) ∧
  (0 <= n0 → 0 < k <= area → 1 <= mv < 2 ^ 63 → ¬ traits_ok ps →
   (init n0 ps r).1 = Raise OverflowError) ∧
  (0 <= n0 → k <= area → k <= 0 ∨ traits_ok ps →
   ∃ w', init n0 ps r = (Ret tt, w') ∧
     n (env w') = n0 ∧
     array (env w') = make_capacity n0 ∧
     capacity (env w') = make_capacity n0 ∧
     agent_count_seq (env w') = [] ∧
     length (agents (env w')) = Z.to_nat k ∧
     Inv (env w') (heap w') ∧
     (∀ a, a ∈ agents (env w') →
        ∃ x, heap w' !! a = Some x ∧
             0 <= (loc_ x).1 < box.1 ∧ 0 <= (loc_ x).2 < box.2)).
Proof.
  intros box k area mv. split_and!.
  - intros Hn. unfold init. by rewrite decide_True.
  - intros Hn. by apply (init_cases n0 ps r Hn).
  - intros Hn. by apply (init_cases n0 ps r Hn).
  - intros Hn. by apply (init_cases n0 ps r Hn).
  - intros Hn Hk Hok.
    destruct (init_cases n0 ps r Hn) as (_ & _ & _ & Hret).
    destruct (Hret Hk Hok) as ([[e h] r'] & Hinit & HF).
    exists ((e, h), r'). split; [done|].
    pose proof (init_outcome _ _ _ _ _ _ Hinit)
      as (HI & Hn' & _ & Hc & Ha & Hseq & _ & Hlen & _).
    unfold env, heap in *. cbn [fst snd] in *.
    split_and!; try done.
    intros a [j Hj]%list_elem_of_lookup.
    destruct (Forall2_lookup_r _ _ _ _ _ HF Hj) as (i & _ & x & Hx & Hl).
    exists x. split; [done|].
    apply list_elem_of_lookup_2 in Hl.
    pose proof (shuffle_Permutation (make_locs box.1 box.2) r) as HP.
    unfold box in *. rewrite HP in Hl.
    by apply elem_of_indices in Hl.
Qed.

End AgentFacts.

(** ** Sugarscape: more on a tick *)

Module TickFacts.
Import Sugarscape SugarscapeSpec SugarscapeChoice SugarscapeInv VisionFacts.
Import SugarscapeVisit OpFacts InitFacts ReachFacts SugarscapeParts SugarFacts.
Import Samples SugarscapeClaims Termination.

(** *** The cell under an agent *)

Lemma zeroed_getitem_zero (a a' : ndarray Z) (l : loc) :
  zeroed a a' → getitem a l = Some 0 → getitem a' l = Some 0.
Proof.
  intros [Hd HF]. unfold getitem, flat_index. rewrite Hd.
  destruct (py_index (dim a) l.1) as [i|]; [|done].
  destruct (py_index (dim a) l.2) as [j|]; [|done]. cbn.
  intros Hk. destruct (Forall2_lookup_l _ _ _ _ _ HF Hk) as (y & -> & Hy).
  f_equal. lia.
Qed.

Lemma visit_prefix_zero rp a x e h r b w' :
  Inv e h → a ∈ agents e → h !! a = Some x →
  visit_prefix rp a ((e, h), r) = (Ret b, w') →
  ∃ l v, heap w' !! a = Some (stepped x l v) ∧
         getitem (array (env w')) l = Some 0.
Proof.
  intros HI Ha Hx. unfold visit_prefix.
  unfold bind at 1. rewrite get_agent_eq, Hx.
  unfold bind at 1. rewrite occupied_remove_eq.
  rewrite decide_True by (by eapply Inv_loc_occupied).
  unfold bind at 1.
  set (e1 := set_occupied e (occupied e ∖ {[loc_ x]})).
  destruct (Agent_step a ((e1, h), r)) as [res1 [[e2 h2] r2]] eqn:E1.
  apply (Agent_step_outcome a x) in E1 as [_ Hres1]; [|done].
  cbn [fst snd] in *.
  destruct res1 as [[]|ex|]; [|done..].
  destruct Hres1 as (l & v & a' & [= -> ->] & _ & _ & Hg & Hs).
  assert (getitem a' l = Some 0) as Hz.
  { destruct (getitem_setitem (array e1) l v 0 Hg) as (k & Hk & Hd & Hs').
    rewrite Hs' in Hs. injection Hs as <-.
    unfold getitem. change (flat_index _ l) with (flat_index (array e1) l).
    rewrite Hk. cbn. apply list_lookup_insert_eq. by eapply lookup_lt_Some. }
  unfold bind at 1. rewrite get_agent_eq, lookup_insert_eq.
  destruct (is_starving (stepped x l v) || is_old (stepped x l v)).
  - unfold bind at 1. rewrite agents_remove_eq.
    cbn [agents set_array e1 set_occupied].
    destruct (list_remove a (agents e)) as [ags'|]; [|done].
    intros [= _ <-]. exists l, v. unfold env, heap. cbn [fst snd].
    by rewrite lookup_insert_eq.
  - unfold bind at 1. rewrite get_env_eq.
    unfold bind at 1. rewrite put_env_eq.
    intros [= _ <-]. exists l, v. unfold env, heap. cbn [fst snd].
    by rewrite lookup_insert_eq.
Qed.

Lemma visit_zero fuel rp a x e h r w' :
  Inv e h → a ∈ agents e → h !! a = Some x →
  visit fuel rp a ((e, h), r) = (Ret tt, w') →
  ∃ l v, heap w' !! a = Some (stepped x l v) ∧
         getitem (array (env w')) l = Some 0.
Proof.
  intros HI Ha Hx. rewrite visit_factor.
  destruct (visit_prefix rp a ((e, h), r)) as [res1 w1] eqn:E1.
  destruct res1 as [b|ex|]; [|done..].
  pose proof (visit_prefix_outcome rp a x _ _ _ _ _ HI Ha Hx E1)
    as [_ (e' & l' & v' & Hw1 & _)].
  destruct (visit_prefix_zero rp a x e h r b w1 HI Ha Hx E1)
    as (l & v & Hl & Hz).
  destruct w1 as [[e1 h1] r1]. unfold env, heap in *. cbn [fst snd] in *.
  destruct b.
  - unfold bind.
    destruct (add_agent fuel ((e1, h1), r1)) as [res2 w2] eqn:E2.
    apply add_agent_outcome in E2 as [_ Hres2].
    destruct res2 as [a2|ex|]; [|done..].
    destruct Hres2 as (y & Hw2 & Hnew & _).
    intros [= <-]. rewrite Hw2. cbn [fst snd array set_agents set_occupied].
    exists l, v. split; [|done].
    rewrite lookup_insert_ne; [done|]. intros ->. congruence.
  - intros [= <-]. by exists l, v.
Qed.

Lemma agents_loop_zero fuel rp rest : ∀ e h r w',
  Inv e h → NoDup rest → (∀ b, b ∈ rest → b ∈ agents e) →
  agents_loop fuel rp rest ((e, h), r) = (Ret tt, w') →
  ∀ b, b ∈ rest →
    ∃ y, heap w' !! b = Some y ∧
         getitem (array (env w')) (loc_ y) = Some 0.
Proof.
  induction rest as [|a rest IH]; intros e h r w' HI Hnd Hsub.
  { intros _ b Hb. by apply not_elem_of_nil in Hb. }
  apply NoDup_cons in Hnd as [Ha Hnd].
  assert (a ∈ agents e) as Hin by (apply Hsub; left).
  destruct (inv_alloc _ _ _ HI a Hin) as [x Hx].
  cbn [agents_loop]. unfold bind at 1.
  destruct (visit fuel rp a ((e, h), r)) as [res1 [[e1 h1] r1]] eqn:E1.
  destruct res1 as [[]|ex|]; [|done..].
  pose proof (visit_outcome fuel rp a x _ _ _ _ _ HI Hin Hx E1)
    as [_ (e1' & h1' & l1 & v1 & [= <- <-] & HI1 & Hev1 & Hy & _ & Hframe1
           & _)].
  destruct (visit_zero fuel rp a x e h r _ HI Hin Hx E1)
    as (l & v & Hl & Hz).
  unfold env, heap in Hl, Hz. cbn [fst snd] in Hl, Hz.
  assert (∀ b, b ∈ rest → b ∈ agents e1) as Hsub1.
  { intros b Hb. assert (b ≠ a) by (by intros ->).
    apply Hframe1; [done| |by apply Hsub; right].
    apply (inv_alloc _ _ _ HI). apply Hsub. by right. }
  intros E2 b Hb.
  pose proof (agents_loop_outcome fuel rp rest _ _ _ _ _ HI1 Hnd Hsub1 E2)
    as [_ (e2 & h2 & Hw' & _ & Hev2 & _ & Hframe2 & _)].
  apply elem_of_cons in Hb as [->|Hb].
  - destruct w' as [[e' h'] r']. unfold env, heap. cbn [fst snd] in *.
    injection Hw' as -> ->.
    destruct (Hframe2 a Ha) as [Hh _]; [by rewrite Hl|].
    exists (stepped x l v). split; [congruence|].
    cbn [loc_ stepped set_age set_sugar set_loc].
    eapply zeroed_getitem_zero; [apply (ev_zeroed _ _ _ _ Hev2)|done].
  - by apply (IH e1 h1 r1 w' HI1 Hnd Hsub1 E2).
Qed.

(** X17.  When [step] returns, the cell on which an agent of the starting
    population ended its move has been emptied and has grown back once: it
    holds the growth rate, or its capacity where that is less.  An agent
    that stays put therefore finds at most the growth rate on its cell at
    the next tick. *)
Theorem step_leaves_grow_rate (n0 : Z) (ps : Params) (fuel : nat)
    (w w' : world) (v : Z) (a : ref) :
  reachable n0 ps w → step fuel w = (Ret v, w') → a ∈ agents (env w) →
  ∃ y c, heap w' !! a = Some y ∧
         getitem (capacity (env w')) (loc_ y) = Some c ∧
         getitem (array (env w')) (loc_ y)
         = Some (Z.min (default 1 (grow_rate ps)) c).
Proof.
  intros Hreach Hstep Ha.
  pose proof (reachable_facts _ _ _ Hreach)
    as (HI & _ & Hp & _ & _ & _ & _ & Hu & _).
  destruct w as [[e h] r]. unfold env, heap in *. cbn [fst snd] in *.
  unfold step in Hstep. unfold bind at 1 in Hstep.
  rewrite get_env_eq in Hstep.
  unfold bind at 1 in Hstep. unfold rand in Hstep. cbn [fst snd] in Hstep.
  pose proof (permutation_Permutation (agents e) r) as HP.
  unfold permutation in *.
  destruct (shuffle (agents e) r) as [order r0]. cbn [fst snd] in *.
  unfold bind at 1 in Hstep.
  destruct (agents_loop fuel (default false (replace (params e))) order
              ((e, h), r0)) as [res1 [[e1 h1] r1]] eqn:E1.
  destruct res1 as [[]|ex|]; [|done..].
  assert (NoDup order) as Hnd by (rewrite HP; apply HI).
  assert (∀ b, b ∈ order → b ∈ agents e) as Hsub
    by (intros b; by rewrite HP).
  pose proof (agents_loop_outcome _ _ _ _ _ _ _ _ HI Hnd Hsub E1)
    as [_ (e1' & h1' & [= <- <-] & _ & Hev & _)].
  destruct (agents_loop_zero _ _ _ _ _ _ _ HI Hnd Hsub E1 a)
    as (y & Hy & Hz); [by rewrite HP|].
  unfold env, heap in Hy, Hz. cbn [fst snd] in Hy, Hz.
  unfold bind at 1 in Hstep. rewrite get_env_eq in Hstep.
  unfold bind at 1 in Hstep. rewrite put_env_eq in Hstep.
  unfold bind at 1 in Hstep. rewrite grow_eq in Hstep.
  cbn [params set_agent_count_seq] in Hstep.
  destruct (decide (int64 (default 1 (grow_rate (params e1)))))
    as [Hg64|]; [|done].
  unfold bind at 1 in Hstep. rewrite get_env_eq in Hstep.
  injection Hstep as _ <-. cbn [fst snd capacity array set_array
    set_agent_count_seq params].
  assert (bounded_from (λ _, True) e1) as Hb1.
  { destruct Hu as [Hd HF]. destruct (ev_zeroed _ _ _ _ Hev) as [Hd1 HZ].
    split.
    - rewrite (ev_capacity _ _ _ _ Hev). congruence.
    - rewrite (ev_capacity _ _ _ _ Hev).
      revert HZ. generalize (data (array e1)).
      induction HF as [|u c l k (_ & Huc & Hc) _ IH]; intros l' HZ;
        inv HZ; constructor; [|by apply IH].
      match goal with H : _ ∨ _ |- _ => destruct H as [->| ->] end;
        split_and!; first [done|lia]. }
  destruct (bounded_getitem _ _ _ _ Hb1 Hz) as (c & Hc & _ & _).
  exists y, c. split_and!; [done..|].
  rewrite getitem_arr_zip by (cbn; apply Hb1).
  rewrite getitem_arr_map, Hz, Hc. cbn.
  rewrite Z.add_0_l, wrap64_id by done.
  rewrite (ev_params _ _ _ _ Hev), Hp. f_equal.
Qed.

Lemma step_leaves_grow_rate_witness :
  ∃ y c, heap w1 !! 0%nat = Some y ∧
         getitem (capacity (env w1)) (loc_ y) = Some c ∧
         getitem (array (env w1)) (loc_ y)
         = Some (Z.min (default 1 (grow_rate ps0)) c).
Proof.
  apply (step_leaves_grow_rate 3 ps0 5 w0 w1 3 0%nat reachable_w0 step_w0).
  apply (bool_decide_unpack _). vm_compute. exact I.
Defined.

(** *** Without replacement *)

Lemma list_remove_sublist (a : ref) (l : list ref) : ∀ l',
  list_remove a l = Some l' → l' `sublist_of` l.
Proof.
  induction l as [|b l IH]; intros l'; [done|]. cbn [list_remove].
  destruct (decide (a = b)) as [->|Hne].
  - intros [= ->]. by apply sublist_cons.
  - destruct (list_remove a l) as [l''|]; [|done]. cbn.
    intros [= <-]. apply sublist_skip. by apply IH.
Qed.

Lemma visit_no_replace fuel a x e h r res w' :
  Inv e h → a ∈ agents e → h !! a = Some x →
  visit fuel false a ((e, h), r) = (res, w') →
  res ≠ Diverge ∧ visit 0 false a ((e, h), r) = (res, w') ∧
  (res = Ret tt →
   agents (env w') `sublist_of` agents e ∧ dom (heap w') = dom h).
Proof.
  intros HI Ha Hx. rewrite !visit_factor.
  destruct (visit_prefix false a ((e, h), r)) as [res1 w1] eqn:E1.
  pose proof (visit_prefix_outcome false a x _ _ _ _ _ HI Ha Hx E1)
    as [_ Hres1].
  destruct res1 as [b|ex|]; [| |done].
  - destruct Hres1 as (e' & l & v & Hw1 & _ & _ & _ & _ & _ & _ & Hb & Hags
                       & _).
    rewrite andb_false_r in Hb. subst b. intros [= <- <-].
    split_and!; [done..|]. intros _.
    unfold env, heap. rewrite Hw1. cbn [fst snd]. split.
    + destruct (dead (stepped x l v)).
      * destruct Hags as [Hrem _]. by apply list_remove_sublist in Hrem.
      * by rewrite Hags.
    + by apply dom_insert_lookup_L.
  - intros [= <- <-]. done.
Qed.

Lemma agents_loop_no_replace fuel rest : ∀ e h r res w',
  Inv e h → NoDup rest → (∀ b, b ∈ rest → b ∈ agents e) →
  agents_loop fuel false rest ((e, h), r) = (res, w') →
  res ≠ Diverge ∧ agents_loop 0 false rest ((e, h), r) = (res, w') ∧
  (res = Ret tt →
   agents (env w') `sublist_of` agents e ∧ dom (heap w') = dom h).
Proof.
  induction rest as [|a rest IH]; intros e h r res w' HI Hnd Hsub.
  { intros [= <- <-]. done. }
  apply NoDup_cons in Hnd as [Ha Hnd].
  assert (a ∈ agents e) as Hin by (apply Hsub; left).
  destruct (inv_alloc _ _ _ HI a Hin) as [x Hx].
  cbn [agents_loop]. unfold bind.
  destruct (visit fuel false a ((e, h), r)) as [res1 [[e1 h1] r1]] eqn:E1.
  destruct (visit_no_replace fuel a x _ _ _ _ _ HI Hin Hx E1)
    as (Hnd1 & -> & Hsub1).
  destruct res1 as [[]|ex|]; [| |done].
  - pose proof (visit_outcome fuel false a x _ _ _ _ _ HI Hin Hx E1)
      as [_ (e1' & h1' & l1 & v1 & [= <- <-] & HI1 & _ & _ & _ & Hframe1
             & _)].
    intros E2.
    destruct (IH e1 h1 r1 res w' HI1 Hnd) as (Hnd2 & -> & Hsub2); [|done|].
    { intros b Hb. assert (b ≠ a) by (by intros ->).
      apply Hframe1; [done| |by apply Hsub; right].
      apply (inv_alloc _ _ _ HI). apply Hsub. by right. }
    split_and!; [done..|]. intros Hres.
    destruct (Hsub1 eq_refl) as [Hs1 Hd1].
    destruct (Hsub2 Hres) as [Hs2 Hd2].
    unfold env, heap in *. cbn [fst snd] in *.
    split; [by etrans|congruence].
  - intros [= <- <-]. done.
Qed.

(** X18.  Without [replace], [step] never calls [random_loc]: it ends by a
    value or by an exception whatever the draws, and the budget of attempts
    plays no part.  When it returns, the population is what is left of the
    former one, in the same order: no object was created, nobody came back,
    and every agent left is alive, with a balance that is not negative and
    an age within its lifespan.  The count returned is appended to the time
    series. *)
Theorem step_without_replace (n0 : Z) (ps : Params) (fuel : nat) (w : world) :
  reachable n0 ps w → default false (replace ps) = false →
  (step fuel w).1 ≠ Diverge ∧ step fuel w = step 0 w ∧
  ∀ v w', step fuel w = (Ret v, w') →
    agents (env w') `sublist_of` agents (env w) ∧
    dom (heap w') = dom (heap w) ∧
    0 <= v <= Z.of_nat (length (agents (env w))) ∧
    agent_count_seq (env w') = agent_count_seq (env w) ++ [v] ∧
    ∀ a, a ∈ agents (env w') →
      ∃ y, heap w' !! a = Some y ∧
           (0 <= sugar y)%Q ∧ (inject_Z (age y) <= lifespan y)%Q.
Proof.
  intros Hreach Hrp.
  pose proof (reachable_facts _ _ _ Hreach) as (HI & _ & Hp & _).
  destruct w as [[e h] r]. unfold env, heap in *. cbn [fst snd] in *.
  assert (∀ f, step f ((e, h), r)
            = bind (agents_loop f false (shuffle (agents e) r).1)
                (λ _, bind get_env (λ e1,
                   bind (put_env (set_agent_count_seq e1
                           (agent_count_seq e1
                              ++ [Z.of_nat (length (agents e1))])))
                     (λ _, bind grow (λ _, bind get_env (λ e2,
                        ret (Z.of_nat (length (agents e2))))))))
                ((e, h), (shuffle (agents e) r).2)) as Hstep.
  { intros f. unfold step. unfold bind at 1. rewrite get_env_eq.
    rewrite Hp, Hrp. unfold bind at 1. unfold rand, permutation.
    cbn [fst snd]. by destruct (shuffle (agents e) r). }
  pose proof (permutation_Permutation (agents e) r) as HP.
  unfold permutation in HP.
  destruct (shuffle (agents e) r) as [order r0]. cbn [fst snd] in *.
  assert (NoDup order) as Hnd by (rewrite HP; apply HI).
  assert (∀ b, b ∈ order → b ∈ agents e) as Hsub
    by (intros b; by rewrite HP).
  destruct (agents_loop fuel false order ((e, h), r0))
    as [res1 [[e1 h1] r1]] eqn:E1.
  destruct (agents_loop_no_replace _ _ _ _ _ _ _ HI Hnd Hsub E1)
    as (Hnd1 & E0 & Hsub1).
  assert (step fuel ((e, h), r) = step 0 ((e, h), r)) as Hfuel.
  { rewrite !Hstep. unfold bind. by rewrite E1, E0. }
  split_and!; [|done|].
  - rewrite Hstep. unfold bind at 1. rewrite E1.
    destruct res1 as [[]|ex|]; [|done..].
    unfold bind at 1. rewrite get_env_eq.
    unfold bind at 1. rewrite put_env_eq.
    unfold bind at 1. rewrite grow_eq.
    destruct (decide _); [|done].
    unfold bind at 1. rewrite get_env_eq. done.
  - intros v w' Hret.
    pose proof (step_outcome fuel e h r (Ret v) w' HI Hret) as [_ Hres].
    destruct Hres as (e2 & h2 & a1 & Hw' & _ & _ & _ & _ & Hv & Hseq & _ & _
                      & _ & Hdone & _).
    rewrite Hstep in Hret. unfold bind at 1 in Hret. rewrite E1 in Hret.
    destruct res1 as [[]|ex|]; [|done..].
    unfold bind at 1 in Hret. rewrite get_env_eq in Hret.
    unfold bind at 1 in Hret. rewrite put_env_eq in Hret.
    unfold bind at 1 in Hret. rewrite grow_eq in Hret.
    destruct (decide _) in Hret; [|done].
    unfold bind at 1 in Hret. rewrite get_env_eq in Hret.
    injection Hret as _ <-.
    destruct (Hsub1 eq_refl) as [Hs Hd].
    unfold env, heap in *. cbn [fst snd agents set_array set_agent_count_seq
      agent_count_seq] in *.
    injection Hw' as <- <-.
    cbn [agents set_array set_agent_count_seq agent_count_seq] in *.
    split_and!; try done.
    + lia.
    + subst v. apply sublist_length in Hs. lia.
    + intros a Ha.
      destruct (Hdone a) as (x & l & s & Hx & Hy & Hm).
      { by eapply elem_of_sublist. }
      exists (stepped x l s). split; [done|].
      apply Hm in Ha.
      destruct (Qlt_le_dec (sugar (stepped x l s)) 0) as [Hlt|Hle].
      { assert (dead (stepped x l s) = true) by (apply dead_spec; by left).
        congruence. }
      split; [done|].
      destruct (Qlt_le_dec (lifespan (stepped x l s))
                  (inject_Z (age (stepped x l s)))) as [Hlt|Hle2]; [|done].
      assert (dead (stepped x l s) = true) by (apply dead_spec; by right).
      congruence.
Qed.

Lemma step_without_replace_witness :
  (step 0 w_alone).1 = Ret 1 ∧ step 7 w_alone = step 0 w_alone.
Proof.
  split; [vm_compute; reflexivity|].
  apply (step_without_replace 1 ps_one 7 w_alone); [|reflexivity].
  apply (reach_init 1 ps_one rs0).
  apply (result_eta (init 1 ps_one rs0) tt). vm_compute. reflexivity.
Defined.

(** *** Coordinates for drawing *)

Lemma read_locs_total e h r (ags : list ref) :
  (∀ a, a ∈ ags → is_Some (h !! a)) →
  ∃ ls, list_comp (λ a, bind (get_agent a) (λ x, ret (loc_ x))) ags
          ((e, h), r) = (Ret ls, ((e, h), r)) ∧
        Forall2 (λ a l, agent_loc h a = Some l) ags ls.
Proof.
  induction ags as [|a ags IH]; intros Hall.
  - exists []. split; [done|constructor].
  - destruct IH as (ls & Hls & HF); [intros b Hb; apply Hall; by right|].
    destruct (Hall a) as [x Hx]; [left|].
    assert (Forall2 (λ a l, agent_loc h a = Some l) (a :: ags)
              (loc_ x :: ls)) as HF'.
    { constructor; [|done]. unfold agent_loc. by rewrite Hx. }
    exists (loc_ x :: ls). split; [|done].
    by apply read_locs_outcome.
Qed.

(** X19.  [get_coords] turns the location (row, col) of every agent, in
    the order of the population, into the point (col + 1/2, row + 1/2), the
    middle of its cell, and changes nothing.  With an empty population it
    raises [ValueError]: there is nothing to unpack, so a simulation in
    which every agent has died can no longer be drawn. *)
Theorem get_coords_points (e : t) (h : gmap ref Agent) (r : RandomState) :
  Inv e h →
  (agents e = [] → get_coords ((e, h), r) = (Raise ValueError, ((e, h), r))) ∧
  (agents e ≠ [] →
   ∃ xs ys, get_coords ((e, h), r) = (Ret (xs, ys), ((e, h), r)) ∧
     length xs = length (agents e) ∧ length ys = length (agents e) ∧
     ∀ k a x, agents e !! k = Some a → h !! a = Some x →
       xs !! k = Some (inject_Z (loc_ x).2 + (1 # 2))%Q ∧
       ys !! k = Some (inject_Z (loc_ x).1 + (1 # 2))%Q).
Proof.
  intros HI.
  destruct (read_locs_total e h r (agents e) (inv_alloc _ _ _ HI))
    as (ls & Hls & HF).
  assert (get_coords ((e, h), r)
          = match ls with
            | [] => (Raise ValueError, ((e, h), r))
            | _ => (Ret ((λ c, inject_Z c + (1 # 2))%Q
                           <$> ((λ l : loc, l.2) <$> ls),
                         (λ c, inject_Z c + (1 # 2))%Q
                           <$> ((λ l : loc, l.1) <$> ls)), ((e, h), r))
            end) as ->.
  { unfold get_coords. unfold bind at 1. rewrite get_env_eq.
    unfold bind at 1. rewrite Hls. by destruct ls. }
  split.
  - intros Hnil. rewrite Hnil in HF. by inv HF.
  - intros Hne.
    assert (ls ≠ []) as Hls'.
    { intros ->. apply Forall2_nil_inv_r in HF. done. }
    eexists _, _. split; [by destruct ls|].
    rewrite !length_fmap, <- (Forall2_length _ _ _ HF).
    split_and!; [done..|].
    intros k a x Hk Hx.
    destruct (Forall2_lookup_l _ _ _ _ _ HF Hk) as (l & Hl & Hal).
    unfold agent_loc in Hal. rewrite Hx in Hal. injection Hal as <-.
    by rewrite !list_lookup_fmap, Hl.
Qed.

Lemma get_coords_points_witness :
  let e := env w0 in
  let h := heap w0 in
  let r := w0.2 in
  ∃ xs ys, get_coords ((e, h), r) = (Ret (xs, ys), ((e, h), r)) ∧
           length xs = length (agents e).
Proof.
  intros e h r.
  assert (Inv e h) as HI by apply (reachable_facts 3 ps0 w0 reachable_w0).
  assert (agents e ≠ []) as Hne by (vm_compute; discriminate).
  destruct (proj2 (get_coords_points e h r HI) Hne)
    as (xs & ys & H1 & H2 & _).
  exists xs, ys. split; [exact H1|exact H2].
Defined.

(** *** The search for a free cell *)

(** X20.  [random_loc] draws cells until one is not in the occupancy index
    and returns that one: the first free cell in the sequence of attempts,
    a cell of the grid.  Every attempt costs two draws, and nothing but the
    generator changes.  If the first free cell comes at attempt [j + 1], no
    smaller number of attempts is enough. *)
Theorem random_loc_first_free (e : t) (h : gmap ref Agent) (r : RandomState)
    (j : nat) :
  0 < n e →
  (∀ i, (i < j)%nat →
        cell_at (n e) (draws r) (pos r + 2 * i) ∈ occupied e) →
  cell_at (n e) (draws r) (pos r + 2 * j) ∉ occupied e →
  valid (n e) (cell_at (n e) (draws r) (pos r + 2 * j)) ∧
  (∀ fuel, (fuel <= j)%nat → (random_loc fuel ((e, h), r)).1 = Diverge) ∧
  (∀ fuel, (j < fuel)%nat →
     random_loc fuel ((e, h), r)
     = (Ret (cell_at (n e) (draws r) (pos r + 2 * j)),
        ((e, h), {| draws := draws r; pos := pos r + 2 * S j |}))).
Proof.
  intros Hn. revert r. induction j as [|j IH]; intros r Hocc Hfree.
  - split_and!.
    + unfold cell_at. split; cbn [fst snd]; by apply Z.mod_pos_bound.
    + intros fuel Hf. by replace fuel with 0%nat by lia.
    + intros [|fuel] Hf; [lia|].
      rewrite random_loc_S by done.
      rewrite Nat.mul_0_r, Nat.add_0_r in Hfree.
      rewrite decide_False by done.
      rewrite Nat.mul_0_r, Nat.add_0_r.
      by replace (pos r + 2 * 1)%nat with (S (S (pos r))) by lia.
  - set (r1 := {| draws := draws r; pos := S (S (pos r)) |}).
    assert (∀ i, (pos r1 + 2 * i = pos r + 2 * S i)%nat) as Hpos
      by (intros i; cbn; lia).
    destruct (IH r1) as (Hv & Hdiv & Hret).
    { intros i Hi. cbn [draws r1]. rewrite Hpos. apply Hocc. lia. }
    { cbn [draws r1]. by rewrite Hpos. }
    cbn [draws r1] in *. rewrite Hpos in *.
    assert (cell_at (n e) (draws r) (pos r) ∈ occupied e) as H0.
    { specialize (Hocc 0%nat). rewrite Nat.mul_0_r, Nat.add_0_r in Hocc.
      apply Hocc. lia. }
    split_and!; [done| |].
    + intros [|fuel] Hf; [done|].
      rewrite random_loc_S, decide_True by done. apply Hdiv. lia.
    + intros [|fuel] Hf; [lia|].
      rewrite random_loc_S, decide_True by done. fold r1.
      rewrite Hret by lia.
      by replace (pos r1 + 2 * S j)%nat with (pos r + 2 * S (S j))%nat
        by (cbn; lia).
Qed.

Lemma random_loc_first_free_witness :
  let e := env w0 in
  let h := heap w0 in
  let r := w0.2 in
  cell_at (n e) (draws r) (pos r + 2 * 2) = (0, 1) ∧
  random_loc 3 ((e, h), r)
  = (Ret (cell_at (n e) (draws r) (pos r + 2 * 2)),
     ((e, h), {| draws := draws r; pos := pos r + 2 * 3 |})).
Proof.
  intros e h r. split; [vm_compute; reflexivity|].
  apply (random_loc_first_free e h r 2).
  - vm_compute. reflexivity.
  - intros [|[|i]] Hi; [| |lia];
      apply (bool_decide_unpack _); vm_compute; exact I.
  - apply (bool_decide_unpack _). vm_compute. exact I.
  - lia.
Defined.

(** *** No exception *)

(** X21.  On a simulation whose starting box lies inside the grid and
    whose growth rate is an int64, [step] raises nothing, whatever the
    draws: [occupied.remove] finds the location of every agent,
    [agents.remove] finds every dead agent, no array is read outside its
    bounds, every agent sees at least one cell away and the parameters
    that made the first agents make the replacements.  The same holds for
    [add_agent], and for [harvest] at a cell of the grid. *)
Theorem step_never_raises (n0 : Z) (ps : Params) (w : world) (fuel : nat)
    (ex : exn) :
  reachable n0 ps w → box_fits n0 ps → int64 (default 1 (grow_rate ps)) →
  (step fuel w).1 ≠ Raise ex ∧
  (agents (env w) ≠ [] → (add_agent fuel w).1 ≠ Raise ex) ∧
  (∀ l, valid n0 l → (harvest l w).1 ≠ Raise ex).
Proof.
  intros Hreach Hbox Hg.
  pose proof (reachable_facts _ _ _ Hreach)
    as (HI & Hn & Hp & _ & _ & HS & _).
  specialize (HS Hbox).
  destruct w as [[e h] r]. unfold env, heap in *. cbn [fst snd] in *.
  split_and!.
  - destruct (step fuel ((e, h), r)) as [res w'] eqn:E.
    apply step_outcome in E as [_ Hres]; [|done].
    cbn [fst]. intros ->. rewrite Hp in Hres. by destruct Hres.
  - intros Hne.
    destruct (add_agent fuel ((e, h), r)) as [res w'] eqn:E.
    apply add_agent_outcome in E as [_ Hres].
    cbn [fst]. intros ->. destruct Hres as [HC _].
    by apply HC, (st_cfg _ _ HS).
  - intros l Hl. rewrite harvest_eq.
    assert (valid (dim (array e)) l) as Hl'
      by (by rewrite (st_dim _ _ HS), Hn).
    destruct (getitem_is_Some (array e) l (st_wf _ _ HS) Hl') as [v ->].
    by rewrite (setitem_valid _ _ _ (st_wf _ _ HS) Hl').
Qed.

Lemma step_never_raises_witness :
  box_fits 3 ps0 ∧ int64 (default 1 (grow_rate ps0)) ∧
  (step 5 w0).1 ≠ Raise IndexError.
Proof.
  assert (int64 (default 1 (grow_rate ps0))) as Hg
    by (unfold int64; simpl; lia).
  split; [exact I|]. split; [exact Hg|].
  exact (proj1 (step_never_raises 3 ps0 w0 5 IndexError reachable_w0 I Hg)).
Defined.

End TickFacts.
